(** * Render scheduling and render-to-texture compositing of maplibre-gl-js

    A shallow embedding of two parts of the repository:

    - [Rtt]: the class [RenderToTexture] (the render-to-texture compositor:
      framebuffer pool, per-tile cache of rendered stacks, stack builder);
    - [MapLoop]: the frame scheduling part of [Map] in [src/ui/map.ts]
      ([_update], [triggerRepaint], [_render], [redraw], [remove]).

    JavaScript objects used as dictionaries are finite maps, arrays are
    lists (with explicit holes where the code can produce them), a thrown
    [TypeError] is [None] or an explicit outcome. *)

From stdpp Require Import gmap strings list fin_maps sorting.
From Stdlib Require Import ZArith.
From Stdlib Require Import Floats.PrimFloat.

Local Open Scope Z_scope.
Local Open Scope string_scope.
Local Open Scope list_scope.
Local Open Scope nat_scope.

(** ** JavaScript values used by both parts *)

Module Js.

(** An [Array] that may have holes; a hole, like an index past the end,
    reads as [undefined]. *)
Abbreviation array A := (list (option A)).

Definition get {A : Type} (a : array A) (i : nat) : option A :=
  a !! i ≫= id.

(** [a[i] = v]: a write past the end extends the array, leaving holes. *)
Definition set {A : Type} (i : nat) (v : A) (a : array A) : array A :=
  if decide (i < length a) then <[i := Some v]> a
  else a ++ replicate (i - length a) None ++ [Some v].

(** Truthiness of a value that is [true], [false] or [undefined]. *)
Definition truthy (o : option bool) : bool := default false o.

(** Truthiness of a number-or-undefined: [0] and [undefined] are falsy. *)
Definition truthy_num (o : option nat) : bool :=
  match o with
  | Some (S _) => true
  | _ => false
  end.

(** Truthiness of a string-or-undefined: the empty string is falsy. *)
Definition truthy_str (o : option string) : bool :=
  match o with
  | Some EmptyString => false
  | Some _ => true
  | None => false
  end.

(** The property name under which a string-or-undefined is looked up. *)
Definition prop_key (o : option string) : string := default "undefined" o.

End Js.

(** ** The render-to-texture compositor *)

Module Rtt.

(** *** Collaborators, as far as the compositor reads them *)

Record OverscaledTileID := { key : string }.

Module Tile.
(** A terrain tile; [rttFBOs] and [rttCoords] are written by the
    compositor and live on the tile across frames. *)
Record t := {
  tileID : OverscaledTileID;
  rttFBOs : Js.array nat;
  rttCoords : gmap string string
}.
End Tile.

(** [StyleLayer['type']]: the layer types of the style specification, whose
    declaration is not among the sources. *)
Inductive LayerType :=
| background | fill | line | raster | symbol | circle | heatmap
| fill_extrusion | hillshade | custom.

Record StyleLayer := {
  id : string;
  type : LayerType;
  source : option string
}.

Record SourceCache := { getVisibleCoordinates : list OverscaledTileID }.

Record Terrain := {
  tileSize : Z;
  qualityFactor : Z;
  getRenderableTiles : list Tile.t;
  getTerrainCoords : OverscaledTileID → list (string * OverscaledTileID);
  needsRerender : string → OverscaledTileID → bool
}.

(** [painter.style]; the compositor only exists while terrain is set. *)
Record Style := {
  _order : list string;
  _layers : gmap string StyleLayer;
  sourceCaches : list (string * SourceCache);
  terrain : Terrain
}.

Record Framebuffer := { width : Z; height : Z }.
Record Texture := { size : Z }.

(** What reaches the GL context, in call order (newest last). *)
Inductive gl_call :=
| Clear (fbo : nat)
| RenderLayer (layer : string) (tile : string) (fbo : nat)
              (coords : option (list OverscaledTileID))
| DrawTerrain (assigned : list (option nat)).

Record Painter := {
  style : Style;
  currentLayer : nat;
  context : list gl_call
}.

(** The fields of [RenderToTexture]. *)
Record t := {
  painter : Painter;
  rttFBOs : list Framebuffer;
  rttTextures : list Texture;
  rttUsedFBOs : Js.array bool;
  _coordsDescendingInv : gmap string (gmap string (list OverscaledTileID));
  _coordsDescendingInvStr : gmap string (gmap string string);
  _stacks : list (Js.array string);
  _prevType : option LayerType;
  _renderableTiles : list Tile.t
}.

(** [this._renderToTexture], set once by the constructor. *)
Definition _renderToTexture (ty : LayerType) : option bool :=
  match ty with
  | background | fill | line | raster => Some true
  | _ => None
  end.

(** The constructor; [rttUsedFBOs] and the per-frame fields are assigned by
    [initialize] only, which runs before any other method, and are given
    here the values [initialize] starts from. *)
Definition constructor (p : Painter) : t :=
  {| painter := p; rttFBOs := []; rttTextures := []; rttUsedFBOs := [];
     _coordsDescendingInv := ∅; _coordsDescendingInvStr := ∅;
     _stacks := []; _prevType := None; _renderableTiles := [] |}.

(** *** The framebuffer pool *)

Definition set_used (u : Js.array bool) (r : t) : t :=
  {| painter := painter r; rttFBOs := rttFBOs r; rttTextures := rttTextures r;
     rttUsedFBOs := u;
     _coordsDescendingInv := _coordsDescendingInv r;
     _coordsDescendingInvStr := _coordsDescendingInvStr r;
     _stacks := _stacks r; _prevType := _prevType r;
     _renderableTiles := _renderableTiles r |}.

Definition push_fbo (f : Framebuffer) (x : Texture) (r : t) : t :=
  {| painter := painter r; rttFBOs := rttFBOs r ++ [f];
     rttTextures := rttTextures r ++ [x];
     rttUsedFBOs := rttUsedFBOs r;
     _coordsDescendingInv := _coordsDescendingInv r;
     _coordsDescendingInvStr := _coordsDescendingInvStr r;
     _stacks := _stacks r; _prevType := _prevType r;
     _renderableTiles := _renderableTiles r |}.

(** The loop [for (let i=0; i<this.rttFBOs.length; i++)] of [getFBO],
    started at [i] with [n] indices left. *)
Fixpoint first_free (used : Js.array bool) (i n : nat) : option nat :=
  match n with
  | 0 => None
  | S n' =>
      if negb (Js.truthy (Js.get used i)) then Some i
      else first_free used (S i) n'
  end.

Definition getFBO (r : t) : nat * t :=
  match first_free (rttUsedFBOs r) 0 (length (rttFBOs r)) with
  | Some i => (i, set_used (Js.set i true (rttUsedFBOs r)) r)
  | None =>
      let sz := (tileSize (terrain (style (painter r)))
                 * qualityFactor (terrain (style (painter r))))%Z in
      let r' := push_fbo {| width := sz; height := sz |} {| size := sz |} r in
      (length (rttFBOs r') - 1, r')
  end.

(** [freeFBO(i)]: [typeof(i) === "number"] fails for [undefined]. *)
Definition freeFBO (i : option nat) (r : t) : t :=
  match i with
  | Some n => set_used (Js.set n false (rttUsedFBOs r)) r
  | None => r
  end.

Definition set_painter (p : Painter) (r : t) : t :=
  {| painter := p; rttFBOs := rttFBOs r; rttTextures := rttTextures r;
     rttUsedFBOs := rttUsedFBOs r;
     _coordsDescendingInv := _coordsDescendingInv r;
     _coordsDescendingInvStr := _coordsDescendingInvStr r;
     _stacks := _stacks r; _prevType := _prevType r;
     _renderableTiles := _renderableTiles r |}.

Definition set_stacks (s : list (Js.array string)) (r : t) : t :=
  {| painter := painter r; rttFBOs := rttFBOs r; rttTextures := rttTextures r;
     rttUsedFBOs := rttUsedFBOs r;
     _coordsDescendingInv := _coordsDescendingInv r;
     _coordsDescendingInvStr := _coordsDescendingInvStr r;
     _stacks := s; _prevType := _prevType r;
     _renderableTiles := _renderableTiles r |}.

Definition set_prevType (ty : option LayerType) (r : t) : t :=
  {| painter := painter r; rttFBOs := rttFBOs r; rttTextures := rttTextures r;
     rttUsedFBOs := rttUsedFBOs r;
     _coordsDescendingInv := _coordsDescendingInv r;
     _coordsDescendingInvStr := _coordsDescendingInvStr r;
     _stacks := _stacks r; _prevType := ty;
     _renderableTiles := _renderableTiles r |}.

Definition set_tiles (ts : list Tile.t) (r : t) : t :=
  {| painter := painter r; rttFBOs := rttFBOs r; rttTextures := rttTextures r;
     rttUsedFBOs := rttUsedFBOs r;
     _coordsDescendingInv := _coordsDescendingInv r;
     _coordsDescendingInvStr := _coordsDescendingInvStr r;
     _stacks := _stacks r; _prevType := _prevType r;
     _renderableTiles := ts |}.

(** A call on the GL context of the painter. *)
Definition emit (c : gl_call) (r : t) : t :=
  set_painter {| style := style (painter r);
                 currentLayer := currentLayer (painter r);
                 context := context (painter r) ++ [c] |} r.

(** [prepareFBO(i)]: binds and clears framebuffer [i]; reading
    [fbo.framebuffer] of a missing framebuffer throws. *)
Definition prepareFBO (i : option nat) (r : t) : option t :=
  n ← i; _ ← rttFBOs r !! n; Some (emit (Clear n) r).

(** *** [initialize] *)

(** [Array.prototype.sort()] without a comparator orders strings by their
    code units and is stable; [join()] separates with a comma. *)
Definition str_le (a b : string) : Prop := String.leb a b = true.

#[global] Instance str_le_dec : RelDecision str_le.
Proof. intros a b. unfold str_le. apply _. Defined.

Definition sort (l : list string) : list string := merge_sort str_le l.

Definition join (l : list string) : string := String.concat "," l.

(** [coords.map(c => c.key).sort().join()] *)
Definition coords_str (cs : list OverscaledTileID) : string :=
  join (sort (key <$> cs)).

(** Body of [for (const key in keys)]: create the array on first use, then
    push. *)
Definition push_coord (m : gmap string (list OverscaledTileID))
    (kc : string * OverscaledTileID) : gmap string (list OverscaledTileID) :=
  <[kc.1 := default [] (m !! kc.1) ++ [kc.2]]> m.

(** Body of [for (const tileID of tileIDs)]. *)
Definition collect_coords (te : Terrain) (tileIDs : list OverscaledTileID)
    : gmap string (list OverscaledTileID) :=
  foldl (λ m tileID, foldl push_coord m (getTerrainCoords te tileID)) ∅ tileIDs.

(** [// fill _coordsDescendingInv] *)
Definition fill_coordsDescendingInv (st : Style)
    : gmap string (gmap string (list OverscaledTileID)) :=
  foldl (λ acc e,
           <[e.1 := collect_coords (terrain st) (getVisibleCoordinates e.2)]> acc)
        ∅ (sourceCaches st).

(** Body of [for (const id of style._order)] in [// fill
    _coordsDescendingInvStr]; [layer.source] of a missing layer throws. *)
Definition fill_str_step (st : Style)
    (inv : gmap string (gmap string (list OverscaledTileID)))
    (acc : option (gmap string (gmap string string))) (lid : string)
    : option (gmap string (gmap string string)) :=
  m ← acc;
  layer ← _layers st !! lid;
  let src := Js.prop_key (source layer) in
  if Js.truthy (_renderToTexture (type layer)) then
    match m !! src with
    | Some _ => Some m
    | None => Some (<[src := coords_str <$> default ∅ (inv !! src)]> m)
    end
  else Some m.

Definition fill_coordsDescendingInvStr (st : Style)
    (inv : gmap string (gmap string (list OverscaledTileID)))
    : option (gmap string (gmap string string)) :=
  foldl (fill_str_step st inv) (Some ∅) (_order st).

(** Body of [for (const source in this._coordsDescendingInvStr)], acting on
    [tile.rttFBOs]. *)
Definition check_source (te : Terrain) (tile : Tile.t) (src : string)
    (strs : gmap string string) (fbos : Js.array nat) : Js.array nat :=
  let coords := strs !! key (Tile.tileID tile) in
  let fbos :=
    if Js.truthy_str coords
       && negb (bool_decide (coords = Tile.rttCoords tile !! src))
    then [] else fbos in
  if needsRerender te src (Tile.tileID tile) then [] else fbos.

(** [for (const i of tile.rttFBOs) this.rttUsedFBOs[i] = true]; a hole
    writes the property ["undefined"], which no index reads. *)
Definition mark_used (used : Js.array bool) (fbos : Js.array nat)
    : Js.array bool :=
  foldl (λ u o, match o with Some i => Js.set i true u | None => u end)
        used fbos.

Definition check_tile (te : Terrain) (strs : gmap string (gmap string string))
    (tile : Tile.t) : Tile.t :=
  {| Tile.tileID := Tile.tileID tile;
     Tile.rttFBOs := map_fold (check_source te tile) (Tile.rttFBOs tile) strs;
     Tile.rttCoords := Tile.rttCoords tile |}.

(** [initialize()]; [clearRerenderCache] and [removeOutdated] act on the
    terrain only. *)
Definition initialize (r : t) : option t :=
  let st := style (painter r) in
  let te := terrain st in
  let inv := fill_coordsDescendingInv st in
  strs ← fill_coordsDescendingInvStr st inv;
  let tiles := check_tile te strs <$> getRenderableTiles te in
  Some {| painter := painter r; rttFBOs := rttFBOs r;
          rttTextures := rttTextures r;
          rttUsedFBOs := foldl (λ u tile, mark_used u (Tile.rttFBOs tile)) [] tiles;
          _coordsDescendingInv := inv;
          _coordsDescendingInvStr := strs;
          _stacks := []; _prevType := None;
          _renderableTiles := tiles |}.

Definition getTexture (tile : Tile.t) (r : t) : option Texture :=
  match length (_stacks r) with
  | 0 => None
  | S stack => i ← Js.get (Tile.rttFBOs tile) stack; rttTextures r !! i
  end.

(** *** [renderLayer] *)

#[global] Instance LayerType_eq_dec : EqDecision LayerType.
Proof. solve_decision. Defined.

(** [this._renderToTexture[this._prevType]]; the property ["null"] does not
    exist. *)
Definition lookup_prev (prev : option LayerType) : option bool :=
  prev ≫= _renderToTexture.

Definition set_tile_fbo (stack i : nat) (tile : Tile.t) : Tile.t :=
  {| Tile.tileID := Tile.tileID tile;
     Tile.rttFBOs := Js.set stack i (Tile.rttFBOs tile);
     Tile.rttCoords := Tile.rttCoords tile |}.

(** [tile.rttCoords[source] = v]; a stored [undefined] reads like a missing
    property. *)
Definition set_tile_coords (src : string) (v : option string) (tile : Tile.t)
    : Tile.t :=
  {| Tile.tileID := Tile.tileID tile;
     Tile.rttFBOs := Tile.rttFBOs tile;
     Tile.rttCoords :=
       match v with
       | Some s => <[src := s]> (Tile.rttCoords tile)
       | None => delete src (Tile.rttCoords tile)
       end |}.

(** [this._stacks[this._stacks.length - 1].push(x)] *)
Definition push_last (x : option string) (stacks : list (Js.array string))
    : option (list (Js.array string)) :=
  match length stacks with
  | 0 => None
  | S n => s ← stacks !! n; Some (<[n := s ++ [x]]> stacks)
  end.

(** The tiles are objects mutated in place while the loop threads the pool
    and the GL context. *)
Fixpoint for_tiles (f : t → Tile.t → option (t * Tile.t)) (r : t)
    (tiles : list Tile.t) : option (t * list Tile.t) :=
  match tiles with
  | [] => Some (r, [])
  | tile :: rest =>
      '(r1, tile') ← f r tile;
      '(r2, rest') ← for_tiles f r1 rest;
      Some (r2, tile' :: rest')
  end.

(** Body of [for (let l = 0; l < layers.length; l++)], drawing into
    framebuffer [fbo]; the clipping masks are part of the drawing of the
    layer. *)
Definition draw_stack_layer (fbo : nat) (acc : option (t * Tile.t))
    (lid : option string) : option (t * Tile.t) :=
  '(r, tile) ← acc;
  layer ← _layers (style (painter r)) !! Js.prop_key lid;
  let K := key (Tile.tileID tile) in
  let src := Js.prop_key (source layer) in
  coords ← (if Js.truthy_str (source layer)
            then inv ← _coordsDescendingInv r !! src; Some (inv !! K)
            else Some (Some [Tile.tileID tile]));
  let r := emit (RenderLayer (Js.prop_key lid) K fbo coords) r in
  if Js.truthy_str (source layer)
  then strs ← _coordsDescendingInvStr r !! src;
       Some (r, set_tile_coords src (strs !! K) tile)
  else Some (r, tile).

(** Body of the first [for (const tile of this._renderableTiles)]. *)
Definition flush_tile (stack : nat) (layers : Js.array string) (r : t)
    (tile : Tile.t) : option (t * Tile.t) :=
  if Js.truthy_num (Js.get (Tile.rttFBOs tile) stack) then Some (r, tile)
  else
    let '(i, r) := getFBO r in
    let tile := set_tile_fbo stack i tile in
    r ← prepareFBO (Js.get (Tile.rttFBOs tile) stack) r;
    foldl (draw_stack_layer i) (Some (r, tile)) layers.

(** [drawTerrain(painter, this, tiles)] reads each tile's texture through
    [getTexture], that is [tile.rttFBOs] at the newest stack. *)
Definition drawTerrain (r : t) : t :=
  emit (DrawTerrain
          ((λ tile, match length (_stacks r) with
                    | 0 => None
                    | S stack => Js.get (Tile.rttFBOs tile) stack
                    end) <$> _renderableTiles r)) r.

(** Body of the loop of the hillshade case. *)
Definition hillshade_tile (layer : StyleLayer) (stack : nat) (r : t)
    (tile : Tile.t) : option (t * Tile.t) :=
  let r := freeFBO (Js.get (Tile.rttFBOs tile) stack) r in
  let '(i, r) := getFBO r in
  let tile := set_tile_fbo stack i tile in
  r ← prepareFBO (Js.get (Tile.rttFBOs tile) stack) r;
  inv ← _coordsDescendingInv r !! Js.prop_key (source layer);
  let K := key (Tile.tileID tile) in
  Some (emit (RenderLayer (id layer) K i (inv !! K)) r, tile).

Definition renderLayer (layer : StyleLayer) (r : t)
    : option (option bool * t) :=
  let ty := type layer in
  let layerIds := _order (style (painter r)) in
  let cur := currentLayer (painter r) in
  let isLastLayer := bool_decide (cur + 1 = length layerIds) in
  let is_rtt := Js.truthy (_renderToTexture ty) in
  r1 ← (if is_rtt then
          let r :=
            if negb (bool_decide (is_Some (_prevType r)))
               || negb (Js.truthy (lookup_prev (_prevType r)))
            then set_stacks (_stacks r ++ [[]]) r else r in
          let r := set_prevType (Some ty) r in
          s ← push_last (layerIds !! cur) (_stacks r);
          Some (set_stacks s r)
        else Some r);
  if is_rtt && negb isLastLayer then Some (Some true, r1)
  else if Js.truthy (lookup_prev (_prevType r1))
          || bool_decide (ty = hillshade)
          || (is_rtt && isLastLayer)
  then
    let r2 := set_prevType (Some ty) r1 in
    r3 ← match length (_stacks r2) with
         | 0 => Some r2
         | S stack =>
             let layers := default [] (_stacks r2 !! stack) in
             '(r, tiles) ← for_tiles (flush_tile stack layers) r2
                                     (_renderableTiles r2);
             Some (set_tiles tiles r)
         end;
    let r4 := drawTerrain r3 in
    if bool_decide (ty = hillshade) then
      let r5 := set_stacks (_stacks r4 ++ [[layerIds !! cur]]) r4 in
      let stack := length (_stacks r5) - 1 in
      '(r, tiles) ← for_tiles (hillshade_tile layer stack) r5
                              (_renderableTiles r5);
      Some (Some true, drawTerrain (set_tiles tiles r))
    else Some (_renderToTexture ty, r4)
  else Some (Some false, r1).

(** *** The painter's layer loop *)

Definition set_currentLayer (i : nat) (r : t) : t :=
  set_painter {| style := style (painter r);
                 currentLayer := i;
                 context := context (painter r) |} r.

(** Modelled from the spec: the painter's loop over the draw-ordered layer
    list (4.1 step 4 and 4.2, "for each layer in draw order") is not among
    the sources. It advances [painter.currentLayer] over [style._order] and
    hands each layer to [renderLayer], collecting the returned values. *)
Definition render_step (acc : option (list (option bool) * t)) (i : nat)
    : option (list (option bool) * t) :=
  '(res, r) ← acc;
  let r := set_currentLayer i r in
  lid ← _order (style (painter r)) !! i;
  layer ← _layers (style (painter r)) !! lid;
  '(b, r') ← renderLayer layer r;
  Some (res ++ [b], r').

Definition renderLayers (r : t) : option (list (option bool) * t) :=
  foldl render_step (Some ([], r))
        (seq 0 (length (_order (style (painter r))))).

(** One frame of the compositor. *)
Definition frame (r : t) : option (list (option bool) * t) :=
  initialize r ≫= renderLayers.

(** The painter of a later frame: the style as it is then, a fresh record of
    GL calls, and the terrain tiles being the objects the last frame wrote. *)
Definition next_painter (st : Style) (r : t) : t :=
  set_painter
    {| style :=
         {| _order := _order st; _layers := _layers st;
            sourceCaches := sourceCaches st;
            terrain :=
              {| tileSize := tileSize (terrain st);
                 qualityFactor := qualityFactor (terrain st);
                 getRenderableTiles := _renderableTiles r;
                 getTerrainCoords := getTerrainCoords (terrain st);
                 needsRerender := needsRerender (terrain st) |} |};
       currentLayer := 0;
       context := [] |} r.

(** *** Notions used to state the properties of the compositor *)

(** The sources, as property names, of the layers of the style that are
    rendered to texture, in style order. *)
Definition rtt_sources (st : Style) : list string :=
  omap (λ lid, layer ← _layers st !! lid;
               if Js.truthy (_renderToTexture (type layer))
               then Some (Js.prop_key (source layer)) else None)
       (_order st).

(** The spec's words: the CompositeKey is the sorted, de-duplicated, joined
    string of the keys of the contributing source tiles. *)
Definition CompositeKey_as_specified (cs : list OverscaledTileID) : string :=
  join (remove_dups (sort (key <$> cs))).

(** The spec's words: for every source id and composite-tile key the string
    kept by [initialize] is that CompositeKey. *)
Definition CompositeKey_claim (r : t) : Prop :=
  ∀ src K cs,
    _coordsDescendingInv r !! src ≫= (.!! K) = Some cs →
    _coordsDescendingInvStr r !! src ≫= (.!! K)
    = Some (CompositeKey_as_specified cs).

(** [r'] has the style, the current layer, the collected coordinates, the
    stacks and the previous layer type of [r]; its pool is no smaller and
    its record of GL calls extends that of [r]. *)
Definition grows (r r' : t) : Prop :=
  style (painter r') = style (painter r)
  ∧ currentLayer (painter r') = currentLayer (painter r)
  ∧ _coordsDescendingInv r' = _coordsDescendingInv r
  ∧ _coordsDescendingInvStr r' = _coordsDescendingInvStr r
  ∧ _stacks r' = _stacks r ∧ _prevType r' = _prevType r
  ∧ length (rttFBOs r) ≤ length (rttFBOs r')
  ∧ ∃ l, context (painter r') = context (painter r) ++ l.

(** The entry [lid] of a stack can be drawn: it names a layer of the style
    whose source, if it has one, has coordinates and strings collected. *)
Definition drawable (r : t) (lid : option string) : Prop :=
  ∃ layer, _layers (style (painter r)) !! Js.prop_key lid = Some layer
    ∧ (Js.truthy_str (source layer) = true →
       is_Some (_coordsDescendingInv r !! Js.prop_key (source layer))
       ∧ is_Some (_coordsDescendingInvStr r !! Js.prop_key (source layer))).

(** The tile holds a framebuffer of the pool for [stack], and layer [h] has
    been drawn into it for this tile. *)
Definition drawn_into (h : string) (stack : nat) (r : t) (tile : Tile.t)
    : Prop :=
  ∃ i coords,
    Js.get (Tile.rttFBOs tile) stack = Some i ∧ i < length (rttFBOs r)
    ∧ RenderLayer h (key (Tile.tileID tile)) i coords ∈ context (painter r).

(** Slot [j] can be handed to a tile that held [held] for the stack being
    redrawn: it is the slot the tile gives back, or its mark is not set. *)
Definition free_for (held : option nat) (r : t) (j : nat) : Prop :=
  held = Some j ∨ Js.truthy (Js.get (rttUsedFBOs r) j) = false.

(** One tile of the pass that redraws layer [h] for [stack] in every frame,
    from the compositor [r] and the tile [tile] to [r'] and [tile']. The
    slot the tile held for the stack is given back first. The tile then
    takes the slot [i] of lowest index that is free, and the pool stays as it
    is; or, when no slot of the pool is free, a framebuffer appended to the
    pool. A slot given back and not taken again is left marked free, a slot
    taken from the pool is left marked used, and no other mark changes. The
    slot is cleared and the layer is drawn into it. The tile keeps its
    identity and what it holds for the other stacks. *)
Definition redrawn (h : string) (stack : nat) (r : t) (tile : Tile.t)
    (r' : t) (tile' : Tile.t) : Prop :=
  let held := Js.get (Tile.rttFBOs tile) stack in
  ∃ i coords,
    Js.get (Tile.rttFBOs tile') stack = Some i
    ∧ Tile.tileID tile' = Tile.tileID tile
    ∧ (∀ k, k ≠ stack →
            Js.get (Tile.rttFBOs tile') k = Js.get (Tile.rttFBOs tile) k)
    ∧ (∀ j, j < i → j < length (rttFBOs r) → ¬ free_for held r j)
    ∧ (i < length (rttFBOs r) →
       free_for held r i ∧ rttFBOs r' = rttFBOs r
       ∧ Js.get (rttUsedFBOs r') i = Some true)
    ∧ (length (rttFBOs r) ≤ i →
       i = length (rttFBOs r) ∧ length (rttFBOs r') = S i)
    ∧ (∀ o, held = Some o → o ≠ i → Js.get (rttUsedFBOs r') o = Some false)
    ∧ (∀ j, j ≠ i → held ≠ Some j →
            Js.get (rttUsedFBOs r') j = Js.get (rttUsedFBOs r) j)
    ∧ context (painter r')
      = context (painter r)
        ++ [Clear i; RenderLayer h (key (Tile.tileID tile)) i coords].


End Rtt.

(** ** Sample styles for the compositor *)

Module Sample.
Import Rtt.

Definition tid (k : string) : OverscaledTileID := {| key := k |}.

(** A terrain tile nothing has been rendered for yet. *)
Definition new_tile (k : string) : Tile.t :=
  {| Tile.tileID := tid k; Tile.rttFBOs := []; Tile.rttCoords := ∅ |}.

Definition style_of (layers : list StyleLayer)
    (caches : list (string * SourceCache)) (te : Terrain) : Style :=
  {| _order := id <$> layers;
     _layers := list_to_map ((λ l, (id l, l)) <$> layers);
     sourceCaches := caches;
     terrain := te |}.

Definition painter_of (st : Style) : Painter :=
  {| style := st; currentLayer := 0; context := [] |}.

(** One terrain tile ["t1"], covered by the tiles ["a"] and ["b"] of the
    vector source ["v"]; nothing is flagged for re-rendering. *)
Definition one_tile : Terrain :=
  {| tileSize := 512; qualityFactor := 2;
     getRenderableTiles := [new_tile "t1"];
     getTerrainCoords := λ c, [("t1", c)];
     needsRerender := λ _ _, false |}.

(** A single fill layer. *)
Definition land : StyleLayer :=
  {| id := "land"; type := fill; source := Some "v" |}.

Definition land_style : Style :=
  style_of [land]
           [("v", {| getVisibleCoordinates := [tid "b"; tid "a"] |})]
           one_tile.

(** A fill layer on ["v"] and a symbol layer on ["poi"]; the visible
    coordinates of ["v"] name the tile ["a"] twice. *)
Definition places : StyleLayer :=
  {| id := "places"; type := symbol; source := Some "poi" |}.

Definition places_style : Style :=
  style_of [land; places]
           [("v", {| getVisibleCoordinates := [tid "a"; tid "a"] |});
            ("poi", {| getVisibleCoordinates := [tid "p"] |})]
           one_tile.

(** The layer order [background, fill, symbol, fill, hillshade] over two
    terrain tiles; the fill and symbol layers take their tiles from ["v"],
    the hillshade layer from ["dem"]. *)
Definition sky : StyleLayer :=
  {| id := "sky"; type := background; source := None |}.

Definition water : StyleLayer :=
  {| id := "water"; type := fill; source := Some "v" |}.

Definition labels : StyleLayer :=
  {| id := "labels"; type := symbol; source := Some "v" |}.

Definition relief : StyleLayer :=
  {| id := "relief"; type := hillshade; source := Some "dem" |}.

Definition two_tiles : Terrain :=
  {| tileSize := 512; qualityFactor := 2;
     getRenderableTiles := [new_tile "t1"; new_tile "t2"];
     getTerrainCoords := λ c, [("t1", c); ("t2", c)];
     needsRerender := λ _ _, false |}.

Definition relief_style : Style :=
  style_of [sky; land; labels; water; relief]
           [("v", {| getVisibleCoordinates := [tid "b"; tid "a"] |});
            ("dem", {| getVisibleCoordinates := [tid "d"] |})]
           two_tiles.

End Sample.

(** ** The render loop of the map *)

Module MapLoop.

(** [this.style]: the map only tests whether it is set. *)
Record Style := { stylesheet : string }.

(** What the map did, in order (newest last). [Enter_render] marks the
    entry of [_render], [Draw] is [painter.render], [Fire] an event handed
    to the listeners. *)
Inductive MapEvent := Ev_render | Ev_load | Ev_idle | Ev_remove
                    | Ev_webglcontextlost.

Inductive obs :=
| Enter_render
| Style_update
| Update_sources
| Draw
| Fire (e : MapEvent).

#[global] Instance MapEvent_eq_dec : EqDecision MapEvent.
Proof. solve_decision. Defined.

#[global] Instance obs_eq_dec : EqDecision obs.
Proof. solve_decision. Defined.

(** Calls into the map that code outside of it makes: from a callback of
    the render task queue, or in a turn of its own (an asynchronous load, a
    user action). [None] for [updateStyle] is the omitted argument. *)
#[warnings="-register-all"] Inductive call :=
| Call_update (updateStyle : option bool)
| Call_triggerRepaint
| Call_updateStyle (style : option string)
| Call_remove
| Call_requestRenderFrame (callback : list call)
| Call_cancelRenderFrame (id : nat)
| Call_set_repaint (value : bool)
| Call_contextLost.

(** Calls that listeners make synchronously while a frame is being rendered
    ("synchronous events fired during Style#update or Style#_updateSources
    could have caused them to be set again"): they mark the map dirty. *)
Inductive mark :=
| Mark_update (updateStyle : option bool)
| Mark_triggerRepaint.

(** Modelled from the spec: [TaskQueue] (util/task_queue) is not among the
    sources. Tasks [{id, callback}] are kept in insertion order; draining
    processes the tasks present at drain start only, and tasks enqueued
    during a drain run on the next frame; [remove] drops a pending task by
    id and is a no-op when it is not found. *)
Record TaskQueue := {
  queue : list (nat * list call);
  next_id : nat
}.

(** Modelled from the spec: [browser.frame] (util/browser) is not among the
    sources. It asks the host for one callback at the next display refresh
    and returns a cancelable handle; [requests] are the handles for which a
    callback is outstanding. *)
Record Browser := {
  requests : list nat;
  next_handle : nat
}.

(** The fields of [Map] that scheduling reads and writes; a flag is [None]
    while it is [undefined]. [browser] is the host's side of the frame
    requests and [trace] the record of what the map did. *)
Record t := {
  style : option Style;
  handlers : bool;
  _frame : option nat;
  _styleDirty : option bool;
  _sourcesDirty : option bool;
  _placementDirty : option bool;
  _repaint : option bool;
  _loaded : option bool;
  _fullyLoaded : option bool;
  _removed : option bool;
  _crossFadingFactor : float;
  _renderTaskQueue : TaskQueue;
  browser : Browser;
  trace : list obs
}.

(** Field updates. *)
Definition set_style (v : option Style) (m : t) : t :=
  {| style := v;
     handlers := handlers m;
     _frame := _frame m;
     _styleDirty := _styleDirty m;
     _sourcesDirty := _sourcesDirty m;
     _placementDirty := _placementDirty m;
     _repaint := _repaint m;
     _loaded := _loaded m;
     _fullyLoaded := _fullyLoaded m;
     _removed := _removed m;
     _crossFadingFactor := _crossFadingFactor m;
     _renderTaskQueue := _renderTaskQueue m;
     browser := browser m;
     trace := trace m |}.

Definition set_handlers (v : bool) (m : t) : t :=
  {| style := style m;
     handlers := v;
     _frame := _frame m;
     _styleDirty := _styleDirty m;
     _sourcesDirty := _sourcesDirty m;
     _placementDirty := _placementDirty m;
     _repaint := _repaint m;
     _loaded := _loaded m;
     _fullyLoaded := _fullyLoaded m;
     _removed := _removed m;
     _crossFadingFactor := _crossFadingFactor m;
     _renderTaskQueue := _renderTaskQueue m;
     browser := browser m;
     trace := trace m |}.

Definition set__frame (v : option nat) (m : t) : t :=
  {| style := style m;
     handlers := handlers m;
     _frame := v;
     _styleDirty := _styleDirty m;
     _sourcesDirty := _sourcesDirty m;
     _placementDirty := _placementDirty m;
     _repaint := _repaint m;
     _loaded := _loaded m;
     _fullyLoaded := _fullyLoaded m;
     _removed := _removed m;
     _crossFadingFactor := _crossFadingFactor m;
     _renderTaskQueue := _renderTaskQueue m;
     browser := browser m;
     trace := trace m |}.

Definition set__styleDirty (v : option bool) (m : t) : t :=
  {| style := style m;
     handlers := handlers m;
     _frame := _frame m;
     _styleDirty := v;
     _sourcesDirty := _sourcesDirty m;
     _placementDirty := _placementDirty m;
     _repaint := _repaint m;
     _loaded := _loaded m;
     _fullyLoaded := _fullyLoaded m;
     _removed := _removed m;
     _crossFadingFactor := _crossFadingFactor m;
     _renderTaskQueue := _renderTaskQueue m;
     browser := browser m;
     trace := trace m |}.

Definition set__sourcesDirty (v : option bool) (m : t) : t :=
  {| style := style m;
     handlers := handlers m;
     _frame := _frame m;
     _styleDirty := _styleDirty m;
     _sourcesDirty := v;
     _placementDirty := _placementDirty m;
     _repaint := _repaint m;
     _loaded := _loaded m;
     _fullyLoaded := _fullyLoaded m;
     _removed := _removed m;
     _crossFadingFactor := _crossFadingFactor m;
     _renderTaskQueue := _renderTaskQueue m;
     browser := browser m;
     trace := trace m |}.

Definition set__placementDirty (v : option bool) (m : t) : t :=
  {| style := style m;
     handlers := handlers m;
     _frame := _frame m;
     _styleDirty := _styleDirty m;
     _sourcesDirty := _sourcesDirty m;
     _placementDirty := v;
     _repaint := _repaint m;
     _loaded := _loaded m;
     _fullyLoaded := _fullyLoaded m;
     _removed := _removed m;
     _crossFadingFactor := _crossFadingFactor m;
     _renderTaskQueue := _renderTaskQueue m;
     browser := browser m;
     trace := trace m |}.

Definition set__repaint (v : option bool) (m : t) : t :=
  {| style := style m;
     handlers := handlers m;
     _frame := _frame m;
     _styleDirty := _styleDirty m;
     _sourcesDirty := _sourcesDirty m;
     _placementDirty := _placementDirty m;
     _repaint := v;
     _loaded := _loaded m;
     _fullyLoaded := _fullyLoaded m;
     _removed := _removed m;
     _crossFadingFactor := _crossFadingFactor m;
     _renderTaskQueue := _renderTaskQueue m;
     browser := browser m;
     trace := trace m |}.

Definition set__loaded (v : option bool) (m : t) : t :=
  {| style := style m;
     handlers := handlers m;
     _frame := _frame m;
     _styleDirty := _styleDirty m;
     _sourcesDirty := _sourcesDirty m;
     _placementDirty := _placementDirty m;
     _repaint := _repaint m;
     _loaded := v;
     _fullyLoaded := _fullyLoaded m;
     _removed := _removed m;
     _crossFadingFactor := _crossFadingFactor m;
     _renderTaskQueue := _renderTaskQueue m;
     browser := browser m;
     trace := trace m |}.

Definition set__fullyLoaded (v : option bool) (m : t) : t :=
  {| style := style m;
     handlers := handlers m;
     _frame := _frame m;
     _styleDirty := _styleDirty m;
     _sourcesDirty := _sourcesDirty m;
     _placementDirty := _placementDirty m;
     _repaint := _repaint m;
     _loaded := _loaded m;
     _fullyLoaded := v;
     _removed := _removed m;
     _crossFadingFactor := _crossFadingFactor m;
     _renderTaskQueue := _renderTaskQueue m;
     browser := browser m;
     trace := trace m |}.

Definition set__removed (v : option bool) (m : t) : t :=
  {| style := style m;
     handlers := handlers m;
     _frame := _frame m;
     _styleDirty := _styleDirty m;
     _sourcesDirty := _sourcesDirty m;
     _placementDirty := _placementDirty m;
     _repaint := _repaint m;
     _loaded := _loaded m;
     _fullyLoaded := _fullyLoaded m;
     _removed := v;
     _crossFadingFactor := _crossFadingFactor m;
     _renderTaskQueue := _renderTaskQueue m;
     browser := browser m;
     trace := trace m |}.

Definition set__crossFadingFactor (v : float) (m : t) : t :=
  {| style := style m;
     handlers := handlers m;
     _frame := _frame m;
     _styleDirty := _styleDirty m;
     _sourcesDirty := _sourcesDirty m;
     _placementDirty := _placementDirty m;
     _repaint := _repaint m;
     _loaded := _loaded m;
     _fullyLoaded := _fullyLoaded m;
     _removed := _removed m;
     _crossFadingFactor := v;
     _renderTaskQueue := _renderTaskQueue m;
     browser := browser m;
     trace := trace m |}.

Definition set__renderTaskQueue (v : TaskQueue) (m : t) : t :=
  {| style := style m;
     handlers := handlers m;
     _frame := _frame m;
     _styleDirty := _styleDirty m;
     _sourcesDirty := _sourcesDirty m;
     _placementDirty := _placementDirty m;
     _repaint := _repaint m;
     _loaded := _loaded m;
     _fullyLoaded := _fullyLoaded m;
     _removed := _removed m;
     _crossFadingFactor := _crossFadingFactor m;
     _renderTaskQueue := v;
     browser := browser m;
     trace := trace m |}.

Definition set_browser (v : Browser) (m : t) : t :=
  {| style := style m;
     handlers := handlers m;
     _frame := _frame m;
     _styleDirty := _styleDirty m;
     _sourcesDirty := _sourcesDirty m;
     _placementDirty := _placementDirty m;
     _repaint := _repaint m;
     _loaded := _loaded m;
     _fullyLoaded := _fullyLoaded m;
     _removed := _removed m;
     _crossFadingFactor := _crossFadingFactor m;
     _renderTaskQueue := _renderTaskQueue m;
     browser := v;
     trace := trace m |}.

Definition set_trace (v : list obs) (m : t) : t :=
  {| style := style m;
     handlers := handlers m;
     _frame := _frame m;
     _styleDirty := _styleDirty m;
     _sourcesDirty := _sourcesDirty m;
     _placementDirty := _placementDirty m;
     _repaint := _repaint m;
     _loaded := _loaded m;
     _fullyLoaded := _fullyLoaded m;
     _removed := _removed m;
     _crossFadingFactor := _crossFadingFactor m;
     _renderTaskQueue := _renderTaskQueue m;
     browser := browser m;
     trace := v |}.


(** The map after its constructor, before a style is set: the flags are
    declared but not assigned. *)
Definition constructed : t :=
  {| style := None; handlers := true; _frame := None;
     _styleDirty := None; _sourcesDirty := None; _placementDirty := None;
     _repaint := None; _loaded := None; _fullyLoaded := None;
     _removed := None; _crossFadingFactor := 1%float;
     _renderTaskQueue := {| queue := []; next_id := 0 |};
     browser := {| requests := []; next_handle := 0 |};
     trace := [] |}.

Inductive outcome :=
| Returned (m : t)
| Threw (m : t).

Definition state_of (o : outcome) : t :=
  match o with Returned m | Threw m => m end.

Definition and_then (o : outcome) (k : t → outcome) : outcome :=
  match o with
  | Returned m => k m
  | Threw m => Threw m
  end.

Definition observe (o : obs) (m : t) : t := set_trace (trace m ++ [o]) m.

(** [a || b] on values that are [true], [false] or [undefined]. *)
Definition js_or (a b : option bool) : option bool :=
  if Js.truthy a then a else b.

(** *** Requesting and cancelling frames *)

Definition triggerRepaint (m : t) : t :=
  if bool_decide (is_Some (style m)) && negb (bool_decide (is_Some (_frame m)))
  then
    let h := next_handle (browser m) in
    set__frame (Some h)
      (set_browser {| requests := requests (browser m) ++ [h];
                      next_handle := S h |} m)
  else m.

Definition _update (updateStyle : option bool) (m : t) : t :=
  match style m with
  | None => m
  | Some _ =>
      triggerRepaint
        (set__sourcesDirty (Some true)
           (set__styleDirty (js_or (_styleDirty m) updateStyle) m))
  end.

(** [if (this._frame) { this._frame.cancel(); this._frame = null; }] *)
Definition cancel_frame (m : t) : t :=
  match _frame m with
  | Some h =>
      set__frame None
        (set_browser {| requests := filter (λ x, x ≠ h) (requests (browser m));
                        next_handle := next_handle (browser m) |} m)
  | None => m
  end.

(** [_requestRenderFrame(callback)] and [_cancelRenderFrame(id)] *)
Definition _requestRenderFrame (callback : list call) (m : t) : t :=
  let m := _update None m in
  let q := _renderTaskQueue m in
  set__renderTaskQueue
    {| queue := queue q ++ [(next_id q, callback)]; next_id := S (next_id q) |} m.

Definition _cancelRenderFrame (i : nat) (m : t) : t :=
  let q := _renderTaskQueue m in
  set__renderTaskQueue
    {| queue := filter (λ task, task.1 ≠ i) (queue q); next_id := next_id q |} m.

(** [_updateStyle(style)], which [setStyle(null)] reaches. *)
Definition _updateStyle (s : option string) (m : t) : t :=
  if Js.truthy_str s
  then set_style (Some {| stylesheet := default "" s |}) m
  else set_style None m.

(** The setter of [repaint]. *)
Definition set_repaint (value : bool) (m : t) : t :=
  if bool_decide (_repaint m ≠ Some value)
  then triggerRepaint (set__repaint (Some value) m)
  else m.

(** [_contextLost(event)] *)
Definition _contextLost (m : t) : t :=
  observe (Fire Ev_webglcontextlost) (cancel_frame m).

(** [remove()]; [this.handlers.destroy()] throws once the handlers are
    deleted. The hash, the controls, the painter, the window listeners and
    the DOM are not represented. *)
Definition remove (m : t) : outcome :=
  let m := cancel_frame m in
  let m := set__renderTaskQueue
             {| queue := []; next_id := next_id (_renderTaskQueue m) |} m in
  if handlers m then
    let m := set_handlers false m in
    let m := _updateStyle None m in
    let m := set__removed (Some true) m in
    Returned (observe (Fire Ev_remove) m)
  else Threw m.

Definition run_call (c : call) (m : t) : outcome :=
  match c with
  | Call_update u => Returned (_update u m)
  | Call_triggerRepaint => Returned (triggerRepaint m)
  | Call_updateStyle s => Returned (_updateStyle s m)
  | Call_remove => remove m
  | Call_requestRenderFrame cb => Returned (_requestRenderFrame cb m)
  | Call_cancelRenderFrame i => Returned (_cancelRenderFrame i m)
  | Call_set_repaint v => Returned (set_repaint v m)
  | Call_contextLost => Returned (_contextLost m)
  end.

(** A callback: its calls in order; an exception ends it. *)
Fixpoint run_calls (cs : list call) (m : t) : outcome :=
  match cs with
  | [] => Returned m
  | c :: rest => and_then (run_call c m) (run_calls rest)
  end.

Definition run_mark (k : mark) (m : t) : t :=
  match k with
  | Mark_update u => _update u m
  | Mark_triggerRepaint => triggerRepaint m
  end.

Definition run_marks (ks : list mark) (m : t) : t :=
  foldl (λ m k, run_mark k m) m ks.

Fixpoint run_tasks (tasks : list (nat * list call)) (m : t) : outcome :=
  match tasks with
  | [] => Returned m
  | task :: rest => and_then (run_calls task.2 m) (run_tasks rest)
  end.

(** [this._renderTaskQueue.run(paintStartTimeStamp)] *)
Definition TaskQueue_run (m : t) : outcome :=
  let q := _renderTaskQueue m in
  run_tasks (queue q)
            (set__renderTaskQueue {| queue := []; next_id := next_id q |} m).

(** *** One frame *)

(** What the collaborators answer during one call of [_render], and the
    marking calls their listeners make at each point. *)
Record Frame := {
  crossFadingFactor : float;
  hasTransitions : bool;
  _updatePlacement : bool;
  style_loaded : bool;
  _moving : bool;
  _zooming : bool;
  _rotating : bool;
  handlers_isMoving : bool;
  handlers_isZooming : bool;
  handlers_isRotating : bool;
  on_style_update : list mark;
  on_updateSources : list mark;
  on_render : list mark;
  on_load : list mark;
  on_idle : list mark
}.

(** [loaded()] *)
Definition loaded (env : Frame) (m : t) : bool :=
  negb (Js.truthy (_styleDirty m)) && negb (Js.truthy (_sourcesDirty m))
  && bool_decide (is_Some (style m)) && style_loaded env.

(** [this._moving || this.handlers.isMoving()], and likewise for zooming
    and rotating: reading [isMoving] of deleted handlers throws. *)
Definition camera_query (own from_handlers : bool) (m : t) : option bool :=
  if own then Some true
  else if handlers m then Some from_handlers else None.

Definition isMoving (env : Frame) (m : t) : option bool :=
  camera_query (_moving env) (handlers_isMoving env) m.

Definition isZooming (env : Frame) (m : t) : option bool :=
  camera_query (_zooming env) (handlers_isZooming env) m.

Definition isRotating (env : Frame) (m : t) : option bool :=
  camera_query (_rotating env) (handlers_isRotating env) m.

(** [fire(new Event(e))]: the event, then its listeners. *)
Definition fire (e : MapEvent) (listeners : list mark) (m : t) : t :=
  run_marks listeners (observe (Fire e) m).

(** [if (this.style && this._styleDirty) { ... }], giving [crossFading]. *)
Definition style_stage (env : Frame) (m : t) : t * bool :=
  if bool_decide (is_Some (style m)) && Js.truthy (_styleDirty m) then
    let m := set__styleDirty (Some false) m in
    let factor := crossFadingFactor env in
    let '(m, crossFading) :=
      if negb (PrimFloat.eqb factor 1) || negb (PrimFloat.eqb factor (_crossFadingFactor m))
      then (set__crossFadingFactor factor m, true)
      else (m, false) in
    (run_marks (on_style_update env) (observe Style_update m), crossFading)
  else (m, false).

(** [if (this.style && this._sourcesDirty) { ... }] *)
Definition sources_stage (env : Frame) (m : t) : t :=
  if bool_decide (is_Some (style m)) && Js.truthy (_sourcesDirty m) then
    run_marks (on_updateSources env)
              (observe Update_sources (set__sourcesDirty (Some false) m))
  else m.

(** [this._sourcesDirty || this._styleDirty || this._placementDirty] *)
Definition somethingDirty (m : t) : option bool :=
  js_or (js_or (_sourcesDirty m) (_styleDirty m)) (_placementDirty m).

(** From [this.painter.render(...)] up to the scheduling decision: draw,
    notify, and keep the style dirty while transitions or a cross-fade run.
    Releasing the symbol fade tiles acts on the style only. *)
Definition draw_and_notify (env : Frame) (crossFading : bool) (m : t) : t :=
  let m := observe Draw m in
  let m := fire Ev_render (on_render env) m in
  let m :=
    if loaded env m && negb (Js.truthy (_loaded m))
    then fire Ev_load (on_load env) (set__loaded (Some true) m)
    else m in
  if bool_decide (is_Some (style m)) && (hasTransitions env || crossFading)
  then set__styleDirty (Some true) m
  else m.

(** From [// Schedule another render frame if it's needed.] to the end. *)
Definition finish (env : Frame) (m : t) : outcome :=
  let dirty := somethingDirty m in
  and_then
    (if Js.truthy dirty || Js.truthy (_repaint m)
     then Returned (triggerRepaint m)
     else match isMoving env m with
          | None => Threw m
          | Some moving =>
              if negb moving && loaded env m
              then Returned (fire Ev_idle (on_idle env) m)
              else Returned m
          end)
    (λ m,
       Returned
         (if Js.truthy (_loaded m) && negb (Js.truthy (_fullyLoaded m))
             && negb (Js.truthy dirty)
          then set__fullyLoaded (Some true) m
          else m)).

(** The options of [painter.render] are evaluated before it is called. *)
Definition draw_stage (env : Frame) (crossFading : bool) (m : t) : outcome :=
  match isRotating env m, isZooming env m, isMoving env m with
  | Some _, Some _, Some _ => finish env (draw_and_notify env crossFading m)
  | _, _, _ => Threw m
  end.

(** [_render(paintStartTimeStamp)]. The GPU timing queries and the painter's
    base state leave the scheduling state alone and are not represented. *)
Definition _render (env : Frame) (m : t) : outcome :=
  and_then (TaskQueue_run (observe Enter_render m))
    (λ m,
       if Js.truthy (_removed m) then Returned m
       else
         let '(m, crossFading) := style_stage env m in
         let m := sources_stage env m in
         match style m with
         | None => Threw m
         | Some _ =>
             let m := set__placementDirty (Some (_updatePlacement env)) m in
             draw_stage env crossFading m
         end).

(** [redraw()] *)
Definition redraw (env : Frame) (m : t) : outcome :=
  match style m with
  | Some _ => _render env (cancel_frame m)
  | None => Returned m
  end.

(** *** The host *)

(** The callback handed to [browser.frame] by [triggerRepaint]. *)
Definition frame_callback (env : Frame) (m : t) : outcome :=
  _render env (set__frame None m).

Definition take_request (h : nat) (m : t) : t :=
  set_browser {| requests := filter (λ x, x ≠ h) (requests (browser m));
                 next_handle := next_handle (browser m) |} m.

(** Modelled from the spec: the host's "next frame" primitive, one callback
    per display refresh, is not among the sources. At a refresh the
    callbacks requested before it run once each, unless cancelled in the
    meantime; what they request is for the next refresh. An exception of a
    callback reaches the host, which goes on. *)
Fixpoint run_frames (hs : list nat) (env : Frame) (m : t) : t :=
  match hs with
  | [] => m
  | h :: rest =>
      if bool_decide (h ∈ requests (browser m))
      then run_frames rest env (state_of (frame_callback env (take_request h m)))
      else run_frames rest env m
  end.

Definition tick (env : Frame) (m : t) : t :=
  run_frames (requests (browser m)) env m.

(** What can happen to a map, one turn of the event loop each. *)
Inductive turn :=
| On_call (c : call)
| On_tick (env : Frame)
| On_redraw (env : Frame).

Definition step (m : t) (e : turn) : t :=
  match e with
  | On_call c => state_of (run_call c m)
  | On_tick env => tick env m
  | On_redraw env => state_of (redraw env m)
  end.

Definition run (es : list turn) (m : t) : t := foldl step m es.

(** Counting in the record of what the map did. *)
Definition count (o : obs) (m : t) : nat :=
  length (filter (λ x, x = o) (trace m)).

(** *** Notions used to state the properties of the loop *)

(** The handle the map holds and the requests outstanding at the host
    agree. *)
Definition wf (m : t) : Prop :=
  requests (browser m) = match _frame m with Some h => [h] | None => [] end.

(** The map holds its handlers until it is removed. *)
Definition live (m : t) : Prop :=
  handlers m = false → Js.truthy (_removed m) = true.

(** The observations made by the stages of the pipeline behind the
    [_removed] guard. *)
Definition is_pipeline (o : obs) : bool :=
  match o with
  | Style_update | Update_sources | Draw => true
  | Fire Ev_render | Fire Ev_load | Fire Ev_idle => true
  | _ => false
  end.

(** The state in which [_render] decides whether to request a frame or to
    report idle, when it gets there. *)
Definition at_decision (env : Frame) (m : t) : option t :=
  match TaskQueue_run (observe Enter_render m) with
  | Threw _ => None
  | Returned m1 =>
      if Js.truthy (_removed m1) then None
      else
        let '(m2, crossFading) := style_stage env m1 in
        let m3 := sources_stage env m2 in
        match style m3 with
        | None => None
        | Some _ =>
            let m4 := set__placementDirty (Some (_updatePlacement env)) m3 in
            match isRotating env m4, isZooming env m4, isMoving env m4 with
            | Some _, Some _, Some _ =>
                Some (draw_and_notify env crossFading m4)
            | _, _, _ => None
            end
        end
  end.

(** A frame in which nothing outside the map calls back into it. *)
Definition quiet (env : Frame) : Prop :=
  on_style_update env = [] ∧ on_updateSources env = [] ∧ on_render env = []
  ∧ on_load env = [] ∧ on_idle env = [].

(** Everything but the frame handle, the host's requests and the two dirty
    flags that [_update] sets is the same in [m'] as in [m]. *)
Definition kept (m m' : t) : Prop :=
  style m' = style m ∧ handlers m' = handlers m
  ∧ _placementDirty m' = _placementDirty m ∧ _repaint m' = _repaint m
  ∧ _loaded m' = _loaded m ∧ _fullyLoaded m' = _fullyLoaded m
  ∧ _removed m' = _removed m
  ∧ _crossFadingFactor m' = _crossFadingFactor m
  ∧ _renderTaskQueue m' = _renderTaskQueue m ∧ trace m' = trace m.

(** A property kept by a computation, also when it throws. *)
Definition preserves (P : t → Prop) (f : t → outcome) : Prop :=
  ∀ m, P m → P (state_of (f m)).

(** The record of [m'] is the record of [m] followed by observations that
    all satisfy [A]. *)
Definition appends (A : obs → Prop) (m m' : t) : Prop :=
  ∃ l, trace m' = trace m ++ l ∧ Forall A l.

(** Observations made outside of the pipeline: by [remove] and by the
    handler of a lost context. *)
Definition is_admin (o : obs) : Prop :=
  o = Fire Ev_remove ∨ o = Fire Ev_webglcontextlost.



(** The style and the handlers of [m'] are those of [m]. *)
Definition same_style (m m' : t) : Prop :=
  style m' = style m ∧ handlers m' = handlers m.

(** The spec's words on idle: a frame in which [anyDirty] resolves false,
    with continuous repaint off and no camera motion in progress, fires
    exactly one idle notification. *)
Definition idle_as_specified (env : Frame) (m : t) : Prop :=
  ∀ md, at_decision env m = Some md →
        Js.truthy (somethingDirty md) = false →
        Js.truthy (_repaint md) = false →
        isMoving env md = Some false →
        count (Fire Ev_idle) (state_of (_render env m))
        = S (count (Fire Ev_idle) m).

End MapLoop.

(** ** Sample maps and frames *)

Module LoopSample.
Import MapLoop.

(** The constructed map after [setStyle("style.json")]. *)
Definition styled : t := _updateStyle (Some "style.json") constructed.

(** A frame in which the style reports loaded, the camera rests, nothing
    fades and no listener calls back. *)
Definition still : Frame :=
  {| crossFadingFactor := 1%float; hasTransitions := false;
     _updatePlacement := false; style_loaded := true;
     _moving := false; _zooming := false; _rotating := false;
     handlers_isMoving := false; handlers_isZooming := false;
     handlers_isRotating := false;
     on_style_update := []; on_updateSources := []; on_render := [];
     on_load := []; on_idle := [] |}.

(** The same, while tiles of the style are still being loaded. *)
Definition loading : Frame :=
  {| crossFadingFactor := 1%float; hasTransitions := false;
     _updatePlacement := false; style_loaded := false;
     _moving := false; _zooming := false; _rotating := false;
     handlers_isMoving := false; handlers_isZooming := false;
     handlers_isRotating := false;
     on_style_update := []; on_updateSources := []; on_render := [];
     on_load := []; on_idle := [] |}.

(** The same as [still], half way through a cross-fade. *)
Definition fading : Frame :=
  {| crossFadingFactor := 0.5%float; hasTransitions := false;
     _updatePlacement := false; style_loaded := true;
     _moving := false; _zooming := false; _rotating := false;
     handlers_isMoving := false; handlers_isZooming := false;
     handlers_isRotating := false;
     on_style_update := []; on_updateSources := []; on_render := [];
     on_load := []; on_idle := [] |}.

(** The styled map marked by [_update(true)], its frame cancelled: the
    state in which [redraw] enters [_render]. *)
Definition marked : t := cancel_frame (_update (Some true) styled).

End LoopSample.


(** ** Further notions for the compositor *)

Module RttNotions.
Import Rtt.

(** Every framebuffer index the tile holds names a framebuffer of a pool of
    [n] framebuffers. *)
Definition in_pool (n : nat) (tile : Tile.t) : Prop :=
  ∀ k i, Js.get (Tile.rttFBOs tile) k = Some i → i < n.

(** [getTexture] reads [rttTextures] at an index of [rttFBOs]: the two
    arrays are parallel and the tiles hold indices of the pool only. *)
Definition pool_ok (r : t) : Prop :=
  length (rttTextures r) = length (rttFBOs r)
  ∧ Forall (in_pool (length (rttFBOs r))) (_renderableTiles r).

(** The pool of [r'] is the pool of [r], possibly with framebuffers and
    their textures appended, and the rest is as [grows] has it. *)
Definition extends (r r' : t) : Prop :=
  grows r r'
  ∧ length (rttTextures r') + length (rttFBOs r)
    = length (rttTextures r) + length (rttFBOs r').

(** From [r] to [r'] the style, the current layer and what [initialize]
    collected stay, the pool grows by framebuffers with their textures, and
    the record of GL calls is extended; the stacks may change. *)
Definition advances (r r' : t) : Prop :=
  style (painter r') = style (painter r)
  ∧ currentLayer (painter r') = currentLayer (painter r)
  ∧ _coordsDescendingInv r' = _coordsDescendingInv r
  ∧ _coordsDescendingInvStr r' = _coordsDescendingInvStr r
  ∧ length (rttFBOs r) ≤ length (rttFBOs r')
  ∧ length (rttTextures r') + length (rttFBOs r)
    = length (rttTextures r) + length (rttFBOs r')
  ∧ ∃ l, context (painter r') = context (painter r) ++ l.

(** The newest stack, if there is one, can be flushed: all its entries can
    be drawn. *)
Definition flush_ready (r : t) : Prop :=
  ∀ ss s, _stacks r = ss ++ [s] → Forall (drawable r) s.

(** The layer [lid] of the style is of a type rendered to texture, or is a
    hillshade layer. *)
Definition is_rtt (st : Style) (lid : string) : bool :=
  match _layers st !! lid with
  | Some layer => Js.truthy (_renderToTexture (type layer))
  | None => false
  end.

Definition is_hillshade (st : Style) (lid : string) : bool :=
  match _layers st !! lid with
  | Some layer => bool_decide (type layer = hillshade)
  | None => false
  end.

Definition stacked (st : Style) (lid : string) : bool :=
  is_rtt st lid || is_hillshade st lid.

(** What holds before the painter hands layer [i] to [renderLayer], in a
    frame that [initialize] left in [r0]: the stacks hold the layers
    rendered to texture and the hillshade layers met so far, in order and
    none empty; the results so far say which layers these are; a stack that
    is still open can be flushed; and the tiles hold framebuffers of the
    pool only. *)
Definition loop_inv (st : Style) (r0 : t) (i : nat)
    (res : list (option bool)) (r : t) : Prop :=
  style (painter r) = st
  ∧ _coordsDescendingInv r = _coordsDescendingInv r0
  ∧ _coordsDescendingInvStr r = _coordsDescendingInvStr r0
  ∧ mjoin (_stacks r)
    = Some <$> filter (λ lid, stacked st lid = true) (take i (_order st))
  ∧ Forall (λ s, s ≠ []) (_stacks r)
  ∧ Js.truthy <$> res = stacked st <$> take i (_order st)
  ∧ (Js.truthy (lookup_prev (_prevType r)) = true →
     _stacks r ≠ [] ∧ flush_ready r)
  ∧ (flush_ready r
     ∨ ∃ j lj, j < i ∧ _order st !! j = Some lj ∧ is_hillshade st lj = true
               ∧ ∀ k lk, j < k < i → _order st !! k = Some lk →
                         is_rtt st lk = false)
  ∧ length (rttTextures r) = length (rttFBOs r)
  ∧ length (rttFBOs r0) ≤ length (rttFBOs r)
  ∧ Forall (in_pool (length (rttFBOs r))) (_renderableTiles r)
  ∧ length (_renderableTiles r) = length (_renderableTiles r0)
  ∧ ∃ l, context (painter r) = context (painter r0) ++ l.

(** The two conditions under which [initialize] drops what a tile has
    rendered, for one source: the string of contributing tiles is non-empty
    and is not the one the tile recorded, or the terrain flags the tile. *)
Definition stale (te : Terrain) (tile : Tile.t) (src : string)
    (strs : gmap string string) : bool :=
  let coords := strs !! key (Tile.tileID tile) in
  Js.truthy_str coords
  && negb (bool_decide (coords = Tile.rttCoords tile !! src))
  || needsRerender te src (Tile.tileID tile).

(** The tile with its framebuffer assignments dropped. *)
Definition cleared (tile : Tile.t) : Tile.t :=
  {| Tile.tileID := Tile.tileID tile; Tile.rttFBOs := [];
     Tile.rttCoords := Tile.rttCoords tile |}.

(** The tiles among [tileIDs] that cover the terrain tile of key [K], one
    entry per covering, in the order of [tileIDs]. *)
Definition covering (te : Terrain) (tileIDs : list OverscaledTileID)
    (K : string) : list OverscaledTileID :=
  tileIDs ≫= λ tileID,
    (filter (λ kc, kc.1 = K) (getTerrainCoords te tileID)).*2.

(** A style the compositor can render: every ordered id names a layer; a
    layer rendered to texture that has a source, and every hillshade layer,
    takes its tiles from a source cache of the style; and between two
    hillshade layers there is a layer rendered to texture. *)
Definition well_formed (st : Style) : Prop :=
  (∀ lid, lid ∈ _order st →
     ∃ layer, _layers st !! lid = Some layer
       ∧ (Js.truthy (_renderToTexture (type layer)) = true →
          Js.truthy_str (source layer) = true →
          Js.prop_key (source layer) ∈ (sourceCaches st).*1)
       ∧ (type layer = hillshade →
          Js.prop_key (source layer) ∈ (sourceCaches st).*1))
  ∧ (∀ i j li lj,
       i < j → _order st !! i = Some li → _order st !! j = Some lj →
       is_hillshade st li = true → is_hillshade st lj = true →
       ∃ k lk, i < k < j ∧ _order st !! k = Some lk ∧ is_rtt st lk = true).

End RttNotions.

(** ** Sample pools *)

Module PoolSample.
Import Rtt.

(** A pool of three framebuffers of which the middle one is free, as it is
    after [freeFBO(1)], in a frame of the style [relief_style]. *)
Definition three : t :=
  freeFBO (Some 1)
    {| painter := Sample.painter_of Sample.relief_style;
       rttFBOs := replicate 3 {| width := 1024; height := 1024 |};
       rttTextures := replicate 3 {| size := 1024 |};
       rttUsedFBOs := [Some true; Some true; Some true];
       _coordsDescendingInv := fill_coordsDescendingInv Sample.relief_style;
       _coordsDescendingInvStr := ∅;
       _stacks := []; _prevType := None; _renderableTiles := [] |}.

End PoolSample.

(** ** A style with two hillshade layers *)

Module HillshadeSample.
Import Rtt.

Definition shade : StyleLayer :=
  {| id := "shade"; type := hillshade; source := Some "dem" |}.

(** Two hillshade layers in a row, on one terrain tile. *)
Definition two_reliefs : Style :=
  Sample.style_of [Sample.relief; shade]
    [("dem", {| getVisibleCoordinates := [Sample.tid "d"] |})]
    Sample.one_tile.

(** A terrain tile that holds framebuffer [1] for stack [0], rendered from
    the tiles ["a"] and ["b"] of the source ["v"]. *)
Definition cached : Tile.t :=
  {| Tile.tileID := Sample.tid "t1"; Tile.rttFBOs := [Some 1];
     Tile.rttCoords := {["v" := "a,b"]} |}.

(** A style with a fill layer followed by a symbol layer, whose terrain
    tile is [cached]. *)
Definition cached_style : Style :=
  Sample.style_of [Sample.land; Sample.places]
    [("v", {| getVisibleCoordinates := [Sample.tid "b"; Sample.tid "a"] |})]
    {| tileSize := 512; qualityFactor := 2;
       getRenderableTiles := [cached];
       getTerrainCoords := λ c, [("t1", c)];
       needsRerender := λ _ _, false |}.

(** The compositor with a pool of two framebuffers, before a frame on
    [cached_style]. *)
Definition warm : t :=
  {| painter := Sample.painter_of cached_style;
     rttFBOs := replicate 2 {| width := 1024; height := 1024 |};
     rttTextures := replicate 2 {| size := 1024 |};
     rttUsedFBOs := [];
     _coordsDescendingInv := ∅; _coordsDescendingInvStr := ∅;
     _stacks := []; _prevType := None; _renderableTiles := [] |}.

End HillshadeSample.

(** ** Further notions for the render loop *)

Module LoopNotions.
Import MapLoop.

(** An observation that is made or not. *)
Definition opt (b : bool) (o : obs) : list obs := if b then [o] else [].

(** The load event has been fired at most once, and not at all while
    [_loaded] is unset. *)
Definition loads_once (m : t) : Prop :=
  count (Fire Ev_load) m ≤ 1
  ∧ (Js.truthy (_loaded m) = false → count (Fire Ev_load) m = 0).


End LoopNotions.

(** ** The controls of the map *)

Module Controls.

(** An [IControl] as the map sees it: an object with an identity, whose
    methods may be missing. [getDefaultPosition] and [onAdd] are given with
    what they return, [onAdd] returning the control's DOM element. *)
Record IControl := {
  ident : nat;
  getDefaultPosition : option string;
  onAdd : option nat;
  onRemove : bool
}.

#[global] Instance IControl_eq_dec : EqDecision IControl.
Proof. solve_decision. Defined.

(** What reaches the controls and the listeners of the map, in order. *)
Inductive obs :=
| Called_onAdd (c : IControl)
| Called_onRemove (c : IControl)
| Fired_error (message : string).

(** The fields of [Map] that the control methods use. A container of
    [_controlPositions] is given by its child elements, first child
    first. *)
Record t := {
  _controls : list IControl;
  _controlPositions : gmap string (list nat);
  log : list obs
}.

(** [_setupContainer] creates the four corner containers, and the
    constructor starts with no controls. *)
Definition constructed : t :=
  {| _controls := [];
     _controlPositions :=
       list_to_map [("top-left", []); ("top-right", []);
                    ("bottom-left", []); ("bottom-right", [])];
     log := [] |}.

Inductive outcome :=
| Returned (m : t)
| Threw (m : t).

Definition state_of (o : outcome) : t :=
  match o with Returned m | Threw m => m end.

Definition observe (o : obs) (m : t) : t :=
  {| _controls := _controls m; _controlPositions := _controlPositions m;
     log := log m ++ [o] |}.

Definition set_controls (cs : list IControl) (m : t) : t :=
  {| _controls := cs; _controlPositions := _controlPositions m;
     log := log m |}.

Definition set_positions (ps : gmap string (list nat)) (m : t) : t :=
  {| _controls := _controls m; _controlPositions := ps; log := log m |}.

(** [position.indexOf('bottom') !== -1] *)
Definition includes (needle hay : string) : bool :=
  bool_decide (is_Some (String.index 0 needle hay)).

(** [insertBefore(el, container.firstChild)] and [appendChild(el)]: the
    DOM moves an element that already has a parent. *)
Definition detach (el : nat) (ps : gmap string (list nat))
    : gmap string (list nat) :=
  filter (λ x, x ≠ el) <$> ps.

Definition place (position : string) (el : nat)
    (ps : gmap string (list nat)) : option (gmap string (list nat)) :=
  _ ← ps !! position;
  let ps := detach el ps in
  let children := default [] (ps !! position) in
  Some (<[position :=
            if includes "bottom" position then el :: children
            else children ++ [el]]> ps).

Definition invalid_add : string :=
  "Invalid argument to map.addControl(). Argument must be a control with onAdd and onRemove methods.".

Definition invalid_remove : string :=
  "Invalid argument to map.removeControl(). Argument must be a control with onAdd and onRemove methods.".

(** [addControl(control, position)]; [None] is a missing argument.
    Reading [getDefaultPosition] of a missing control throws, and so does
    using a container that does not exist. *)
Definition addControl (control : option IControl) (position : option string)
    (m : t) : outcome :=
  match (match position with
         | Some p => Some p
         | None => c ← control;
                   Some (default "top-right" (getDefaultPosition c))
         end) with
  | None => Threw m
  | Some position =>
      match control ≫= (λ c, el ← onAdd c; Some (c, el)) with
      | None => Returned (observe (Fired_error invalid_add) m)
      | Some (c, el) =>
          let m := observe (Called_onAdd c) m in
          let m := set_controls (_controls m ++ [c]) m in
          match place position el (_controlPositions m) with
          | None => Threw m
          | Some ps => Returned (set_positions ps m)
          end
      end
  end.

(** [this._controls.indexOf(control)] followed by [splice(ci, 1)]. *)
Fixpoint remove_first (c : IControl) (cs : list IControl) : list IControl :=
  match cs with
  | [] => []
  | x :: rest => if decide (x = c) then rest else x :: remove_first c rest
  end.

(** [removeControl(control)] *)
Definition removeControl (control : option IControl) (m : t) : t :=
  match control with
  | Some c =>
      if onRemove c
      then observe (Called_onRemove c)
             (set_controls (remove_first c (_controls m)) m)
      else observe (Fired_error invalid_remove) m
  | None => observe (Fired_error invalid_remove) m
  end.

(** [hasControl(control)] *)
Definition hasControl (control : option IControl) (m : t) : bool :=
  match control with
  | Some c => bool_decide (c ∈ _controls m)
  | None => false
  end.

(** [for (const control of this._controls) control.onRemove(this)]:
    calling a method that the control does not have throws. *)
Fixpoint call_onRemove (cs : list IControl) (m : t) : outcome :=
  match cs with
  | [] => Returned m
  | c :: rest =>
      if onRemove c then call_onRemove rest (observe (Called_onRemove c) m)
      else Threw m
  end.

(** The part of [remove()] that deals with the controls. *)
Definition remove_controls (m : t) : outcome :=
  match call_onRemove (_controls m) m with
  | Returned m => Returned (set_controls [] m)
  | Threw m => Threw m
  end.

(** Adding controls one after the other at the same position. *)
Fixpoint add_all (cs : list IControl) (position : string) (m : t)
    : outcome :=
  match cs with
  | [] => Returned m
  | c :: rest =>
      match addControl (Some c) (Some position) m with
      | Returned m => add_all rest position m
      | Threw m => Threw m
      end
  end.

(** *** Sample controls *)

Definition zoom : IControl :=
  {| ident := 1; getDefaultPosition := None; onAdd := Some 11;
     onRemove := true |}.

Definition scale : IControl :=
  {| ident := 2; getDefaultPosition := Some "bottom-left"; onAdd := Some 12;
     onRemove := true |}.


(** A control without [onRemove]. *)
Definition sticky : IControl :=
  {| ident := 4; getDefaultPosition := None; onAdd := Some 14;
     onRemove := false |}.

End Controls.

(** ** Listeners delegated to a style layer *)

Module Delegated.

(** What the two pointer events that the delegates listen to carry, as far
    as the delegates look at it: for [mousemove] whether the layer exists
    ([this.getLayer(layerId)]) and what [queryRenderedFeatures] finds at
    the point. *)
Inductive pointer :=
| Mousemove (layer_exists : bool) (found : list nat)
| Mouseout.

(** A call of the listener that was registered with [on]. *)
Inductive call :=
| Entered (features : list nat)
| Left.

#[global] Instance call_eq_dec : EqDecision call.
Proof. solve_decision. Defined.

(** [this.getLayer(layerId) ? this.queryRenderedFeatures(...) : []] *)
Definition features_at (layer_exists : bool) (found : list nat) : list nat :=
  if layer_exists then found else [].

(** The delegates made for [mouseenter] and [mouseover]: the closure
    variable [mousein] and the calls of the listener. *)
Definition enter_delegate (mousein : bool) (e : pointer)
    : bool * list call :=
  match e with
  | Mousemove layer_exists found =>
      let features := features_at layer_exists found in
      if bool_decide (length features = 0) then (false, [])
      else if negb mousein then (true, [Entered features])
      else (mousein, [])
  | Mouseout => (false, [])
  end.

(** The delegates made for [mouseleave] and [mouseout]. *)
Definition leave_delegate (mousein : bool) (e : pointer)
    : bool * list call :=
  match e with
  | Mousemove layer_exists found =>
      let features := features_at layer_exists found in
      if negb (bool_decide (length features = 0)) then (true, [])
      else if mousein then (false, [Left])
      else (mousein, [])
  | Mouseout =>
      if mousein then (false, [Left]) else (mousein, [])
  end.

(** A map with a [mouseenter] and a [mouseleave] listener on the same
    layer, both registered before the pointer events arrive: the two
    closure variables and the calls made, in order. Each event reaches the
    delegate of [mouseenter] first. *)
Record t := {
  enter_in : bool;
  leave_in : bool;
  calls : list call
}.

Definition registered : t :=
  {| enter_in := false; leave_in := false; calls := [] |}.

Definition dispatch (s : t) (e : pointer) : t :=
  let '(ei, ec) := enter_delegate (enter_in s) e in
  let '(li, lc) := leave_delegate (leave_in s) e in
  {| enter_in := ei; leave_in := li; calls := calls s ++ ec ++ lc |}.

Definition run (es : list pointer) (s : t) : t := foldl dispatch s es.


End Delegated.

(** ** Registering delegated listeners *)

Module Listeners.

(** A function is known by its identity; the closures that
    [_createDelegatedListener] makes are new functions. *)
Record DelegatedListener := {
  layer : string;
  listener : nat;
  delegates : list (string * nat)
}.

(** What reaches [Evented], the superclass, in order. *)
Inductive super_call :=
| Super_on (type : string) (fn : nat)
| Super_once (type : string) (fn : nat)
| Super_off (type : string) (fn : nat).

(** [_delegatedListeners] is [None] until the first delegated [on];
    [next_fn] is the identity of the next function to be created. *)
Record t := {
  _delegatedListeners : option (gmap string (list DelegatedListener));
  next_fn : nat;
  calls : list super_call
}.

Definition constructed (first_fn : nat) : t :=
  {| _delegatedListeners := None; next_fn := first_fn; calls := [] |}.

(** [_createDelegatedListener(type, layerId, listener)]: two delegates for
    the four enter and leave types, one for any other type. *)
Definition _createDelegatedListener (type layerId : string) (fn : nat)
    (m : t) : DelegatedListener * t :=
  let two := bool_decide (type ∈ ["mouseenter"; "mouseover"; "mouseleave";
                                  "mouseout"]) in
  let n := next_fn m in
  ({| layer := layerId; listener := fn;
      delegates := if two then [("mousemove", n); ("mouseout", S n)]
                   else [(type, n)] |},
   {| _delegatedListeners := _delegatedListeners m;
      next_fn := if two then S (S n) else S n;
      calls := calls m |}).

Definition call_super (cs : list super_call) (m : t) : t :=
  {| _delegatedListeners := _delegatedListeners m; next_fn := next_fn m;
     calls := calls m ++ cs |}.

Definition set_delegated (d : gmap string (list DelegatedListener)) (m : t)
    : t :=
  {| _delegatedListeners := Some d; next_fn := next_fn m; calls := calls m |}.

(** [on(type, layerId, listener)], the form with a layer. *)
Definition on (type layerId : string) (fn : nat) (m : t) : t :=
  let '(dl, m) := _createDelegatedListener type layerId fn m in
  let d := default ∅ (_delegatedListeners m) in
  let m := set_delegated (<[type := default [] (d !! type) ++ [dl]]> d) m in
  call_super ((λ ef, Super_on ef.1 ef.2) <$> delegates dl) m.

(** [once(type, layerId, listener)], the form with a layer. *)
Definition once (type layerId : string) (fn : nat) (m : t) : t :=
  let '(dl, m) := _createDelegatedListener type layerId fn m in
  call_super ((λ ef, Super_once ef.1 ef.2) <$> delegates dl) m.

(** The loop of [removeDelegatedListener]: the first entry with this layer
    and this listener, and the entries without it. *)
Fixpoint take_first (layerId : string) (fn : nat)
    (ls : list DelegatedListener)
    : option (DelegatedListener * list DelegatedListener) :=
  match ls with
  | [] => None
  | dl :: rest =>
      if bool_decide (layer dl = layerId ∧ listener dl = fn)
      then Some (dl, rest)
      else '(found, rest') ← take_first layerId fn rest;
           Some (found, dl :: rest')
  end.

(** [off(type, layerId, listener)], the form with a layer. *)
Definition off (type layerId : string) (fn : nat) (m : t) : t :=
  match _delegatedListeners m with
  | Some d =>
      match d !! type with
      | Some ls =>
          match take_first layerId fn ls with
          | Some (dl, rest) =>
              set_delegated (<[type := rest]> d)
                (call_super ((λ ef, Super_off ef.1 ef.2) <$> delegates dl) m)
          | None => m
          end
      | None => m
      end
  | None => m
  end.

(** The registrations for [type] that the map keeps. *)
Definition kept_for (type : string) (m : t) : list DelegatedListener :=
  default [] (_delegatedListeners m ≫= (.!! type)).

End Listeners.

(** ** Facts about the JavaScript helpers *)

Module JsFacts.
Import Js.

Lemma get_set_eq {A : Type} (a : array A) (i : nat) (v : A) :
  get (set i v a) i = Some v.
Proof.
  unfold get, set. case_decide as Hi.
  - by rewrite list_lookup_insert_eq.
  - rewrite lookup_app_r by lia.
    rewrite lookup_app_r; rewrite length_replicate; [|lia].
    by replace (i - length a - (i - length a)) with 0 by lia.
Qed.

Lemma get_set_ne {A : Type} (a : array A) (i j : nat) (v : A) :
  i ≠ j → get (set i v a) j = get a j.
Proof.
  intros Hne. unfold get, set. case_decide as Hi.
  - by rewrite list_lookup_insert_ne.
  - destruct (decide (j < length a)) as [Hj|Hj].
    + by rewrite lookup_app_l.
    + rewrite (lookup_ge_None_2 a j) by lia.
      rewrite lookup_app_r by lia.
      destruct (decide (j - length a < i - length a)) as [Hlt|Hge].
      * rewrite lookup_app_l by (rewrite length_replicate; lia).
        by rewrite lookup_replicate_2.
      * rewrite lookup_app_r by (rewrite length_replicate; lia).
        rewrite length_replicate.
        destruct (j - length a - (i - length a)) as [|k] eqn:Hk; [lia|].
        done.
Qed.

End JsFacts.

(** ** Facts about the framebuffer pool *)

Module PoolFacts.
Import Rtt.

(** The search of [getFBO] returns the first index whose mark is not set. *)
Lemma first_free_Some used i n j :
  first_free used i n = Some j →
  i ≤ j < i + n ∧ Js.truthy (Js.get used j) = false
  ∧ ∀ k, i ≤ k < j → Js.truthy (Js.get used k) = true.
Proof.
  revert i. induction n as [|n IH]; intros i H; simpl in H; [done|].
  destruct (Js.truthy (Js.get used i)) eqn:Hu; simpl in H.
  - apply IH in H as (Hr & Hf & Hb). split; [lia|]. split; [done|].
    intros k Hk. destruct (decide (k = i)) as [->|]; [done|]. apply Hb. lia.
  - injection H as <-. split; [lia|]. split; [done|]. intros k Hk. lia.
Qed.

(** It fails exactly when every slot of the pool is marked. *)
Lemma first_free_None used i n :
  first_free used i n = None ↔
  ∀ k, i ≤ k < i + n → Js.truthy (Js.get used k) = true.
Proof.
  revert i. induction n as [|n IH]; intros i; simpl.
  - split; [intros _ k Hk; lia | done].
  - destruct (Js.truthy (Js.get used i)) eqn:Hu; simpl.
    + rewrite IH. split; intros H k Hk.
      * destruct (decide (k = i)) as [->|]; [done|]. apply H. lia.
      * apply H. lia.
    + split; [done|]. intros H. specialize (H i). rewrite Hu in H.
      discriminate H. lia.
Qed.

(** A slot taken from the free ones is marked when [getFBO] returns. *)
Lemma getFBO_reuse_marks r i :
  first_free (rttUsedFBOs r) 0 (length (rttFBOs r)) = Some i →
  (getFBO r).1 = i
  ∧ Js.get (rttUsedFBOs (getFBO r).2) i = Some true
  ∧ rttFBOs (getFBO r).2 = rttFBOs r.
Proof.
  intros H. unfold getFBO. rewrite H. simpl.
  by rewrite JsFacts.get_set_eq.
Qed.

(** A framebuffer is appended only when every slot is marked. *)
Lemma getFBO_grows_only_when_full r :
  length (rttFBOs (getFBO r).2) ≠ length (rttFBOs r) →
  ∀ k, k < length (rttFBOs r) → Js.truthy (Js.get (rttUsedFBOs r) k) = true.
Proof.
  unfold getFBO.
  destruct (first_free _ 0 _) as [i|] eqn:H; simpl; [done|].
  intros _ k Hk. eapply first_free_None; [exact H|lia].
Qed.

(** The index returned always names a framebuffer of the pool. *)
Lemma getFBO_in_range r :
  (getFBO r).1 < length (rttFBOs (getFBO r).2).
Proof.
  unfold getFBO.
  destruct (first_free _ 0 _) as [i|] eqn:H; simpl.
  - apply first_free_Some in H. lia.
  - rewrite length_app. simpl. lia.
Qed.

(** C4, at the pool that has no free slot: [getFBO] appends a
    framebuffer and returns its index without setting [rttUsedFBOs] for it,
    so the slot still counts as free and the next [getFBO], with no
    [freeFBO] in between, returns the same index again. *)
Theorem getFBO_append_leaves_slot_free r :
  first_free (rttUsedFBOs r) 0 (length (rttFBOs r)) = None →
  Js.truthy (Js.get (rttUsedFBOs r) (length (rttFBOs r))) = false →
  (getFBO r).1 = length (rttFBOs r)
  ∧ Js.truthy (Js.get (rttUsedFBOs (getFBO r).2) (getFBO r).1) = false
  ∧ (getFBO (getFBO r).2).1 = (getFBO r).1.
Proof.
  intros Hfull Hfree.
  assert (Hfirst : getFBO r =
    (length (rttFBOs r),
     push_fbo {| width := (tileSize (terrain (style (painter r)))
                           * qualityFactor (terrain (style (painter r))))%Z;
                 height := (tileSize (terrain (style (painter r)))
                            * qualityFactor (terrain (style (painter r))))%Z |}
              {| size := (tileSize (terrain (style (painter r)))
                          * qualityFactor (terrain (style (painter r))))%Z |} r)).
  { unfold getFBO. rewrite Hfull. simpl. f_equal.
    rewrite length_app. simpl. lia. }
  rewrite Hfirst. simpl. split; [done|]. split; [done|].
  unfold getFBO. simpl.
  destruct (first_free (rttUsedFBOs r) 0 (length (rttFBOs r ++ [_])))
    as [j|] eqn:Hj.
  - simpl. apply first_free_Some in Hj as (Hr & Hf & Hb).
    rewrite length_app in Hr. simpl in Hr.
    destruct (decide (j = length (rttFBOs r))) as [->|Hne]; [done|].
    pose proof (proj1 (first_free_None _ _ _) Hfull j) as Hu.
    rewrite Hu in Hf by lia. done.
  - pose proof (proj1 (first_free_None _ _ _) Hj (length (rttFBOs r))) as Hu.
    rewrite length_app in Hu. simpl in Hu. rewrite Hfree in Hu.
    discriminate Hu. lia.
Qed.

(** The pool of a compositor initialized for the first time is such a pool:
    the first two requests both get framebuffer 0, which is still not
    marked after the first. *)
Lemma getFBO_append_leaves_slot_free_witness :
  ∃ r, initialize (constructor (Sample.painter_of Sample.land_style)) = Some r
       ∧ (getFBO r).1 = 0
       ∧ Js.truthy (Js.get (rttUsedFBOs (getFBO r).2) 0) = false
       ∧ (getFBO (getFBO r).2).1 = 0.
Proof.
  destruct (initialize (constructor (Sample.painter_of Sample.land_style)))
    as [r|] eqn:E; [|by vm_compute in E].
  exists r. split; [done|].
  assert (Er : Some r
               = initialize (constructor (Sample.painter_of Sample.land_style)))
    by done.
  vm_compute in Er. injection Er as ->.
  match goal with |- (getFBO ?x).1 = _ ∧ _ =>
    destruct (getFBO_append_leaves_slot_free x) as (H1 & H2 & H3);
      [reflexivity | reflexivity |];
    rewrite H1 in H2, H3; exact (conj H1 (conj H2 H3))
  end.
Defined.

End PoolFacts.

(** ** Facts about the render loop *)

Module LoopFacts.
Import MapLoop.

(** *** Truthiness *)

Lemma truthy_Some_true (a : option bool) :
  Js.truthy a = true ↔ a = Some true.
Proof. destruct a as [[]|]; simpl; split; congruence. Qed.

Lemma truthy_js_or (a b : option bool) :
  Js.truthy (js_or a b) = Js.truthy a || Js.truthy b.
Proof. unfold js_or. destruct (Js.truthy a) eqn:Ha; simpl; by rewrite ?Ha. Qed.

(** *** What the marking calls leave alone *)

Lemma kept_refl m : kept m m.
Proof. by repeat split. Qed.

Lemma kept_trans m1 m2 m3 : kept m1 m2 → kept m2 m3 → kept m1 m3.
Proof. unfold kept. intros H1 H2. destruct_and!. repeat split; congruence. Qed.

Lemma triggerRepaint_kept m : kept m (triggerRepaint m).
Proof. unfold triggerRepaint. case_match; by repeat split. Qed.

Lemma triggerRepaint_flags m :
  _styleDirty (triggerRepaint m) = _styleDirty m
  ∧ _sourcesDirty (triggerRepaint m) = _sourcesDirty m.
Proof. unfold triggerRepaint. by case_match. Qed.

Lemma _update_kept u m : kept m (_update u m).
Proof.
  unfold _update. destruct (style m) eqn:Hs; [|apply kept_refl].
  eapply kept_trans; [|apply triggerRepaint_kept]. by repeat split.
Qed.

Lemma run_mark_kept k m : kept m (run_mark k m).
Proof. destruct k; [apply _update_kept | apply triggerRepaint_kept]. Qed.

Lemma run_marks_kept ks m : kept m (run_marks ks m).
Proof.
  revert m. induction ks as [|k ks IH]; intros m; [apply kept_refl|].
  simpl. eapply kept_trans; [apply run_mark_kept | apply IH].
Qed.



(** *** The frame handle and the host agree *)

Lemma wf_triggerRepaint m : wf m → wf (triggerRepaint m).
Proof.
  unfold wf, triggerRepaint. intros H.
  destruct (bool_decide (is_Some (style m))); simpl; [|done].
  destruct (_frame m) as [h|] eqn:Hf; simpl; [by rewrite Hf|].
  by rewrite H.
Qed.

Lemma wf_same m m' :
  _frame m' = _frame m → browser m' = browser m → wf m → wf m'.
Proof. unfold wf. by intros -> ->. Qed.

Lemma wf__update u m : wf m → wf (_update u m).
Proof.
  intros H. unfold _update. destruct (style m); [|done].
  apply wf_triggerRepaint. by eapply wf_same; [..|exact H].
Qed.

Lemma wf_cancel_frame m : wf m → wf (cancel_frame m).
Proof.
  unfold wf, cancel_frame. intros H.
  destruct (_frame m) as [h|] eqn:Hf; simpl; [|by rewrite Hf].
  rewrite H. by rewrite filter_cons_False by (intros Hne; by apply Hne).
Qed.

Lemma cancel_frame_None m : _frame (cancel_frame m) = None.
Proof. unfold cancel_frame. by destruct (_frame m) eqn:Hf. Qed.

Lemma wf_run_mark k m : wf m → wf (run_mark k m).
Proof. destruct k; [apply wf__update | apply wf_triggerRepaint]. Qed.

Lemma wf_run_marks ks m : wf m → wf (run_marks ks m).
Proof.
  revert m. induction ks as [|k ks IH]; intros m H; [done|].
  simpl. by apply IH, wf_run_mark.
Qed.

Lemma preserves_and_then P f k :
  preserves P f → preserves P k → preserves P (λ m, and_then (f m) k).
Proof.
  intros Hf Hk m Hm. specialize (Hf m Hm).
  destruct (f m) as [m'|m']; simpl in *; [by apply Hk | done].
Qed.

Lemma preserves_run_calls P :
  (∀ c, preserves P (run_call c)) → ∀ cs, preserves P (run_calls cs).
Proof.
  intros Hc cs. induction cs as [|c cs IH]; [by intros m|].
  simpl. by apply preserves_and_then.
Qed.

Lemma preserves_run_tasks P :
  (∀ c, preserves P (run_call c)) → ∀ tasks, preserves P (run_tasks tasks).
Proof.
  intros Hc tasks. induction tasks as [|task tasks IH]; [by intros m|].
  simpl. apply preserves_and_then; [by apply preserves_run_calls | done].
Qed.

Lemma wf_remove : preserves wf remove.
Proof.
  intros m H. unfold remove.
  pose proof (wf_cancel_frame m H) as Hc.
  destruct (handlers _) eqn:Hh; simpl.
  - unfold _updateStyle. simpl. by eapply wf_same; [..|exact Hc].
  - by eapply wf_same; [..|exact Hc].
Qed.

Lemma wf_run_call c : preserves wf (run_call c).
Proof.
  intros m H. destruct c; simpl.
  - by apply wf__update.
  - by apply wf_triggerRepaint.
  - unfold _updateStyle. case_match; by eapply wf_same; [..|exact H].
  - by apply wf_remove.
  - unfold _requestRenderFrame.
    by eapply wf_same; [..|apply (wf__update None m H)].
  - by eapply wf_same; [..|exact H].
  - unfold set_repaint. case_match; [|done].
    apply wf_triggerRepaint. by eapply wf_same; [..|exact H].
  - unfold _contextLost. by eapply wf_same; [..|apply (wf_cancel_frame m H)].
Qed.

Lemma wf_TaskQueue_run : preserves wf TaskQueue_run.
Proof.
  intros m H. unfold TaskQueue_run.
  apply (preserves_run_tasks wf wf_run_call). by eapply wf_same; [..|exact H].
Qed.

Lemma wf_style_stage env m : wf m → wf (style_stage env m).1.
Proof.
  intros H. unfold style_stage. repeat case_match; simplify_eq; simpl; try done;
    apply wf_run_marks; revert H; by apply wf_same.
Qed.

Lemma wf_sources_stage env m : wf m → wf (sources_stage env m).
Proof.
  intros H. unfold sources_stage. case_match; [|done].
  apply wf_run_marks. by eapply wf_same; [..|exact H].
Qed.

Lemma wf_fire e ks m : wf m → wf (fire e ks m).
Proof.
  intros H. unfold fire. apply wf_run_marks. by eapply wf_same; [..|exact H].
Qed.

(** Goals [wf] of a state built from setters, marks and events. *)
Ltac wf_tac :=
  repeat match goal with
         | |- wf _ => assumption
         | |- wf (triggerRepaint _) => apply wf_triggerRepaint
         | |- wf (cancel_frame _) => apply wf_cancel_frame
         | |- wf (run_marks _ _) => apply wf_run_marks
         | |- wf (fire _ _ _) => apply wf_fire
         | |- wf (?f ?v ?m) => apply (wf_same m); [reflexivity|reflexivity|]
         end.

Lemma wf_draw_and_notify env cf m : wf m → wf (draw_and_notify env cf m).
Proof. intros H. unfold draw_and_notify. repeat case_match; wf_tac. Qed.

Lemma wf_finish env : preserves wf (finish env).
Proof.
  intros m H. unfold finish.
  apply (preserves_and_then wf
           (λ m, if Js.truthy (somethingDirty m) || Js.truthy (_repaint m)
                 then Returned (triggerRepaint m)
                 else match isMoving env m with
                      | None => Threw m
                      | Some moving =>
                          if negb moving && loaded env m
                          then Returned (fire Ev_idle (on_idle env) m)
                          else Returned m
                      end)); [| |done].
  - intros m0 H0. repeat case_match; simpl; try done.
    + by apply wf_triggerRepaint.
    + by apply wf_fire.
  - intros m0 H0. simpl. case_match; [|done]. by eapply wf_same; [..|exact H0].
Qed.

Lemma wf_draw_stage env cf : preserves wf (draw_stage env cf).
Proof.
  intros m H. unfold draw_stage. repeat case_match; try done.
  by apply wf_finish, wf_draw_and_notify.
Qed.

Lemma wf__render env : preserves wf (_render env).
Proof.
  unfold _render.
  apply (preserves_and_then wf (λ m, TaskQueue_run (observe Enter_render m))).
  - intros m H. apply wf_TaskQueue_run. by eapply wf_same; [..|exact H].
  - intros m H. case_match; [done|].
    destruct (style_stage env m) as [m2 cf] eqn:Hst.
    pose proof (wf_style_stage env m H) as H2. rewrite Hst in H2. simpl in H2.
    pose proof (wf_sources_stage env m2 H2) as H3.
    case_match; [|done].
    apply wf_draw_stage. by eapply wf_same; [..|exact H3].
Qed.

Lemma wf_redraw env : preserves wf (redraw env).
Proof.
  intros m H. unfold redraw. case_match; [|done].
  by apply wf__render, wf_cancel_frame.
Qed.

(** With handle and host in agreement a refresh runs at most the one
    callback the map asked for. *)
Lemma tick_wf env m :
  wf m →
  tick env m =
    match _frame m with
    | Some h => state_of (frame_callback env (take_request h m))
    | None => m
    end.
Proof.
  unfold wf, tick. intros H. rewrite H.
  destruct (_frame m) as [h|]; [|done]. simpl.
  rewrite H. by rewrite bool_decide_eq_true_2 by apply list_elem_of_here.
Qed.

Lemma wf_tick env m : wf m → wf (tick env m).
Proof.
  intros H. rewrite tick_wf by done.
  destruct (_frame m) as [h|] eqn:Hf; [|done].
  unfold frame_callback. apply wf__render.
  unfold wf, take_request in *. simpl. rewrite H, Hf.
  by rewrite filter_cons_False by (intros Hne; by apply Hne).
Qed.

Lemma wf_step e m : wf m → wf (step m e).
Proof.
  intros H. destruct e; simpl.
  - by apply wf_run_call.
  - by apply wf_tick.
  - by apply wf_redraw.
Qed.

Lemma wf_run es m : wf m → wf (run es m).
Proof.
  revert m. induction es as [|e es IH]; intros m H; [done|].
  simpl. by apply IH, wf_step.
Qed.

Lemma wf_constructed : wf constructed.
Proof. reflexivity. Qed.

Lemma wf_at_most_one m : wf m → length (requests (browser m)) ≤ 1.
Proof. unfold wf. intros ->. destruct (_frame m); simpl; lia. Qed.

(** *** The record of what the map did *)

Lemma appends_refl A m : appends A m m.
Proof. exists []. by rewrite app_nil_r. Qed.

Lemma appends_trans A m1 m2 m3 :
  appends A m1 m2 → appends A m2 m3 → appends A m1 m3.
Proof.
  intros (l1 & E1 & F1) (l2 & E2 & F2). exists (l1 ++ l2).
  split; [by rewrite E2, E1, app_assoc | by apply Forall_app].
Qed.

Lemma appends_weaken (A B : obs → Prop) m m' :
  (∀ o, A o → B o) → appends A m m' → appends B m m'.
Proof.
  intros HAB (l & E & F). exists l. split; [done|].
  eapply Forall_impl; [exact F | exact HAB].
Qed.

Lemma appends_same A m m' : trace m' = trace m → appends A m m'.
Proof. intros E. exists []. by rewrite app_nil_r. Qed.

Lemma appends_observe A o m : A o → appends A m (observe o m).
Proof. intros H. exists [o]. split; [done | by apply Forall_singleton]. Qed.

Lemma appends_kept A m m' : kept m m' → appends A m m'.
Proof. intros H. apply appends_same. unfold kept in H. by destruct_and!. Qed.

Lemma appends_fire A e ks m : A (Fire e) → appends A m (fire e ks m).
Proof.
  intros H. unfold fire. eapply appends_trans; [by apply appends_observe|].
  apply appends_kept, run_marks_kept.
Qed.

Lemma count_observe o m : count o (observe o m) = S (count o m).
Proof.
  unfold count, observe. simpl. rewrite filter_app, length_app. simpl.
  rewrite filter_cons_True by done. simpl. lia.
Qed.

Lemma count_appends o m m' :
  appends (λ x, x ≠ o) m m' → count o m' = count o m.
Proof.
  intros (l & E & F). unfold count. rewrite E, filter_app, length_app.
  assert (filter (λ x, x = o) l = []) as ->; [|simpl; lia].
  clear E. induction F as [|x l Hx F IH]; [done|].
  rewrite filter_cons_False by done. exact IH.
Qed.

Lemma cancel_frame_trace m : trace (cancel_frame m) = trace m.
Proof. unfold cancel_frame. by case_match. Qed.

(** A call from outside records nothing but its own event. *)
Lemma run_call_appends c m : appends is_admin m (state_of (run_call c m)).
Proof.
  destruct c; simpl.
  - apply appends_kept, _update_kept.
  - apply appends_kept, triggerRepaint_kept.
  - apply appends_same. unfold _updateStyle. by case_match.
  - unfold remove. case_match; simpl.
    + exists [Fire Ev_remove]. unfold _updateStyle. simpl.
      rewrite cancel_frame_trace. split; [done|].
      apply Forall_singleton. by left.
    + apply appends_same. simpl. apply cancel_frame_trace.
  - apply appends_same. unfold _requestRenderFrame. simpl.
    pose proof (_update_kept None m) as Hk. unfold kept in Hk. by destruct_and!.
  - by apply appends_same.
  - apply appends_same. unfold set_repaint. case_match; [|done].
    pose proof (triggerRepaint_kept (set__repaint (Some value) m)) as Hk.
    unfold kept in Hk. by destruct_and!.
  - exists [Fire Ev_webglcontextlost]. unfold _contextLost. simpl.
    rewrite cancel_frame_trace. split; [done|].
    apply Forall_singleton. by right.
Qed.

Lemma run_calls_appends cs m : appends is_admin m (state_of (run_calls cs m)).
Proof.
  apply (preserves_run_calls (appends is_admin m)); [|apply appends_refl].
  intros c m' H. eapply appends_trans; [exact H | apply run_call_appends].
Qed.

Lemma TaskQueue_run_appends m :
  appends is_admin m (state_of (TaskQueue_run m)).
Proof.
  unfold TaskQueue_run.
  apply (preserves_run_tasks (appends is_admin m)); [|by apply appends_same].
  intros c m' H. eapply appends_trans; [exact H | apply run_call_appends].
Qed.

(** The stages behind the guard record no entry of [_render]. *)
Lemma style_stage_appends (A : obs → Prop) env m :
  A Style_update → appends A m (style_stage env m).1.
Proof.
  intros HA. unfold style_stage.
  repeat case_match; simplify_eq; simpl; try apply appends_refl;
    (eapply appends_trans; [|apply appends_kept, run_marks_kept]);
    exists [Style_update]; (split; [done | by apply Forall_singleton]).
Qed.

Lemma sources_stage_appends (A : obs → Prop) env m :
  A Update_sources → appends A m (sources_stage env m).
Proof.
  intros HA. unfold sources_stage. case_match; [|apply appends_refl].
  eapply appends_trans; [|apply appends_kept, run_marks_kept].
  exists [Update_sources]. split; [done | by apply Forall_singleton].
Qed.

Lemma draw_and_notify_appends (A : obs → Prop) env cf m :
  A Draw → A (Fire Ev_render) → A (Fire Ev_load) →
  appends A m (draw_and_notify env cf m).
Proof.
  intros H1 H2 H3. unfold draw_and_notify.
  set (m1 := fire Ev_render (on_render env) (observe Draw m)).
  assert (appends A m m1) as Hm1.
  { apply (appends_trans _ _ (observe Draw m));
      [by apply appends_observe | by apply appends_fire]. }
  set (m2 := if loaded env m1 && negb (Js.truthy (_loaded m1))
             then fire Ev_load (on_load env) (set__loaded (Some true) m1)
             else m1).
  assert (appends A m m2) as Hm2.
  { unfold m2. case_match; [|done].
    eapply appends_trans; [exact Hm1|].
    eapply appends_trans; [|by apply appends_fire]. by apply appends_same. }
  case_match; [|done].
  eapply appends_trans; [exact Hm2 | by apply appends_same].
Qed.

Lemma finish_appends (A : obs → Prop) env m :
  A (Fire Ev_idle) → appends A m (state_of (finish env m)).
Proof.
  intros HA. unfold finish.
  apply (preserves_and_then (appends A m)
           (λ m, if Js.truthy (somethingDirty m) || Js.truthy (_repaint m)
                 then Returned (triggerRepaint m)
                 else match isMoving env m with
                      | None => Threw m
                      | Some moving =>
                          if negb moving && loaded env m
                          then Returned (fire Ev_idle (on_idle env) m)
                          else Returned m
                      end)); [| |apply appends_refl].
  - intros m0 H0. repeat case_match; simpl; try done.
    + eapply appends_trans; [exact H0 | apply appends_kept, triggerRepaint_kept].
    + eapply appends_trans; [exact H0 | by apply appends_fire].
  - intros m0 H0. simpl. case_match; [|done].
    eapply appends_trans; [exact H0 | by apply appends_same].
Qed.

Lemma pipeline_appends (A : obs → Prop) env m :
  (∀ o, is_pipeline o = true → A o) →
  appends A m
    (state_of
       (let '(m2, crossFading) := style_stage env m in
        let m3 := sources_stage env m2 in
        match style m3 with
        | None => Threw m3
        | Some _ =>
            draw_stage env crossFading
              (set__placementDirty (Some (_updatePlacement env)) m3)
        end)).
Proof.
  intros HA.
  pose proof (style_stage_appends A env m (HA Style_update eq_refl)) as H2.
  destruct (style_stage env m) as [m2 cf]. simpl in H2.
  pose proof (sources_stage_appends A env m2 (HA Update_sources eq_refl)) as H3.
  assert (appends A m (sources_stage env m2)) as H23
    by (eapply appends_trans; eauto).
  cbv zeta. destruct (style (sources_stage env m2)); [|done].
  unfold draw_stage. repeat case_match; simpl; try done.
  eapply appends_trans; [exact H23|].
  eapply appends_trans; [|apply finish_appends, HA; reflexivity].
  eapply appends_trans;
    [|apply draw_and_notify_appends; apply HA; reflexivity].
  by apply appends_same.
Qed.

(** One call of [_render] records its entry once, then what the callbacks
    and the pipeline do. *)
Lemma _render_appends env m :
  appends (λ o, o ≠ Enter_render) (observe Enter_render m)
          (state_of (_render env m)).
Proof.
  unfold _render.
  pose proof (TaskQueue_run_appends (observe Enter_render m)) as Ht.
  apply (appends_weaken _ (λ o, o ≠ Enter_render)) in Ht;
    [|by intros o [-> | ->]].
  destruct (TaskQueue_run (observe Enter_render m)) as [m1|m1]; simpl in *;
    [|done].
  case_match; [done|].
  eapply appends_trans; [exact Ht|].
  apply pipeline_appends. by intros [| | | |[]].
Qed.

Lemma _render_count_enter env m :
  count Enter_render (state_of (_render env m)) = S (count Enter_render m).
Proof.
  rewrite (count_appends _ _ _ (_render_appends env m)).
  apply count_observe.
Qed.

(** *** Requests while a frame is outstanding, and without a style *)

Lemma triggerRepaint_pending m :
  is_Some (_frame m) → triggerRepaint m = m.
Proof.
  intros Hf. unfold triggerRepaint.
  rewrite (bool_decide_eq_true_2 (is_Some (_frame m))) by done.
  by rewrite andb_false_r.
Qed.

Lemma triggerRepaint_schedules m :
  is_Some (style m) → is_Some (_frame (triggerRepaint m)).
Proof.
  intros Hs. unfold triggerRepaint.
  rewrite (bool_decide_eq_true_2 (is_Some (style m))) by done. simpl.
  destruct (_frame m) as [h|] eqn:Hf; simpl; [by rewrite Hf | done].
Qed.

Lemma run_mark_schedules k m :
  is_Some (style m) → is_Some (_frame (run_mark k m)).
Proof.
  intros Hs. destruct k; simpl; [|by apply triggerRepaint_schedules].
  unfold _update. destruct (style m) eqn:E; [|by destruct Hs].
  apply triggerRepaint_schedules. simpl. by rewrite E.
Qed.

Lemma run_mark_pending k m :
  is_Some (_frame m) →
  _frame (run_mark k m) = _frame m ∧ browser (run_mark k m) = browser m.
Proof.
  intros Hf. destruct k; simpl; [|by rewrite triggerRepaint_pending].
  unfold _update. destruct (style m); [|done].
  by rewrite triggerRepaint_pending.
Qed.

Lemma run_marks_pending ks m :
  is_Some (_frame m) →
  _frame (run_marks ks m) = _frame m ∧ browser (run_marks ks m) = browser m.
Proof.
  revert m. induction ks as [|k ks IH]; intros m Hf; [done|]. simpl.
  destruct (run_mark_pending k m Hf) as [E1 E2].
  destruct (IH (run_mark k m)) as [E3 E4]; [by rewrite E1|].
  split; congruence.
Qed.

(** C10. While the map has no style, [_update] and [triggerRepaint]
    return it as it is: no dirty flag changes, no frame is requested from
    the host and nothing is recorded, however often they are called. *)
Theorem without_style_requests_are_void (m : t) (ks : list mark) :
  style m = None →
  (∀ u, _update u m = m) ∧ triggerRepaint m = m ∧ run_marks ks m = m.
Proof.
  intros Hs.
  assert (Hu : ∀ u, _update u m = m) by (intros u; unfold _update; by rewrite Hs).
  assert (Ht : triggerRepaint m = m) by (unfold triggerRepaint; by rewrite Hs).
  split; [done|]. split; [done|].
  induction ks as [|k ks IH]; [done|]. simpl.
  destruct k; simpl; by rewrite ?Hu, ?Ht.
Qed.

(** The map as constructed has no style; three requests leave it as it
    is. *)
Lemma without_style_requests_are_void_witness :
  (∀ u, _update u constructed = constructed)
  ∧ triggerRepaint constructed = constructed
  ∧ run_marks [Mark_update (Some true); Mark_triggerRepaint; Mark_update None]
              constructed = constructed.
Proof.
  apply (without_style_requests_are_void constructed). reflexivity.
Defined.

(** After [remove] the map has no style either. *)
Lemma remove_deletes_style m m' : remove m = Returned m' → style m' = None.
Proof.
  unfold remove. case_match; [|done]. intros [= <-]. reflexivity.
Qed.

(** C9. With a style present [_update(updateStyle)] sets the sources-dirty
    flag, sets the style-dirty flag when [updateStyle] is true and otherwise
    leaves its truth value as it was (a flag that is set stays set), has a
    frame outstanding afterwards, requesting one exactly when none was, and
    records nothing: it neither enters [_render] nor draws. *)
Theorem _update_marks_and_requests (u : option bool) (m : t) (s : Style) :
  style m = Some s →
  _sourcesDirty (_update u m) = Some true
  ∧ (u = Some true → _styleDirty (_update u m) = Some true)
  ∧ (u ≠ Some true →
     Js.truthy (_styleDirty (_update u m)) = Js.truthy (_styleDirty m))
  ∧ (Js.truthy (_styleDirty m) = true →
     _styleDirty (_update u m) = _styleDirty m)
  ∧ is_Some (_frame (_update u m))
  ∧ (is_Some (_frame m) →
     _frame (_update u m) = _frame m ∧ browser (_update u m) = browser m)
  ∧ (_frame m = None →
     _frame (_update u m) = Some (next_handle (browser m))
     ∧ requests (browser (_update u m))
       = requests (browser m) ++ [next_handle (browser m)])
  ∧ trace (_update u m) = trace m.
Proof.
  intros Hs.
  set (m1 := set__sourcesDirty (Some true)
               (set__styleDirty (js_or (_styleDirty m) u) m)).
  assert (E : _update u m = triggerRepaint m1)
    by (unfold _update; by rewrite Hs).
  rewrite E. destruct (triggerRepaint_flags m1) as [F1 F2]. rewrite F1, F2.
  simpl.
  split; [done|]. split.
  { intros ->. unfold js_or. destruct (_styleDirty m) as [[]|]; done. }
  split.
  { intros Hu. rewrite truthy_js_or.
    destruct u as [[]|]; [done|..]; simpl; apply orb_false_r. }
  split.
  { intros Ht. unfold js_or. by rewrite Ht. }
  split.
  { apply triggerRepaint_schedules. simpl. by rewrite Hs. }
  split.
  { intros Hf. by rewrite triggerRepaint_pending. }
  split.
  { intros Hf. unfold triggerRepaint. simpl. rewrite Hs, Hf. simpl. done. }
  pose proof (triggerRepaint_kept m1) as Hk. unfold kept in Hk.
  by destruct_and!.
Qed.

(** The styled sample map, marked for a style update. *)
Lemma _update_marks_and_requests_witness :
  _sourcesDirty (_update (Some true) LoopSample.styled) = Some true
  ∧ _styleDirty (_update (Some true) LoopSample.styled) = Some true
  ∧ requests (browser (_update (Some true) LoopSample.styled)) = [0]
  ∧ trace (_update (Some true) LoopSample.styled) = [].
Proof.
  destruct (_update_marks_and_requests (Some true) LoopSample.styled
              {| stylesheet := "style.json" |} eq_refl)
    as (H1 & H2 & _ & _ & _ & _ & H3 & H4).
  split; [exact H1|]. split; [exact (H2 eq_refl)|].
  split; [exact (proj2 (H3 eq_refl)) | exact H4].
Defined.

(** C2. Whatever happens to a map, at most one frame request is
    outstanding at the host. After any number N >= 1 of [_update] and
    [triggerRepaint] calls exactly one is; when one was outstanding before,
    the calls request nothing; and the next display refresh enters [_render]
    exactly once. *)
Theorem requests_coalesce (m : t) (ks : list mark) (env : Frame) :
  wf m → is_Some (style m) → ks ≠ [] →
  length (requests (browser (run_marks ks m))) = 1
  ∧ (is_Some (_frame m) →
     browser (run_marks ks m) = browser m ∧ _frame (run_marks ks m) = _frame m)
  ∧ count Enter_render (tick env (run_marks ks m)) = S (count Enter_render m)
  ∧ ∀ es, length (requests (browser (run es (run_marks ks m)))) ≤ 1.
Proof.
  intros Hwf Hs Hks.
  pose proof (wf_run_marks ks m Hwf) as Hwf'.
  assert (Hf : is_Some (_frame (run_marks ks m))).
  { destruct ks as [|k ks]; [done|]. simpl.
    pose proof (run_mark_schedules k m Hs) as Hk.
    destruct (run_marks_pending ks (run_mark k m) Hk) as [-> _]. done. }
  split.
  { unfold wf in Hwf'. rewrite Hwf'. by destruct Hf as [h ->]. }
  split.
  { intros Hm. by destruct (run_marks_pending ks m Hm). }
  split.
  { rewrite tick_wf by done. destruct Hf as [h ->].
    unfold frame_callback. rewrite _render_count_enter. f_equal.
    pose proof (run_marks_kept ks m) as Hk. unfold kept in Hk.
    destruct_and!. unfold count. simpl. congruence. }
  intros es. by apply wf_at_most_one, wf_run.
Qed.

(** Three requests on the styled sample map: one frame outstanding, and
    the refresh enters [_render] once. *)
Lemma requests_coalesce_witness :
  let ks := [Mark_update (Some true); Mark_triggerRepaint; Mark_update None] in
  length (requests (browser (run_marks ks LoopSample.styled))) = 1
  ∧ count Enter_render (tick LoopSample.still (run_marks ks LoopSample.styled))
    = 1.
Proof.
  destruct (requests_coalesce LoopSample.styled
              [Mark_update (Some true); Mark_triggerRepaint; Mark_update None]
              LoopSample.still)
    as (H1 & _ & H2 & _); [reflexivity | by eexists | done |].
  split; [exact H1 | exact H2].
Defined.

(** From its construction on a map never has two frames outstanding. *)
Lemma at_most_one_frame_outstanding es :
  length (requests (browser (run es constructed))) ≤ 1.
Proof. apply wf_at_most_one, wf_run, wf_constructed. Qed.

(** *** Teardown *)













(** *** The stages of a frame *)

Lemma same_style_refl m : same_style m m.
Proof. by split. Qed.

Lemma same_style_trans m1 m2 m3 :
  same_style m1 m2 → same_style m2 m3 → same_style m1 m3.
Proof. intros [? ?] [? ?]. split; congruence. Qed.

Lemma same_style_kept m m' : kept m m' → same_style m m'.
Proof. unfold kept. intros Hk. destruct_and!. by split. Qed.

Lemma same_style_fire e ks m : same_style m (fire e ks m).
Proof.
  unfold fire. apply (same_style_trans _ (observe (Fire e) m)); [done|].
  apply same_style_kept, run_marks_kept.
Qed.

Lemma same_style_style_stage env m : same_style m (style_stage env m).1.
Proof.
  unfold style_stage. repeat case_match; simplify_eq; simpl; try done;
    (eapply same_style_trans; [|apply same_style_kept, run_marks_kept]); done.
Qed.

Lemma same_style_sources_stage env m : same_style m (sources_stage env m).
Proof.
  unfold sources_stage. case_match; [|done].
  eapply same_style_trans; [|apply same_style_kept, run_marks_kept]. done.
Qed.

Lemma same_style_draw_and_notify env cf m :
  same_style m (draw_and_notify env cf m).
Proof.
  unfold draw_and_notify.
  set (m1 := fire Ev_render (on_render env) (observe Draw m)).
  assert (same_style m m1) as H1.
  { apply (same_style_trans _ (observe Draw m)); [done|].
    apply same_style_fire. }
  set (m2 := if loaded env m1 && negb (Js.truthy (_loaded m1))
             then fire Ev_load (on_load env) (set__loaded (Some true) m1)
             else m1).
  assert (same_style m m2) as H2.
  { unfold m2. case_match; [|done].
    eapply same_style_trans; [exact H1|].
    apply (same_style_trans _ (set__loaded (Some true) m1)); [done|].
    apply same_style_fire. }
  case_match; [|done]. eapply same_style_trans; [exact H2 | done].
Qed.

(** The cross-fade test of the style stage. *)
Lemma style_stage_crossFading env m :
  is_Some (style m) → Js.truthy (_styleDirty m) = true →
  (style_stage env m).2
  = negb (PrimFloat.eqb (crossFadingFactor env) 1)
    || negb (PrimFloat.eqb (crossFadingFactor env) (_crossFadingFactor m)).
Proof.
  intros Hs Hd. unfold style_stage.
  rewrite bool_decide_eq_true_2, Hd by done. simpl.
  by destruct (negb _ || negb _).
Qed.

(** With a cross-fade going on, or transitions, drawing leaves the style
    dirty. *)
Lemma draw_and_notify_dirty env m :
  is_Some (style m) →
  _styleDirty (draw_and_notify env true m) = Some true.
Proof.
  intros Hs.
  pose proof (same_style_draw_and_notify env true m) as [E _].
  revert E. unfold draw_and_notify. rewrite orb_true_r, andb_true_r.
  case_bool_decide as Hd; [done|]. intros E. rewrite E in Hd. done.
Qed.

(** Where [_render] gets to its scheduling decision, the rest of it is
    [finish]. *)
Lemma _render_decides env m md :
  at_decision env m = Some md → _render env m = finish env md.
Proof.
  unfold at_decision, _render.
  destruct (TaskQueue_run (observe Enter_render m)) as [m1|m1]; [|done].
  simpl. case_match; [done|].
  destruct (style_stage env m1) as [m2 cf].
  cbv zeta. destruct (style (sources_stage env m2)); [|done].
  unfold draw_stage. repeat case_match; try done. by intros [= ->].
Qed.

Lemma at_decision_run env m md :
  at_decision env m = Some md →
  ∃ m1, TaskQueue_run (observe Enter_render m) = Returned m1
        ∧ Js.truthy (_removed m1) = false
        ∧ md = draw_and_notify env (style_stage env m1).2
                 (set__placementDirty (Some (_updatePlacement env))
                    (sources_stage env (style_stage env m1).1))
        ∧ same_style m1 md.
Proof.
  unfold at_decision.
  destruct (TaskQueue_run (observe Enter_render m)) as [m1|m1]; [|done].
  case_match; [done|].
  pose proof (same_style_style_stage env m1) as H2.
  destruct (style_stage env m1) as [m2 cf] eqn:Hst. simpl in H2.
  pose proof (same_style_sources_stage env m2) as H3.
  cbv zeta. destruct (style (sources_stage env m2)); [|done].
  repeat case_match; try done. intros [= <-].
  exists m1. rewrite Hst. simpl.
  split; [done|]. split; [done|]. split; [done|].
  eapply same_style_trans; [exact H2|].
  eapply same_style_trans; [exact H3|].
  eapply same_style_trans; [|apply same_style_draw_and_notify]. done.
Qed.

(** Up to the decision no idle event is recorded. *)
Lemma at_decision_appends env m md :
  at_decision env m = Some md →
  appends (λ o, o ≠ Fire Ev_idle) m md.
Proof.
  intros H. destruct (at_decision_run env m md H) as (m1 & Ht & _ & -> & _).
  pose proof (TaskQueue_run_appends (observe Enter_render m)) as Ha.
  rewrite Ht in Ha. simpl in Ha.
  apply (appends_trans _ _ (observe Enter_render m));
    [by apply appends_observe|].
  eapply appends_trans.
  { eapply appends_weaken; [|exact Ha]. by intros o [-> | ->]. }
  eapply appends_trans; [by apply (style_stage_appends _ env m1)|].
  eapply appends_trans; [by apply (sources_stage_appends _ env)|].
  eapply appends_trans; [|by apply draw_and_notify_appends].
  by apply appends_same.
Qed.

Lemma wf_at_decision env m md :
  at_decision env m = Some md → wf m → wf md.
Proof.
  intros H Hwf. destruct (at_decision_run env m md H) as (m1 & Ht & _ & -> & _).
  pose proof (wf_TaskQueue_run (observe Enter_render m)) as H1.
  rewrite Ht in H1. simpl in H1.
  apply wf_draw_and_notify.
  apply (wf_same (sources_stage env (style_stage env m1).1)); [done..|].
  apply wf_sources_stage, wf_style_stage, H1. revert Hwf. by apply wf_same.
Qed.

(** *** The scheduling decision *)

(** Something is dirty, or the map repaints continuously: a frame is
    requested and nothing is recorded. *)
Lemma finish_dirty env md :
  Js.truthy (somethingDirty md) || Js.truthy (_repaint md) = true →
  ∃ m', finish env md = Returned m'
        ∧ trace m' = trace md
        ∧ _frame m' = _frame (triggerRepaint md)
        ∧ browser m' = browser (triggerRepaint md)
        ∧ _styleDirty m' = _styleDirty md.
Proof.
  intros H. unfold finish. rewrite H. simpl.
  pose proof (triggerRepaint_kept md) as Hk. unfold kept in Hk.
  destruct (triggerRepaint_flags md) as [F1 F2].
  eexists. split; [reflexivity|]. destruct_and!.
  case_match; simpl; by repeat split.
Qed.

Lemma fire_trace e ks m : trace (fire e ks m) = trace m ++ [Fire e].
Proof.
  unfold fire. pose proof (run_marks_kept ks (observe (Fire e) m)) as Hk.
  unfold kept in Hk. destruct_and!. etrans; [eassumption | done].
Qed.

Lemma fire_frame e m :
  _frame (fire e [] m) = _frame m ∧ browser (fire e [] m) = browser m
  ∧ _styleDirty (fire e [] m) = _styleDirty m.
Proof. done. Qed.

(** Nothing is dirty and the map does not repaint continuously: no frame is
    requested, and idle is fired exactly when the camera rests and the map
    is loaded. *)
Lemma finish_clean env md moving :
  Js.truthy (somethingDirty md) = false → Js.truthy (_repaint md) = false →
  isMoving env md = Some moving →
  ∃ m', finish env md = Returned m'
        ∧ appends (λ o, o = Fire Ev_idle) md m'
        ∧ count (Fire Ev_idle) m'
          = (if negb moving && loaded env md then 1 else 0)
            + count (Fire Ev_idle) md
        ∧ (on_idle env = [] →
           _frame m' = _frame md ∧ browser m' = browser md
           ∧ _styleDirty m' = _styleDirty md).
Proof.
  intros Hd Hr Hm. unfold finish. rewrite Hd, Hr, Hm. simpl.
  destruct (negb moving && loaded env md) eqn:Hi; simpl.
  - eexists. split; [reflexivity|].
    assert (Ht : ∀ m0, trace m0 = trace (fire Ev_idle (on_idle env) md) →
                       appends (λ o, o = Fire Ev_idle) md m0
                       ∧ count (Fire Ev_idle) m0 = 1 + count (Fire Ev_idle) md).
    { intros m0 E. rewrite fire_trace in E. split.
      - exists [Fire Ev_idle]. split; [done | by apply Forall_singleton].
      - unfold count. rewrite E. apply (count_observe (Fire Ev_idle) md). }
    case_match; simpl.
    + destruct (Ht (set__fullyLoaded (Some true)
                      (fire Ev_idle (on_idle env) md)) eq_refl) as [? ?].
      split; [done|]. split; [done|].
      intros E. rewrite E. apply fire_frame.
    + destruct (Ht (fire Ev_idle (on_idle env) md) eq_refl) as [? ?].
      split; [done|]. split; [done|].
      intros E. rewrite E. apply fire_frame.
  - eexists. split; [reflexivity|].
    case_match; simpl; (split; [by apply appends_same|]); by repeat split.
Qed.

(** *** The stored cross-fade factor *)

Lemma factor_kept m m' :
  kept m m' → _crossFadingFactor m' = _crossFadingFactor m.
Proof. unfold kept. intros H. by destruct_and!. Qed.

Lemma factor_cancel_frame m :
  _crossFadingFactor (cancel_frame m) = _crossFadingFactor m.
Proof. unfold cancel_frame. by case_match. Qed.

(** No call from outside writes the stored factor. *)
Lemma factor_run_call c m :
  _crossFadingFactor (state_of (run_call c m)) = _crossFadingFactor m.
Proof.
  destruct c as [u| |s| |cb|i|value|]; simpl.
  - apply factor_kept, _update_kept.
  - apply factor_kept, triggerRepaint_kept.
  - unfold _updateStyle. by case_match.
  - unfold remove. case_match; simpl; unfold _updateStyle; simpl;
      apply factor_cancel_frame.
  - unfold _requestRenderFrame. simpl. apply factor_kept, _update_kept.
  - done.
  - unfold set_repaint. case_match; [|done].
    by rewrite (factor_kept _ _ (triggerRepaint_kept _)).
  - unfold _contextLost. simpl. apply factor_cancel_frame.
Qed.

Lemma factor_TaskQueue_run m :
  _crossFadingFactor (state_of (TaskQueue_run m)) = _crossFadingFactor m.
Proof.
  unfold TaskQueue_run.
  apply (preserves_run_tasks
           (λ x, _crossFadingFactor x = _crossFadingFactor m)); [|done].
  intros c m' H. by rewrite factor_run_call.
Qed.

(** The style stage stores the factor it computed exactly when it reports a
    cross-fade. *)
Lemma factor_style_stage env m :
  _crossFadingFactor (style_stage env m).1
  = if (style_stage env m).2 then crossFadingFactor env
    else _crossFadingFactor m.
Proof.
  unfold style_stage.
  destruct (bool_decide (is_Some (style m)) && Js.truthy (_styleDirty m));
    [|done].
  cbv zeta.
  destruct (negb (PrimFloat.eqb (crossFadingFactor env) 1)
            || negb (PrimFloat.eqb (crossFadingFactor env)
                       (_crossFadingFactor (set__styleDirty (Some false) m))));
    simpl; by rewrite (factor_kept _ _ (run_marks_kept _ _)).
Qed.

Lemma factor_sources_stage env m :
  _crossFadingFactor (sources_stage env m) = _crossFadingFactor m.
Proof.
  unfold sources_stage. case_match; [|done].
  by rewrite (factor_kept _ _ (run_marks_kept _ _)).
Qed.

Lemma factor_fire e ks m :
  _crossFadingFactor (fire e ks m) = _crossFadingFactor m.
Proof. unfold fire. by rewrite (factor_kept _ _ (run_marks_kept _ _)). Qed.

Lemma factor_draw_and_notify env cf m :
  _crossFadingFactor (draw_and_notify env cf m) = _crossFadingFactor m.
Proof.
  unfold draw_and_notify.
  repeat case_match; simpl; rewrite ?factor_fire; simpl;
    by rewrite ?factor_fire.
Qed.

Lemma factor_finish env md :
  _crossFadingFactor (state_of (finish env md)) = _crossFadingFactor md.
Proof.
  unfold finish.
  destruct (Js.truthy (somethingDirty md) || Js.truthy (_repaint md)); simpl.
  - pose proof (factor_kept _ _ (triggerRepaint_kept md)) as H.
    case_match; exact H.
  - destruct (isMoving env md) as [moving|]; simpl; [|done].
    destruct (negb moving && loaded env md); simpl.
    + pose proof (factor_fire Ev_idle (on_idle env) md) as H.
      case_match; exact H.
    + by case_match.
Qed.

(** A frame that consumes the style-dirty flag and finds a cross-fade going
    on gets to its scheduling decision, stores the factor it computed,
    leaves the flag set and a frame requested. *)
Lemma crossfade_frame env m m1 :
  TaskQueue_run (observe Enter_render m) = Returned m1 →
  Js.truthy (_removed m1) = false → handlers m1 = true →
  is_Some (style m1) → Js.truthy (_styleDirty m1) = true →
  (style_stage env m1).2 = true →
  ∃ m', _render env m = Returned m'
        ∧ _styleDirty m' = Some true ∧ is_Some (_frame m')
        ∧ _crossFadingFactor m' = crossFadingFactor env.
Proof.
  intros Ht Hrem Hh Hs Hd Hcf.
  pose proof (same_style_style_stage env m1) as [S2 H2].
  pose proof (factor_style_stage env m1) as F2.
  destruct (style_stage env m1) as [m2 cf] eqn:Hst. simpl in *. subst cf.
  pose proof (same_style_sources_stage env m2) as [S3 H3].
  set (m4 := set__placementDirty (Some (_updatePlacement env))
               (sources_stage env m2)).
  assert (Hs4 : is_Some (style m4)) by (simpl; by rewrite S3, S2).
  assert (Hh4 : handlers m4 = true) by (simpl; congruence).
  assert (F4 : _crossFadingFactor m4 = crossFadingFactor env)
    by (simpl; by rewrite factor_sources_stage).
  assert (Hdec : at_decision env m = Some (draw_and_notify env true m4)).
  { unfold at_decision. rewrite Ht, Hrem, Hst. cbv zeta.
    destruct Hs4 as [s4 Es4]. simpl in Es4. rewrite Es4.
    fold m4. unfold isRotating, isZooming, isMoving, camera_query.
    rewrite Hh4. by repeat case_match. }
  rewrite (_render_decides env m _ Hdec).
  pose proof (same_style_draw_and_notify env true m4) as [S5 H5].
  pose proof (draw_and_notify_dirty env m4 Hs4) as Hsd.
  pose proof (factor_finish env (draw_and_notify env true m4)) as F5.
  destruct (finish_dirty env (draw_and_notify env true m4))
    as (m' & E & _ & Hf & _ & Hsd').
  { unfold somethingDirty. rewrite !truthy_js_or, Hsd. simpl.
    by rewrite orb_true_r. }
  exists m'. split; [done|]. split; [congruence|]. split.
  - rewrite Hf. apply triggerRepaint_schedules. by rewrite S5.
  - rewrite E in F5. simpl in F5. by rewrite F5, factor_draw_and_notify.
Qed.

(** C5. In a frame that consumes the style-dirty flag, the factor stored
    when the style stage reads it is the one the map held when the frame
    began: the callbacks of the render task queue do not write it, nor does
    any call from outside. When the cross-fade factor computed differs from
    the stored one, or from 1, [_render] leaves the style-dirty flag set and
    a frame requested, and stores the factor it computed. When the factor
    computed and the factor stored are both 1 there is no cross-fade, and a
    frame in which nothing else asks for one (no transitions, no placement
    change, no continuous repaint, no listener calling back) ends with the
    flag clear, without requesting a frame, the stored factor still 1.
    Across two frames: when the frame before this one, itself cross-fading,
    computed a factor that differs from the one computed now, this frame
    leaves the flag set and a frame requested; so the first frame in which
    the factor is back at 1 still forces one more. *)
Theorem crossfade_forces_style_dirty (env : Frame) (m m1 : t) :
  TaskQueue_run (observe Enter_render m) = Returned m1 →
  Js.truthy (_removed m1) = false → handlers m1 = true →
  is_Some (style m1) → Js.truthy (_styleDirty m1) = true →
  _crossFadingFactor m1 = _crossFadingFactor m
  ∧ (PrimFloat.eqb (crossFadingFactor env) (_crossFadingFactor m) = false
     ∨ PrimFloat.eqb (crossFadingFactor env) 1 = false →
     ∃ m', _render env m = Returned m'
           ∧ _styleDirty m' = Some true ∧ is_Some (_frame m')
           ∧ _crossFadingFactor m' = crossFadingFactor env)
  ∧ (crossFadingFactor env = 1%float → _crossFadingFactor m = 1%float →
     (style_stage env m1).2 = false
     ∧ (quiet env → hasTransitions env = false →
        _updatePlacement env = false → Js.truthy (_repaint m1) = false →
        ∃ m', _render env m = Returned m'
              ∧ Js.truthy (_styleDirty m') = false
              ∧ _frame m' = _frame m1 ∧ browser m' = browser m1
              ∧ _crossFadingFactor m' = 1%float))
  ∧ (∀ envp mp mp1 mp' h,
       TaskQueue_run (observe Enter_render mp) = Returned mp1 →
       Js.truthy (_removed mp1) = false → handlers mp1 = true →
       is_Some (style mp1) → Js.truthy (_styleDirty mp1) = true →
       PrimFloat.eqb (crossFadingFactor envp) (_crossFadingFactor mp) = false
       ∨ PrimFloat.eqb (crossFadingFactor envp) 1 = false →
       _render envp mp = Returned mp' →
       m = set__frame None (take_request h mp') →
       PrimFloat.eqb (crossFadingFactor env) (crossFadingFactor envp) = false →
       ∃ m', _render env m = Returned m'
             ∧ _styleDirty m' = Some true ∧ is_Some (_frame m')
             ∧ _crossFadingFactor m' = crossFadingFactor env)
  ∧ (∀ c m0,
       _crossFadingFactor (state_of (run_call c m0)) = _crossFadingFactor m0).
Proof.
  intros Ht Hrem Hh Hs Hd.
  assert (F1 : _crossFadingFactor m1 = _crossFadingFactor m).
  { pose proof (factor_TaskQueue_run (observe Enter_render m)) as F.
    by rewrite Ht in F. }
  pose proof (style_stage_crossFading env m1 Hs Hd) as Hcf.
  rewrite F1 in Hcf.
  assert (Hforce : ∀ (envq : Frame) (mq mq1 : t),
    TaskQueue_run (observe Enter_render mq) = Returned mq1 →
    Js.truthy (_removed mq1) = false → handlers mq1 = true →
    is_Some (style mq1) → Js.truthy (_styleDirty mq1) = true →
    PrimFloat.eqb (crossFadingFactor envq) (_crossFadingFactor mq) = false
    ∨ PrimFloat.eqb (crossFadingFactor envq) 1 = false →
    ∃ m', _render envq mq = Returned m'
          ∧ _styleDirty m' = Some true ∧ is_Some (_frame m')
          ∧ _crossFadingFactor m' = crossFadingFactor envq).
  { intros envq mq mq1 Qt Qrem Qh Qs Qd Qne.
    apply (crossfade_frame envq mq mq1); try done.
    rewrite (style_stage_crossFading envq mq1 Qs Qd).
    pose proof (factor_TaskQueue_run (observe Enter_render mq)) as F.
    rewrite Qt in F. simpl in F. rewrite F.
    destruct Qne as [-> | ->]; simpl; [apply orb_true_r | done]. }
  split; [done|]. split; [|split; [|split]].
  - intros Hne. by apply (Hforce env m m1).
  - intros Hone Hstored. rewrite Hone, Hstored in Hcf. simpl in Hcf.
    split; [done|].
    pose proof (same_style_style_stage env m1) as [S2 H2].
    pose proof (factor_style_stage env m1) as F2.
    destruct (style_stage env m1) as [m2 cf] eqn:Hst. simpl in *. subst cf.
    pose proof (same_style_sources_stage env m2) as [S3 H3].
    set (m4 := set__placementDirty (Some (_updatePlacement env))
                 (sources_stage env m2)).
    assert (Hs4 : is_Some (style m4)) by (simpl; by rewrite S3, S2).
    assert (Hh4 : handlers m4 = true) by (simpl; congruence).
    assert (F4 : _crossFadingFactor m4 = 1%float)
      by (simpl; rewrite factor_sources_stage; congruence).
    assert (Hdec : at_decision env m = Some (draw_and_notify env false m4)).
    { unfold at_decision. rewrite Ht, Hrem, Hst. cbv zeta.
      destruct Hs4 as [s4 Es4]. simpl in Es4. rewrite Es4.
      fold m4. unfold isRotating, isZooming, isMoving, camera_query.
      rewrite Hh4. by repeat case_match. }
    rewrite (_render_decides env m _ Hdec).
    pose proof (same_style_draw_and_notify env false m4) as [S5 H5].
    intros (Q1 & Q2 & Q3 & Q4 & Q5) Htr Hpl Hrp.
    assert (Hm2 : m2 = observe Style_update (set__styleDirty (Some false) m1)).
    { revert Hst. unfold style_stage.
      rewrite bool_decide_eq_true_2, Hd by done. simpl.
      rewrite Hone, F1, Hstored, Q1.
      change (PrimFloat.eqb 1 1) with true. simpl. by intros [= <-]. }
    assert (Hmd :
      let md := draw_and_notify env false m4 in
      _styleDirty md = Some false ∧ Js.truthy (_sourcesDirty md) = false
      ∧ _placementDirty md = Some false ∧ _repaint md = _repaint m1
      ∧ _frame md = _frame m1 ∧ browser md = browser m1).
    { unfold draw_and_notify, fire. rewrite Q3, Q4, Htr. simpl.
      unfold m4, sources_stage. rewrite Q2, Hpl, Hm2. simpl.
      rewrite andb_false_r.
      destruct (bool_decide (is_Some (style m1))
                && Js.truthy (_sourcesDirty m1)) eqn:E1; simpl;
        repeat case_match; simpl; repeat split; try done.
      all: rewrite bool_decide_eq_true_2 in E1 by done; simpl in E1; done. }
    cbv zeta in Hmd. destruct Hmd as (D1 & D2 & D3 & D4 & D5 & D6).
    assert (Hmv : ∃ mv, isMoving env (draw_and_notify env false m4) = Some mv).
    { unfold isMoving, camera_query. rewrite H5, Hh4.
      case_match; by eexists. }
    destruct Hmv as [mv Hmv].
    pose proof (factor_finish env (draw_and_notify env false m4)) as F5.
    destruct (finish_clean env (draw_and_notify env false m4) mv)
      as (m' & E & _ & _ & Hq); [|by rewrite D4|done|].
    { unfold somethingDirty. rewrite !truthy_js_or, D2, D1, D3. done. }
    destruct (Hq Q5) as (G1 & G2 & G3).
    exists m'. split; [done|]. split; [by rewrite G3, D1|].
    split; [congruence|]. split; [congruence|].
    rewrite E in F5. simpl in F5. by rewrite F5, factor_draw_and_notify.
  - intros envp mp mp1 mp' h Pt Prem Ph Ps Pd Pne Pr -> Hne.
    destruct (Hforce envp mp mp1 Pt Prem Ph Ps Pd Pne)
      as (mq & Eq & _ & _ & Fq).
    rewrite Pr in Eq. injection Eq as <-.
    apply (Hforce env _ m1 Ht Hrem Hh Hs Hd). left.
    simpl. by rewrite Fq.
  - apply factor_run_call.
Qed.

(** The marked sample map, three frames in a row. Half way through a
    cross-fade the flag stays set, a frame is requested and 0.5 is stored.
    In the next frame the factor is back at 1 but differs from the 0.5
    stored by the frame before: the flag is set once more, a frame is
    requested and 1 is stored. Only in the third frame, the factor computed
    and the factor stored both being 1, the flag is left clear and no frame
    is requested. *)
Lemma crossfade_forces_style_dirty_witness :
  ∃ mA mB mC,
    _render LoopSample.fading LoopSample.marked = Returned mA
    ∧ tick LoopSample.still mA = mB ∧ tick LoopSample.still mB = mC
    ∧ (_styleDirty mA = Some true ∧ requests (browser mA) = [1]
       ∧ _crossFadingFactor mA = 0.5%float)
    ∧ (_styleDirty mB = Some true ∧ requests (browser mB) = [2]
       ∧ _crossFadingFactor mB = 1%float)
    ∧ (Js.truthy (_styleDirty mC) = false ∧ requests (browser mC) = []
       ∧ _crossFadingFactor mC = 1%float).
Proof.
  destruct (crossfade_forces_style_dirty LoopSample.fading LoopSample.marked
              _ eq_refl eq_refl eq_refl (ex_intro _ _ eq_refl) eq_refl)
    as (_ & HA & _).
  destruct HA as (mA & EA & DA & _ & SA); [by left|].
  assert (E : Returned mA = _render LoopSample.fading LoopSample.marked)
    by done.
  vm_compute in E. injection E as ->.
  match type of EA with _ = Returned ?a => set (mA := a) in * end.
  destruct (crossfade_forces_style_dirty LoopSample.still
              (set__frame None (take_request 1 mA))
              _ eq_refl eq_refl eq_refl (ex_intro _ _ eq_refl) eq_refl)
    as (_ & _ & _ & HB & _).
  destruct (HB LoopSample.fading LoopSample.marked _ mA 1
              eq_refl eq_refl eq_refl (ex_intro _ _ eq_refl) eq_refl
              (or_introl eq_refl) EA eq_refl eq_refl)
    as (mB & EB & DB & _ & SB).
  assert (E : Returned mB
              = _render LoopSample.still (set__frame None (take_request 1 mA)))
    by done.
  vm_compute in E. injection E as ->.
  match type of EB with _ = Returned ?a => set (mB := a) in * end.
  destruct (crossfade_forces_style_dirty LoopSample.still
              (set__frame None (take_request 2 mB))
              _ eq_refl eq_refl eq_refl (ex_intro _ _ eq_refl) eq_refl)
    as (_ & _ & HC & _).
  destruct (HC eq_refl eq_refl) as (_ & HC').
  destruct HC' as (mC & EC & DC & _ & _ & SC); [by repeat split|done..|].
  exists mA, mB, mC. split; [exact EA|].
  assert (TB : tick LoopSample.still mA = mB) by (by vm_compute).
  assert (TC : tick LoopSample.still mB = mC).
  { transitivity (state_of (_render LoopSample.still
                              (set__frame None (take_request 2 mB))));
      [by vm_compute | by rewrite EC]. }
  split; [exact TB|]. split; [exact TC|].
  split; [by repeat split|]. split; [by repeat split|].
  split; [exact DC|]. split; [|exact SC].
  assert (E : Returned mC
              = _render LoopSample.still (set__frame None (take_request 2 mB)))
    by done.
  vm_compute in E. by injection E as ->.
Defined.


Lemma at_decision_style env m md :
  at_decision env m = Some md → is_Some (style md).
Proof.
  intros H. destruct (at_decision_run env m md H) as (m1 & Ht & Hr & E & _).
  revert H. unfold at_decision. rewrite Ht, Hr.
  destruct (style_stage env m1) as [m2 cf]. cbv zeta.
  destruct (style (sources_stage env m2)) as [s|] eqn:Es; [|done].
  repeat case_match; try done. intros [= <-].
  destruct (same_style_draw_and_notify env cf
              (set__placementDirty (Some (_updatePlacement env))
                 (sources_stage env m2))) as [-> _].
  simpl. by rewrite Es.
Qed.

(** Without a request outstanding a display refresh does nothing. *)
Lemma ticks_without_request envs m :
  requests (browser m) = [] → run (On_tick <$> envs) m = m.
Proof.
  intros H. induction envs as [|env envs IH]; [done|]. simpl.
  unfold tick. rewrite H. simpl. exact IH.
Qed.

(** Calls from outside never fire idle. *)
Lemma run_call_no_idle c m :
  count (Fire Ev_idle) (state_of (run_call c m)) = count (Fire Ev_idle) m.
Proof.
  apply count_appends. eapply appends_weaken; [|apply run_call_appends].
  by intros o [-> | ->].
Qed.

(** The scheduling decision fires idle at most once. *)
Lemma finish_idle_le env md :
  count (Fire Ev_idle) (state_of (finish env md)) ≤ S (count (Fire Ev_idle) md).
Proof.
  unfold finish.
  destruct (Js.truthy (somethingDirty md) || Js.truthy (_repaint md)) eqn:Hd;
    simpl.
  - pose proof (triggerRepaint_kept md) as Hk. unfold kept in Hk.
    destruct_and!.
    assert (E : ∀ m0, trace m0 = trace md →
                      count (Fire Ev_idle) m0 ≤ S (count (Fire Ev_idle) md)).
    { intros m0 E. unfold count. rewrite E. lia. }
    case_match; apply E; simpl; congruence.
  - destruct (isMoving env md) as [moving|]; simpl; [|lia].
    destruct (negb moving && loaded env md); simpl.
    + assert (E : ∀ m0, trace m0 = trace (fire Ev_idle (on_idle env) md) →
                        count (Fire Ev_idle) m0 ≤ S (count (Fire Ev_idle) md)).
      { intros m0 E. unfold count. rewrite E, fire_trace.
        pose proof (count_observe (Fire Ev_idle) md) as Hc.
        unfold count in Hc. simpl in Hc. rewrite Hc. lia. }
      case_match; by apply E.
    + case_match; unfold count; simpl; lia.
Qed.

(** One call of [_render] fires idle at most once. *)
Lemma _render_idle_le env m :
  count (Fire Ev_idle) (state_of (_render env m)) ≤ S (count (Fire Ev_idle) m).
Proof.
  unfold _render.
  pose proof (TaskQueue_run_appends (observe Enter_render m)) as Ht.
  apply (appends_weaken _ (λ o, o ≠ Fire Ev_idle)) in Ht;
    [|by intros o [-> | ->]].
  assert (H0 : appends (λ o, o ≠ Fire Ev_idle) m
                 (state_of (TaskQueue_run (observe Enter_render m)))).
  { eapply appends_trans; [|exact Ht]. by apply appends_observe. }
  apply count_appends in H0.
  destruct (TaskQueue_run (observe Enter_render m)) as [m1|m1]; simpl in *;
    [|lia].
  case_match; [simpl; lia|].
  pose proof (style_stage_appends (λ o, o ≠ Fire Ev_idle) env m1
                ltac:(done)) as H2.
  destruct (style_stage env m1) as [m2 cf]. simpl in H2.
  pose proof (sources_stage_appends (λ o, o ≠ Fire Ev_idle) env m2
                ltac:(done)) as H3.
  apply count_appends in H2, H3.
  cbv zeta. destruct (style (sources_stage env m2)); simpl; [|lia].
  set (m4 := set__placementDirty _ _).
  assert (H4 : count (Fire Ev_idle) m4 = count (Fire Ev_idle) m) by
    (unfold m4, count; simpl; unfold count in H0, H2, H3; congruence).
  clearbody m4.
  unfold draw_stage.
  destruct (isRotating env m4); [|simpl; lia].
  destruct (isZooming env m4); [|simpl; lia].
  destruct (isMoving env m4); [|simpl; lia].
  pose proof (draw_and_notify_appends (λ o, o ≠ Fire Ev_idle) env cf m4
                ltac:(done) ltac:(done) ltac:(done)) as H5.
  apply count_appends in H5.
  pose proof (finish_idle_le env (draw_and_notify env cf m4)). lia.
Qed.

Lemma run_call_no_enter c m :
  count Enter_render (state_of (run_call c m)) = count Enter_render m.
Proof.
  apply count_appends. eapply appends_weaken; [|apply run_call_appends].
  by intros o [-> | ->].
Qed.

(** Idle is fired by [_render] only: over a refresh, the notifications
    gained are at most the entries of [_render] gained. *)
Lemma run_frames_idle_le hs env m :
  count (Fire Ev_idle) (run_frames hs env m) + count Enter_render m
  ≤ count (Fire Ev_idle) m + count Enter_render (run_frames hs env m).
Proof.
  revert m. induction hs as [|h hs IH]; intros m; simpl; [lia|].
  case_bool_decide; [|apply IH].
  specialize (IH (state_of (frame_callback env (take_request h m)))).
  unfold frame_callback in *.
  pose proof (_render_idle_le env (set__frame None (take_request h m))) as H1.
  pose proof (_render_count_enter env (set__frame None (take_request h m)))
    as H2.
  change (count (Fire Ev_idle) (set__frame None (take_request h m)))
    with (count (Fire Ev_idle) m) in H1.
  change (count Enter_render (set__frame None (take_request h m)))
    with (count Enter_render m) in H2.
  lia.
Qed.

Lemma redraw_idle_le env m :
  count (Fire Ev_idle) (state_of (redraw env m)) + count Enter_render m
  ≤ count (Fire Ev_idle) m + count Enter_render (state_of (redraw env m)).
Proof.
  unfold redraw. destruct (style m); simpl; [|lia].
  pose proof (_render_idle_le env (cancel_frame m)) as H1.
  pose proof (_render_count_enter env (cancel_frame m)) as H2.
  unfold count in *. rewrite cancel_frame_trace in H1, H2. lia.
Qed.

Lemma step_idle_le e m :
  count (Fire Ev_idle) (step m e) + count Enter_render m
  ≤ count (Fire Ev_idle) m + count Enter_render (step m e).
Proof.
  destruct e as [c|env|env]; simpl.
  - rewrite run_call_no_idle, run_call_no_enter. lia.
  - apply run_frames_idle_le.
  - apply redraw_idle_le.
Qed.

Lemma run_idle_le es m :
  count (Fire Ev_idle) (run es m) + count Enter_render m
  ≤ count (Fire Ev_idle) m + count Enter_render (run es m).
Proof.
  unfold run. revert m. induction es as [|e es IH]; intros m; simpl; [lia|].
  specialize (IH (step m e)). pose proof (step_idle_le e m). lia.
Qed.

Lemma finish_same_style env md : same_style md (state_of (finish env md)).
Proof.
  unfold finish.
  destruct (Js.truthy (somethingDirty md) || Js.truthy (_repaint md)); simpl.
  - pose proof (same_style_kept _ _ (triggerRepaint_kept md)) as H.
    case_match; exact H.
  - destruct (isMoving env md) as [moving|]; simpl; [|apply same_style_refl].
    destruct (negb moving && loaded env md); simpl.
    + pose proof (same_style_fire Ev_idle (on_idle env) md) as H.
      case_match; exact H.
    + case_match; [done | apply same_style_refl].
Qed.

(** [redraw] on a map with a style is [_render] on the map without its
    frame request, and decides as that call does. *)
Lemma redraw_decides env m md :
  is_Some (style m) → at_decision env (cancel_frame m) = Some md →
  redraw env m = finish env md.
Proof.
  intros [s Hs] Hd. unfold redraw. rewrite Hs. by apply _render_decides.
Qed.

(** C8, as amended. Where [_render] gets to its scheduling decision, no
    idle has been fired in the frame so far. If nothing is dirty there,
    continuous repaint is off and the camera rests, then [_render] fires
    idle exactly once when [loaded()] holds (the style is present and
    reports loaded) and not at all when it does not; it requests no frame,
    and while none is requested further display refreshes leave the map as
    it is; a [redraw()] of that map, however, renders at once and fires
    idle again whenever its frame ends as clean, loaded and at rest, with no
    call in between that marks the map dirty or schedules a frame. If
    something is dirty or continuous repaint is on, a frame is requested
    and no idle fires. Calls from outside never fire idle, and over any
    sequence of calls, display refreshes and redraws the idle notifications
    gained are at most the entries of [_render] gained. *)
Theorem idle_fires_once_when_clean_and_loaded (env : Frame) (m md : t) :
  at_decision env m = Some md →
  count (Fire Ev_idle) md = count (Fire Ev_idle) m
  ∧ (Js.truthy (somethingDirty md) = false →
     Js.truthy (_repaint md) = false →
     isMoving env md = Some false →
     ∃ m', _render env m = Returned m'
           ∧ count (Fire Ev_idle) m'
             = (if loaded env md then 1 else 0) + count (Fire Ev_idle) m
           ∧ (wf m → _frame md = None → on_idle env = [] →
              _frame m' = None ∧ requests (browser m') = []
              ∧ (∀ envs, run (On_tick <$> envs) m' = m')
              ∧ (∀ env2 md2,
                   at_decision env2 m' = Some md2 →
                   Js.truthy (somethingDirty md2) = false →
                   Js.truthy (_repaint md2) = false →
                   isMoving env2 md2 = Some false →
                   count (Fire Ev_idle) (step m' (On_redraw env2))
                   = (if loaded env2 md2 then 1 else 0)
                     + count (Fire Ev_idle) m')))
  ∧ (Js.truthy (somethingDirty md) || Js.truthy (_repaint md) = true →
     ∃ m', _render env m = Returned m'
           ∧ count (Fire Ev_idle) m' = count (Fire Ev_idle) m
           ∧ is_Some (_frame m'))
  ∧ (∀ c m0,
       count (Fire Ev_idle) (state_of (run_call c m0))
       = count (Fire Ev_idle) m0)
  ∧ (∀ es m0,
       count (Fire Ev_idle) (run es m0) + count Enter_render m0
       ≤ count (Fire Ev_idle) m0 + count Enter_render (run es m0)).
Proof.
  intros Hdec.
  pose proof (count_appends _ _ _ (at_decision_appends env m md Hdec)) as Hc.
  rewrite (_render_decides env m md Hdec).
  split; [done|]. split; [|split; [|split]].
  - intros Hd Hr Hm.
    destruct (finish_clean env md false Hd Hr Hm) as (m' & E & _ & Hi & Hq).
    exists m'. split; [done|]. split; [by rewrite Hi, Hc|].
    intros Hwf Hf Hidle.
    destruct (Hq Hidle) as (Hf' & Hb' & _).
    pose proof (wf_at_decision env m md Hdec Hwf) as Hw.
    unfold wf in Hw. rewrite Hf in Hw.
    assert (Hreq : requests (browser m') = []) by (by rewrite Hb').
    assert (Hfr : _frame m' = None) by (by rewrite Hf').
    split; [done|]. split; [done|]. split.
    + intros envs. by apply ticks_without_request.
    + intros env2 md2 Hdec2 Hd2 Hr2 Hm2.
      change (step m' (On_redraw env2)) with (state_of (redraw env2 m')).
      assert (Hc' : cancel_frame m' = m') by (unfold cancel_frame; by rewrite Hfr).
      assert (Hs' : is_Some (style m')).
      { destruct (finish_same_style env md) as [S1 _].
        rewrite E in S1. simpl in S1. rewrite S1.
        by apply (at_decision_style env m). }
      rewrite (redraw_decides env2 m' md2 Hs') by (by rewrite Hc').
      destruct (finish_clean env2 md2 false Hd2 Hr2 Hm2)
        as (m2 & -> & _ & Hi2 & _).
      simpl. rewrite Hi2.
      by rewrite (count_appends _ _ _ (at_decision_appends env2 m' md2 Hdec2)).
  - intros Hd.
    destruct (finish_dirty env md Hd) as (m' & E & Ht & Hf & _).
    exists m'. split; [done|]. split.
    + unfold count. rewrite Ht. exact Hc.
    + rewrite Hf. apply triggerRepaint_schedules.
      by apply (at_decision_style env m).
  - apply run_call_no_idle.
  - apply run_idle_le.
Qed.

(** The marked sample map in a still frame: one idle, and no request is
    left, so that display refreshes change nothing; a [redraw] of the idle
    map then fires idle a second time, though nothing was marked dirty. *)
Lemma idle_fires_once_when_clean_and_loaded_witness :
  ∃ m', _render LoopSample.still LoopSample.marked = Returned m'
        ∧ count (Fire Ev_idle) m' = 1
        ∧ requests (browser m') = []
        ∧ run [On_tick LoopSample.still; On_tick LoopSample.fading] m' = m'
        ∧ count (Fire Ev_idle) (step m' (On_redraw LoopSample.still)) = 2.
Proof.
  destruct (at_decision LoopSample.still LoopSample.marked) as [md|] eqn:E;
    [|by vm_compute in E].
  destruct (idle_fires_once_when_clean_and_loaded
              LoopSample.still LoopSample.marked md E) as (_ & H & _).
  assert (Emd : Some md = at_decision LoopSample.still LoopSample.marked)
    by done.
  vm_compute in Emd. injection Emd as ->.
  destruct H as (m' & E' & Hc & Hrest); [reflexivity..|].
  destruct Hrest as (_ & Hq & Ht & Hr); [reflexivity..|].
  assert (Em : Returned m' = _render LoopSample.still LoopSample.marked)
    by done.
  vm_compute in Em. injection Em as ->.
  eexists. split; [exact E'|]. split; [exact Hc|]. split; [exact Hq|].
  split; [exact (Ht [LoopSample.still; LoopSample.fading])|].
  exact (Hr LoopSample.still _ eq_refl eq_refl eq_refl eq_refl).
Defined.

(** C8, as the spec words it, fails: while the style is still loading, a
    frame with nothing dirty, continuous repaint off and the camera at rest
    fires no idle. *)
Lemma idle_needs_loaded_style :
  ¬ idle_as_specified LoopSample.loading LoopSample.marked.
Proof.
  intros H.
  destruct (at_decision LoopSample.loading LoopSample.marked) as [md|] eqn:E;
    [|by vm_compute in E].
  specialize (H md E).
  assert (Emd : Some md = at_decision LoopSample.loading LoopSample.marked)
    by done.
  vm_compute in Emd. injection Emd as ->.
  specialize (H eq_refl eq_refl eq_refl). vm_compute in H. discriminate H.
Qed.

(** It fails in a second way: idle fires again without any call that marks
    the map dirty or schedules a frame. After the frame that fired idle,
    [redraw()] renders at once and, the map being as clean and loaded as
    before, fires idle again. *)
Lemma idle_fires_again_on_redraw :
  let idle := state_of (_render LoopSample.still LoopSample.marked) in
  count (Fire Ev_idle) idle = 1
  ∧ _frame idle = None ∧ requests (browser idle) = []
  ∧ Js.truthy (somethingDirty idle) = false
  ∧ count (Fire Ev_idle) (state_of (redraw LoopSample.still idle)) = 2.
Proof. by vm_compute. Qed.


End LoopFacts.

(** ** Facts about [initialize] *)

Module InitFacts.
Import Rtt.

(** *** Sorting *)

#[local] Instance str_le_total : Total str_le.
Proof. intros a b. unfold str_le. apply String.leb_total. Qed.

Lemma sort_sorted l : Sorted str_le (sort l).
Proof. apply Sorted_merge_sort, _. Qed.

Lemma sort_permutation l : sort l ≡ₚ l.
Proof. apply merge_sort_Permutation. Qed.

(** *** The strings kept per source *)

(** One step of the loop over [style._order] adds the strings of a source
    that has none yet and changes no other. *)
Lemma fill_str_step_lookup st inv m lid m' src :
  fill_str_step st inv (Some m) lid = Some m' →
  m' !! src =
    match m !! src with
    | Some strs => Some strs
    | None =>
        if bool_decide
             (src ∈ omap (λ lid, layer ← _layers st !! lid;
                          if Js.truthy (_renderToTexture (type layer))
                          then Some (Js.prop_key (source layer)) else None)
                    [lid])
        then Some (coords_str <$> default ∅ (inv !! src))
        else None
    end.
Proof.
  unfold fill_str_step. simpl.
  destruct (_layers st !! lid) as [layer|]; simpl; [|done].
  destruct (Js.truthy (_renderToTexture (type layer))); simpl.
  - destruct (m !! Js.prop_key (source layer)) as [strs|] eqn:E.
    + intros [= <-]. destruct (m !! src) eqn:E'; [done|].
      case_bool_decide as Hin; [|done].
      apply list_elem_of_singleton in Hin as ->. congruence.
    + intros [= <-].
      destruct (decide (src = Js.prop_key (source layer))) as [->|Hne].
      * rewrite lookup_insert_eq, E.
        by rewrite bool_decide_eq_true_2 by apply list_elem_of_here.
      * rewrite lookup_insert_ne by done.
        destruct (m !! src); [done|].
        case_bool_decide as Hin; [|done].
        by apply list_elem_of_singleton in Hin.
  - intros [= <-]. by destruct (m !! src).
Qed.

Lemma omap_cons_elem {A B : Type} (f : A → option B) (y : B) (x : A)
    (l : list A) :
  y ∈ omap f (x :: l) ↔ y ∈ omap f [x] ∨ y ∈ omap f l.
Proof.
  rewrite !list_elem_of_omap. split.
  - intros (z & Hz & Hf). apply elem_of_cons in Hz as [->|Hz].
    + left. exists x. split; [apply list_elem_of_here | done].
    + right. by exists z.
  - intros [(z & Hz & Hf) | (z & Hz & Hf)].
    + apply list_elem_of_singleton in Hz as ->. exists x.
      split; [apply list_elem_of_here | done].
    + exists z. split; [by apply list_elem_of_further | done].
Qed.

Lemma fill_str_fold_None st inv lids :
  foldl (fill_str_step st inv) None lids = None.
Proof. induction lids as [|lid lids IH]; [done|]. exact IH. Qed.

Lemma fill_str_fold_lookup st inv lids m m' src :
  foldl (fill_str_step st inv) (Some m) lids = Some m' →
  m' !! src =
    match m !! src with
    | Some strs => Some strs
    | None =>
        if bool_decide
             (src ∈ omap (λ lid, layer ← _layers st !! lid;
                          if Js.truthy (_renderToTexture (type layer))
                          then Some (Js.prop_key (source layer)) else None)
                    lids)
        then Some (coords_str <$> default ∅ (inv !! src))
        else None
    end.
Proof.
  revert m. induction lids as [|lid lids IH]; intros m; cbn [foldl].
  - intros [= <-]. by destruct (m !! src).
  - destruct (fill_str_step st inv (Some m) lid) as [m1|] eqn:E1;
      [|by rewrite fill_str_fold_None].
    intros H. rewrite (IH m1 H).
    rewrite (fill_str_step_lookup st inv m lid m1 src E1).
    destruct (m !! src) as [strs|]; [done|].
    rewrite (bool_decide_ext _ _ (omap_cons_elem _ src lid lids)).
    rewrite bool_decide_or. by destruct (bool_decide (src ∈ omap _ [lid])).
Qed.

(** *** Success of [initialize] *)

Lemma fill_str_fold_ok st inv lids m :
  (∀ lid, lid ∈ lids → is_Some (_layers st !! lid)) →
  is_Some (foldl (fill_str_step st inv) (Some m) lids).
Proof.
  revert m. induction lids as [|lid lids IH]; intros m H; [by eexists|].
  cbn [foldl]. destruct (H lid) as [layer Hl]; [apply list_elem_of_here|].
  assert (E : is_Some (fill_str_step st inv (Some m) lid)).
  { unfold fill_str_step. simpl. rewrite Hl. simpl. by repeat case_match. }
  destruct E as [m1 ->]. apply IH. intros l Hin. apply H.
  by apply list_elem_of_further.
Qed.

Lemma fill_inv_fold_lookup st (caches : list (string * SourceCache))
    (acc : gmap string (gmap string (list OverscaledTileID))) src :
  is_Some (acc !! src) ∨ src ∈ caches.*1 →
  is_Some (foldl (λ acc e,
                    <[e.1 := collect_coords (terrain st)
                               (getVisibleCoordinates e.2)]> acc)
                 acc caches !! src).
Proof.
  revert acc. induction caches as [|e caches IH]; intros acc H; simpl.
  - destruct H as [H|H]; [done | by apply elem_of_nil in H].
  - apply IH. destruct (decide (src = e.1)) as [->|Hne].
    + left. rewrite lookup_insert_eq. by eexists.
    + destruct H as [H|H].
      * left. by rewrite lookup_insert_ne.
      * right. simpl in H. apply elem_of_cons in H as [H|H]; done.
Qed.

(** Coordinates are collected for every source of the style. *)
Lemma fill_inv_lookup st src :
  src ∈ (sourceCaches st).*1 → is_Some (fill_coordsDescendingInv st !! src).
Proof. intros H. apply fill_inv_fold_lookup. by right. Qed.

Lemma rtt_source_elem st lid layer :
  lid ∈ _order st → _layers st !! lid = Some layer →
  Js.truthy (_renderToTexture (type layer)) = true →
  Js.prop_key (source layer) ∈ rtt_sources st.
Proof.
  intros Hin Hl Hr. apply list_elem_of_omap. exists lid. split; [done|].
  rewrite Hl. simpl. by rewrite Hr.
Qed.

(** [initialize] succeeds when the style order names layers of the style;
    it opens no stack and keeps the pool. *)
Lemma initialize_ok r :
  (∀ lid, lid ∈ _order (style (painter r)) →
          is_Some (_layers (style (painter r)) !! lid)) →
  ∃ r', initialize r = Some r'
    ∧ painter r' = painter r ∧ rttFBOs r' = rttFBOs r
    ∧ _stacks r' = [] ∧ _prevType r' = None
    ∧ _coordsDescendingInv r' = fill_coordsDescendingInv (style (painter r))
    ∧ (∀ src, _coordsDescendingInvStr r' !! src
              = if bool_decide (src ∈ rtt_sources (style (painter r)))
                then Some (coords_str
                             <$> default ∅ (_coordsDescendingInv r' !! src))
                else None)
    ∧ length (_renderableTiles r')
      = length (getRenderableTiles (terrain (style (painter r)))).
Proof.
  intros H. unfold initialize, fill_coordsDescendingInvStr.
  destruct (fill_str_fold_ok (style (painter r))
              (fill_coordsDescendingInv (style (painter r)))
              (_order (style (painter r))) ∅ H) as [strs E].
  rewrite E. simpl. eexists. split; [reflexivity|]. simpl.
  do 5 (split; [done|]). split.
  - intros src. by rewrite (fill_str_fold_lookup _ _ _ _ _ src E), lookup_empty.
  - by rewrite length_fmap.
Qed.

(** C3, as amended. When the style order names layers of the style,
    [initialize] succeeds, and then, for every source that some layer
    rendered to texture (background, fill, line, raster) of the style order
    names, and every tile key, the string kept in [_coordsDescendingInvStr]
    is the comma-joined, sorted list of the keys collected in
    [_coordsDescendingInv] for them, with repeated keys kept; for any other
    source no string is kept. Sorting yields an ordered permutation. *)
Theorem composite_key_is_sorted_join (r : t) :
  (∀ lid, lid ∈ _order (style (painter r)) →
          is_Some (_layers (style (painter r)) !! lid)) →
  ∃ r', initialize r = Some r'
    ∧ (∀ src K,
         _coordsDescendingInvStr r' !! src ≫= (.!! K)
         = if bool_decide (src ∈ rtt_sources (style (painter r)))
           then (λ cs, join (sort (key <$> cs)))
                  <$> (_coordsDescendingInv r' !! src ≫= (.!! K))
           else None)
    ∧ (∀ l, Sorted str_le (sort l) ∧ sort l ≡ₚ l).
Proof.
  intros H.
  destruct (initialize_ok r H) as (r' & E & _ & _ & _ & _ & _ & Hstr & _).
  exists r'. split; [done|]. split.
  - intros src K. rewrite Hstr. case_bool_decide; [|done]. simpl.
    rewrite lookup_fmap.
    destruct (_coordsDescendingInv r' !! src) as [m|]; simpl; [done|].
    by rewrite lookup_empty.
  - intros l. split; [apply sort_sorted | apply sort_permutation].
Qed.

(** The sample style with the fill layer on ["v"], whose visible
    coordinates name the tile ["a"] twice: the string kept is ["a,a"]. *)
Lemma composite_key_is_sorted_join_witness :
  ∃ r', initialize (constructor (Sample.painter_of Sample.places_style))
        = Some r'
        ∧ _coordsDescendingInvStr r' !! "v" ≫= (.!! "t1") = Some "a,a".
Proof.
  destruct (composite_key_is_sorted_join
              (constructor (Sample.painter_of Sample.places_style)))
    as (r' & E & Hstr & _).
  { intros lid Hin.
    apply elem_of_cons in Hin as [->|Hin]; [by eexists|].
    apply elem_of_cons in Hin as [->|Hin]; [by eexists|].
    by apply elem_of_nil in Hin. }
  exists r'. split; [exact E|]. rewrite Hstr.
  assert (Er : Some r'
               = initialize (constructor (Sample.painter_of Sample.places_style)))
    by done.
  vm_compute in Er. injection Er as ->. by vm_compute.
Defined.

(** C3, as the spec words it, fails on the same style in two ways: the
    string kept for ["v"] repeats the key that was collected twice, and for
    the source ["poi"], which only a symbol layer names, tiles are collected
    but no string is kept. *)
Lemma composite_key_not_deduplicated :
  ¬ ∀ r', initialize (constructor (Sample.painter_of Sample.places_style))
          = Some r' → CompositeKey_claim r'.
Proof.
  intros H.
  destruct (initialize (constructor (Sample.painter_of Sample.places_style)))
    as [r'|] eqn:E; [|by vm_compute in E].
  specialize (H r' eq_refl "v" "t1" [Sample.tid "a"; Sample.tid "a"]).
  assert (Er : Some r'
               = initialize (constructor (Sample.painter_of Sample.places_style)))
    by done.
  vm_compute in Er. injection Er as ->.
  vm_compute in H. specialize (H eq_refl). discriminate H.
Qed.

(** The second way, spelled out. *)
Lemma composite_key_missing_for_symbol_source :
  ∃ r', initialize (constructor (Sample.painter_of Sample.places_style))
        = Some r'
        ∧ _coordsDescendingInv r' !! "poi" ≫= (.!! "t1") = Some [Sample.tid "p"]
        ∧ _coordsDescendingInvStr r' !! "poi" = None.
Proof. eexists. split; [by vm_compute|]. by vm_compute. Qed.

End InitFacts.

(** ** Facts about [renderLayer] *)

Module LayerFacts.
Import Rtt.

(** *** What the loops over the tiles keep *)

Lemma grows_intro r r' l :
  style (painter r') = style (painter r) →
  currentLayer (painter r') = currentLayer (painter r) →
  _coordsDescendingInv r' = _coordsDescendingInv r →
  _coordsDescendingInvStr r' = _coordsDescendingInvStr r →
  _stacks r' = _stacks r → _prevType r' = _prevType r →
  length (rttFBOs r) ≤ length (rttFBOs r') →
  context (painter r') = context (painter r) ++ l →
  grows r r'.
Proof. intros. unfold grows. do 7 (split; [done|]). by exists l. Qed.

Lemma grows_refl r : grows r r.
Proof. apply (grows_intro r r []); try done. by rewrite app_nil_r. Qed.

Lemma grows_trans r1 r2 r3 : grows r1 r2 → grows r2 r3 → grows r1 r3.
Proof.
  intros (A1 & A2 & A3 & A4 & A5 & A6 & A7 & l1 & A8)
         (B1 & B2 & B3 & B4 & B5 & B6 & B7 & l2 & B8).
  apply (grows_intro r1 r3 (l1 ++ l2)); try congruence; [lia|].
  by rewrite B8, A8, app_assoc.
Qed.

Lemma getFBO_grows r : grows r (getFBO r).2.
Proof.
  unfold getFBO. destruct (first_free _ 0 _); simpl.
  - apply (grows_intro _ _ []); try done. by rewrite app_nil_r.
  - apply (grows_intro _ _ []); try done; simpl.
    + rewrite length_app. lia.
    + by rewrite app_nil_r.
Qed.

Lemma emit_grows c r : grows r (emit c r).
Proof. by apply (grows_intro _ _ [c]). Qed.

Lemma freeFBO_grows i r : grows r (freeFBO i r).
Proof.
  destruct i; [|apply grows_refl].
  apply (grows_intro _ _ []); try done. by rewrite app_nil_r.
Qed.

Lemma set_tiles_grows ts r : grows r (set_tiles ts r).
Proof. apply (grows_intro _ _ []); try done. by rewrite app_nil_r. Qed.

Lemma drawTerrain_grows r : grows r (drawTerrain r).
Proof. apply emit_grows. Qed.

Lemma prepareFBO_in_range i r :
  i < length (rttFBOs r) → prepareFBO (Some i) r = Some (emit (Clear i) r).
Proof.
  intros Hi. unfold prepareFBO. simpl.
  destruct (lookup_lt_is_Some_2 (rttFBOs r) i Hi) as [f ->]. done.
Qed.

Lemma drawable_grows r r' lid : grows r r' → drawable r lid → drawable r' lid.
Proof.
  intros (A1 & _ & A3 & A4 & _) (layer & Hl & Hs).
  exists layer. rewrite A1, A3, A4. by split.
Qed.

Lemma grows_member r r' c :
  grows r r' → c ∈ context (painter r) → c ∈ context (painter r').
Proof.
  intros (_ & _ & _ & _ & _ & _ & _ & l & ->) H.
  apply elem_of_app. by left.
Qed.

Lemma drawn_into_grows h stack r r' tile :
  grows r r' → drawn_into h stack r tile → drawn_into h stack r' tile.
Proof.
  intros Hg (i & coords & Hi & Hlt & Hin). exists i, coords.
  split; [done|]. split.
  - destruct Hg as (_ & _ & _ & _ & _ & _ & Hle & _). lia.
  - by eapply grows_member.
Qed.

(** A drawable layer of a stack is drawn; the tile keeps its identity and
    its framebuffers. *)
Lemma draw_stack_layer_ok fbo r tile lid :
  drawable r lid →
  ∃ r' tile', draw_stack_layer fbo (Some (r, tile)) lid = Some (r', tile')
    ∧ grows r r'
    ∧ Tile.tileID tile' = Tile.tileID tile
    ∧ Tile.rttFBOs tile' = Tile.rttFBOs tile.
Proof.
  intros (layer & Hl & Hs). unfold draw_stack_layer. simpl. rewrite Hl. simpl.
  destruct (Js.truthy_str (source layer)) eqn:Ht.
  - destruct (Hs eq_refl) as [[inv Hi] [strs Hstr]].
    rewrite Hi. simpl. rewrite Hstr. simpl.
    eexists _, _. split; [reflexivity|]. split; [apply emit_grows | done].
  - simpl. eexists _, _. split; [reflexivity|].
    split; [apply emit_grows | done].
Qed.

Lemma draw_stack_ok fbo layers r tile :
  Forall (drawable r) layers →
  ∃ r' tile', foldl (draw_stack_layer fbo) (Some (r, tile)) layers
              = Some (r', tile')
    ∧ grows r r'
    ∧ Tile.tileID tile' = Tile.tileID tile
    ∧ Tile.rttFBOs tile' = Tile.rttFBOs tile.
Proof.
  revert r tile. induction layers as [|lid layers IH]; intros r tile H.
  - exists r, tile. split; [done|]. split; [apply grows_refl | done].
  - apply Forall_cons in H as [H1 H2]. cbn [foldl].
    destruct (draw_stack_layer_ok fbo r tile lid H1)
      as (r1 & tile1 & -> & Hg & Hid & Hf).
    destruct (IH r1 tile1) as (r2 & tile2 & E & Hg2 & Hid2 & Hf2).
    { eapply Forall_impl; [exact H2|]. intros x. by apply drawable_grows. }
    exists r2, tile2. split; [done|]. split; [by eapply grows_trans|].
    split; congruence.
Qed.


(** A tile whose assignment for the stack is a slot other than 0 is
    skipped: nothing is drawn and nothing changes. *)
Lemma flush_tile_skips stack layers r tile i :
  Js.get (Tile.rttFBOs tile) stack = Some (S i) →
  flush_tile stack layers r tile = Some (r, tile).
Proof. intros H. unfold flush_tile. by rewrite H. Qed.

(** The hillshade layer is drawn for a tile whatever the tile holds. *)
Lemma hillshade_tile_ok layer stack r tile :
  is_Some (_coordsDescendingInv r !! Js.prop_key (source layer)) →
  ∃ r' tile', hillshade_tile layer stack r tile = Some (r', tile')
    ∧ grows r r' ∧ drawn_into (id layer) stack r' tile'.
Proof.
  intros [inv Hi]. unfold hillshade_tile.
  pose proof (freeFBO_grows (Js.get (Tile.rttFBOs tile) stack) r) as Hg0.
  set (r0 := freeFBO _ r) in *.
  pose proof (getFBO_grows r0) as Hg. pose proof (PoolFacts.getFBO_in_range r0) as Hr.
  destruct (getFBO r0) as [i r1]. simpl in *.
  rewrite JsFacts.get_set_eq, prepareFBO_in_range by done. simpl.
  assert (Hinv : _coordsDescendingInv r1 = _coordsDescendingInv r).
  { destruct Hg as (_ & _ & -> & _). by destruct Hg0 as (_ & _ & -> & _). }
  rewrite Hinv, Hi. simpl.
  eexists _, _. split; [reflexivity|]. split.
  - eapply grows_trans; [exact Hg0|]. eapply grows_trans; [exact Hg|].
    eapply grows_trans; apply emit_grows.
  - exists i, (inv !! key (Tile.tileID tile)). simpl.
    rewrite JsFacts.get_set_eq. split; [done|]. split; [done|].
    apply elem_of_app. right. apply list_elem_of_here.
Qed.

(** A loop over the tiles whose body succeeds on every state that grew out
    of the first succeeds, and what it established for a tile still holds at
    the end. *)
Lemma for_tiles_ok (f : t → Tile.t → option (t * Tile.t))
    (Q : t → Tile.t → Prop) r tiles :
  (∀ r1 r2 tile, grows r1 r2 → Q r1 tile → Q r2 tile) →
  (∀ r1 tile, grows r r1 →
     ∃ r2 tile', f r1 tile = Some (r2, tile') ∧ grows r1 r2 ∧ Q r2 tile') →
  ∃ r' tiles', for_tiles f r tiles = Some (r', tiles')
    ∧ grows r r' ∧ Forall (Q r') tiles' ∧ length tiles' = length tiles.
Proof.
  intros HQ Hf.
  assert (H : ∀ r1, grows r r1 →
    ∃ r' tiles', for_tiles f r1 tiles = Some (r', tiles')
      ∧ grows r1 r' ∧ Forall (Q r') tiles' ∧ length tiles' = length tiles).
  { induction tiles as [|tile tiles IH]; intros r1 Hg1.
    - exists r1, []. split; [done|]. split; [apply grows_refl | done].
    - simpl. destruct (Hf r1 tile Hg1) as (r2 & tile' & -> & Hg2 & Hq).
      simpl. destruct (IH r2) as (r3 & tiles' & -> & Hg3 & Hall & Hlen).
      { by eapply grows_trans. }
      simpl. exists r3, (tile' :: tiles'). split; [done|].
      split; [by eapply grows_trans|]. split.
      + apply Forall_cons. split; [by eapply HQ | done].
      + simpl. by rewrite Hlen. }
  apply H, grows_refl.
Qed.


Lemma draw_stack_None fbo layers :
  foldl (draw_stack_layer fbo) None layers = None.
Proof. induction layers as [|lid layers IH]; [done | exact IH]. Qed.

(** *** The pass that redraws the hillshade layer *)




(** A tile that already holds a framebuffer of the pool for the stack gets
    that one or one of lower index, and the pool does not grow. *)
Lemma redrawn_within_pool h stack r tile r' tile' o :
  redrawn h stack r tile r' tile' →
  Js.get (Tile.rttFBOs tile) stack = Some o → o < length (rttFBOs r) →
  ∃ i, Js.get (Tile.rttFBOs tile') stack = Some i ∧ i ≤ o
       ∧ rttFBOs r' = rttFBOs r.
Proof.
  intros (i & coords & Hi & _ & _ & Hlow & Hin & Hout & _) Ho Hlt.
  exists i. split; [done|].
  assert (Hle : i ≤ o).
  { destruct (decide (i ≤ o)) as [|Hgt]; [done|].
    destruct (Hlow o); [lia | done | by left]. }
  split; [done|]. apply Hin. lia.
Qed.


(** *** The tiles keep their identity *)







(** *** The cases of [renderLayer] *)

Lemma push_last_snoc x ss s :
  push_last x (ss ++ [s]) = Some (ss ++ [s ++ [x]]).
Proof.
  unfold push_last. rewrite length_app. simpl.
  replace (length ss + 1) with (S (length ss)) by lia.
  rewrite lookup_app_r by lia. rewrite Nat.sub_diag. simpl.
  f_equal. rewrite insert_app_r_alt by lia. by rewrite Nat.sub_diag.
Qed.

Lemma last_stack (ss : list (Js.array string)) s :
  length (ss ++ [s]) = S (length ss) ∧ (ss ++ [s]) !! length ss = Some s.
Proof.
  split; [rewrite length_app; simpl; lia|].
  rewrite lookup_app_r by lia. by rewrite Nat.sub_diag.
Qed.








(** *** The painter's loop *)

Lemma render_step_at res r i lid layer b r' :
  _order (style (painter r)) !! i = Some lid →
  _layers (style (painter r)) !! lid = Some layer →
  renderLayer layer (set_currentLayer i r) = Some (b, r') →
  render_step (Some (res, r)) i = Some (res ++ [b], r').
Proof.
  intros Ho Hl E. unfold render_step. simpl. rewrite Ho. simpl. rewrite Hl.
  simpl. by rewrite E.
Qed.





(** Three frames of the sample style in a row, nothing changing in between.
    In each of them the hillshade layer is cleared and drawn again for both
    tiles, while the stack of the fill layer after the symbol layer, once
    rendered, is only drawn onto the terrain. In the second frame each tile
    gives slot 2 back and takes it again, and the pool grows by the one
    framebuffer that the first stack takes (the tiles held slot 0 for it).
    In the third frame slot 0 is free: the first tile gives slot 2 back and
    takes slot 0, the second gives slot 2 back and takes it again, and the
    pool stays at four framebuffers. *)
Lemma relief_three_frames :
  ∃ res r1 r2 r3,
    frame (constructor (Sample.painter_of Sample.relief_style))
    = Some (res, r1)
    ∧ frame (next_painter Sample.relief_style r1) = Some (res, r2)
    ∧ frame (next_painter Sample.relief_style r2) = Some (res, r3)
    ∧ Tile.rttFBOs <$> _renderableTiles r1
      = [[Some 0; Some 1; Some 2]; [Some 0; Some 1; Some 2]]
    ∧ Tile.rttFBOs <$> _renderableTiles r2
      = [[Some 3; Some 1; Some 2]; [Some 3; Some 1; Some 2]]
    ∧ Tile.rttFBOs <$> _renderableTiles r3
      = [[Some 3; Some 1; Some 0]; [Some 3; Some 1; Some 2]]
    ∧ length (rttFBOs r1) = 3 ∧ length (rttFBOs r2) = 4
    ∧ length (rttFBOs r3) = 4
    ∧ context (painter r3)
      = [DrawTerrain [Some 3; Some 3]; DrawTerrain [Some 1; Some 1];
         Clear 0; RenderLayer "relief" "t1" 0 (Some [Sample.tid "d"]);
         Clear 2; RenderLayer "relief" "t2" 2 (Some [Sample.tid "d"]);
         DrawTerrain [Some 0; Some 2]].
Proof.
  do 4 eexists.
  split; [by vm_compute|]. split; [by vm_compute|]. split; [by vm_compute|].
  repeat split; by vm_compute.
Qed.

(** *** Reuse of what a tile holds *)

(** [initialize] keeps the framebuffers a tile holds when, for every source
    with strings, the string for the tile is the one recorded on the tile at
    its last rendering (or there is none) and the tile is not flagged. *)
Lemma check_tile_keeps te (strs : gmap string (gmap string string)) tile :
  (∀ src m, strs !! src = Some m →
     (Js.truthy_str (m !! key (Tile.tileID tile)) = true →
      m !! key (Tile.tileID tile) = Tile.rttCoords tile !! src)
     ∧ needsRerender te src (Tile.tileID tile) = false) →
  Tile.rttFBOs (check_tile te strs tile) = Tile.rttFBOs tile.
Proof.
  unfold check_tile. simpl.
  apply (map_fold_weak_ind
           (λ fbos (m : gmap string (gmap string string)),
              (∀ src x, m !! src = Some x →
                 (Js.truthy_str (x !! key (Tile.tileID tile)) = true →
                  x !! key (Tile.tileID tile) = Tile.rttCoords tile !! src)
                 ∧ needsRerender te src (Tile.tileID tile) = false) →
              fbos = Tile.rttFBOs tile)); [done|].
  intros src x m fbos Hnone IH H.
  rewrite IH.
  - destruct (H src x) as [H1 H2]; [by rewrite lookup_insert_eq|].
    unfold check_source. rewrite H2.
    destruct (Js.truthy_str (x !! key (Tile.tileID tile))) eqn:Ht; [|done].
    by rewrite (bool_decide_eq_true_2 _ (H1 eq_refl)).
  - intros src' x' Hx'. apply H. rewrite lookup_insert_ne; [done|].
    intros ->. congruence.
Qed.

Lemma draw_stack_layer_context fbo r tile lid r' tile' :
  draw_stack_layer fbo (Some (r, tile)) lid = Some (r', tile') →
  ∃ c, context (painter r') = context (painter r) ++ [c].
Proof.
  unfold draw_stack_layer. simpl.
  destruct (_layers (style (painter r)) !! Js.prop_key lid) as [layer|];
    simpl; [|done].
  destruct (Js.truthy_str (source layer)).
  - destruct (_coordsDescendingInv r !! Js.prop_key (source layer)) as [inv|];
      simpl; [|done].
    destruct (_coordsDescendingInvStr r !! Js.prop_key (source layer))
      as [strs|]; simpl; [|done].
    intros [= <- _]. by eexists.
  - simpl. intros [= <- _]. by eexists.
Qed.

Lemma draw_stack_context fbo layers r tile r' tile' c :
  foldl (draw_stack_layer fbo) (Some (r, tile)) layers = Some (r', tile') →
  c ∈ context (painter r) → c ∈ context (painter r').
Proof.
  revert r tile. induction layers as [|lid layers IH]; intros r tile;
    cbn [foldl]; [by intros [= <- _]|].
  destruct (draw_stack_layer fbo (Some (r, tile)) lid) as [[r1 tile1]|] eqn:E;
    [|by rewrite draw_stack_None].
  intros H Hc. apply (IH r1 tile1 H).
  destruct (draw_stack_layer_context _ _ _ _ _ _ E) as [c' ->].
  apply elem_of_app. by left.
Qed.

(** A tile that holds slot 0 for the stack is not skipped by the flush: a
    framebuffer is requested and cleared for it again. *)
Lemma flush_tile_redraws_slot_zero stack layers r tile r' tile' :
  Js.get (Tile.rttFBOs tile) stack = Some 0 →
  flush_tile stack layers r tile = Some (r', tile') →
  Clear (getFBO r).1 ∈ context (painter r').
Proof.
  intros H0. unfold flush_tile. rewrite H0. simpl.
  pose proof (PoolFacts.getFBO_in_range r) as Hr.
  destruct (getFBO r) as [i r1]. simpl in *.
  rewrite JsFacts.get_set_eq, prepareFBO_in_range by done. simpl.
  intros E. eapply draw_stack_context; [exact E|].
  simpl. apply elem_of_app. right. apply list_elem_of_here.
Qed.

(** C1, at the tile that holds slot 0. The first frame over one new tile
    and one fill layer gives the tile framebuffer 0. In the second frame
    nothing has changed: the string for the tile is the one recorded on it
    and nothing is flagged, and [initialize] keeps the assignment. Yet the
    flush does not skip the tile: the test [tile.rttFBOs[stack]] reads the
    index 0 as "not assigned", and the layer is drawn again, into a second
    framebuffer. *)
Theorem slot_zero_is_drawn_again :
  ∃ res1 r1 r2 res3 r3,
    frame (constructor (Sample.painter_of Sample.land_style)) = Some (res1, r1)
    ∧ Tile.rttFBOs <$> _renderableTiles r1 = [[Some 0]]
    ∧ (λ tile, Tile.rttCoords tile !! "v") <$> _renderableTiles r1
      = [Some "a,b"]
    ∧ initialize (next_painter Sample.land_style r1) = Some r2
    ∧ _coordsDescendingInvStr r2 !! "v" ≫= (.!! "t1") = Some "a,b"
    ∧ Tile.rttFBOs <$> _renderableTiles r2 = [[Some 0]]
    ∧ renderLayers r2 = Some (res3, r3)
    ∧ context (painter r3)
      = [Clear 1;
         RenderLayer "land" "t1" 1 (Some [Sample.tid "b"; Sample.tid "a"]);
         DrawTerrain [Some 1]].
Proof.
  do 5 eexists.
  split; [by vm_compute|]. split; [by vm_compute|]. split; [by vm_compute|].
  split; [by vm_compute|]. split; [by vm_compute|]. split; [by vm_compute|].
  split; by vm_compute.
Qed.

End LayerFacts.

(** ** Reuse of framebuffers *)

Module PoolReuse.
Import Rtt RttNotions.

Lemma first_free_lowest used n k :
  k < n → Js.truthy (Js.get used k) = false →
  ∃ i, first_free used 0 n = Some i ∧ i ≤ k
       ∧ Js.truthy (Js.get used i) = false
       ∧ ∀ j, j < i → Js.truthy (Js.get used j) = true.
Proof.
  intros Hk Hfree.
  destruct (first_free used 0 n) as [i|] eqn:Hf.
  - apply PoolFacts.first_free_Some in Hf as (Hi & Hu & Hlow).
    exists i. split; [done|]. split; [|split; [done|]].
    + destruct (decide (i ≤ k)) as [|Hgt]; [done|].
      rewrite Hlow in Hfree by lia. done.
    + intros j Hj. apply Hlow. lia.
  - apply PoolFacts.first_free_None with (k := k) in Hf; [|lia].
    congruence.
Qed.

Lemma getFBO_reuse r i :
  first_free (rttUsedFBOs r) 0 (length (rttFBOs r)) = Some i →
  getFBO r = (i, set_used (Js.set i true (rttUsedFBOs r)) r).
Proof. intros Hf. unfold getFBO. by rewrite Hf. Qed.

(** X1: when a framebuffer of the pool is free, [getFBO] hands out the
    free one of lowest index, marks it used, leaves every other mark as it
    is and creates nothing. *)
Theorem getFBO_reuses_lowest_free (r : t) (k : nat) :
  k < length (rttFBOs r) →
  Js.truthy (Js.get (rttUsedFBOs r) k) = false →
  (getFBO r).1 ≤ k
  ∧ Js.truthy (Js.get (rttUsedFBOs r) (getFBO r).1) = false
  ∧ (∀ j, j < (getFBO r).1 → Js.truthy (Js.get (rttUsedFBOs r) j) = true)
  ∧ rttFBOs (getFBO r).2 = rttFBOs r
  ∧ rttTextures (getFBO r).2 = rttTextures r
  ∧ Js.get (rttUsedFBOs (getFBO r).2) (getFBO r).1 = Some true
  ∧ (∀ j, j ≠ (getFBO r).1 →
          Js.get (rttUsedFBOs (getFBO r).2) j = Js.get (rttUsedFBOs r) j).
Proof.
  intros Hk Hfree.
  destruct (first_free_lowest _ _ _ Hk Hfree) as (i & Hf & Hi & Hu & Hlow).
  rewrite (getFBO_reuse _ _ Hf). simpl.
  repeat split; try done.
  - apply JsFacts.get_set_eq.
  - intros j Hj. apply JsFacts.get_set_ne. done.
Qed.

Lemma getFBO_reuses_lowest_free_witness :
  (getFBO PoolSample.three).1 = 1
  ∧ length (rttFBOs (getFBO PoolSample.three).2) = 3
  ∧ Js.get (rttUsedFBOs (getFBO PoolSample.three).2) 1 = Some true.
Proof.
  assert (H1 : 1 < length (rttFBOs PoolSample.three)) by (vm_compute; lia).
  assert (H2 : Js.truthy (Js.get (rttUsedFBOs PoolSample.three) 1) = false)
    by reflexivity.
  destruct (getFBO_reuses_lowest_free PoolSample.three 1 H1 H2)
    as (Hle & Hu & Hlow & Hp & _ & Hm & _).
  assert (Hi : (getFBO PoolSample.three).1 = 1).
  { destruct (decide ((getFBO PoolSample.three).1 = 1)) as [|Hne]; [done|].
    assert (Hz : (getFBO PoolSample.three).1 = 0) by lia.
    rewrite Hz in Hu. vm_compute in Hu. done. }
  split; [done|]. split.
  - rewrite Hp. reflexivity.
  - rewrite Hi in Hm. done.
Defined.

End PoolReuse.

(** ** What [initialize] collects, drops and marks *)

Module InitMore.
Import Rtt RttNotions.

Lemma check_source_stale te tile src strs fbos :
  check_source te tile src strs fbos
  = if stale te tile src strs then [] else fbos.
Proof.
  unfold check_source, stale.
  destruct (Js.truthy_str _), (bool_decide _), (needsRerender _ _ _); done.
Qed.

Lemma check_tile_fbos te (strs : gmap string (gmap string string)) tile :
  Tile.rttFBOs (check_tile te strs tile)
  = if bool_decide (map_Exists (λ src m, stale te tile src m = true) strs)
    then [] else Tile.rttFBOs tile.
Proof.
  unfold check_tile. simpl.
  pose (Q := λ (acc : Js.array nat) (m : gmap string (gmap string string)),
          acc = if bool_decide
                     (map_Exists (λ src m, stale te tile src m = true) m)
                then [] else Tile.rttFBOs tile).
  change (Q (map_fold (check_source te tile) (Tile.rttFBOs tile) strs) strs).
  apply map_fold_weak_ind; unfold Q.
  - rewrite bool_decide_eq_false_2; [done|].
    intros (src & m & Hl & _). by rewrite lookup_empty in Hl.
  - intros src m strs' acc Hnone ->.
    rewrite check_source_stale.
    destruct (stale te tile src m) eqn:Hst.
    + rewrite bool_decide_eq_true_2; [done|].
      apply map_Exists_insert; [done|]. by left.
    + apply (f_equal (λ b : bool, if b then [] else Tile.rttFBOs tile)).
      apply bool_decide_ext. rewrite map_Exists_insert by done.
      split; [by right|]. intros [Hs|]; [congruence|done].
Qed.

Lemma check_tile_cases te (strs : gmap string (gmap string string)) tile :
  check_tile te strs tile
  = if bool_decide (map_Exists (λ src m, stale te tile src m = true) strs)
    then cleared tile else tile.
Proof.
  pose proof (check_tile_fbos te strs tile) as Hf.
  destruct tile as [tid fbos coords]. unfold check_tile, cleared in *.
  simpl in *. rewrite Hf. by case_bool_decide.
Qed.

(** X3: [initialize] drops the framebuffer assignments of exactly those
    terrain tiles for which, for some source with collected strings, the
    string is non-empty and differs from the one the tile recorded or the
    terrain asks for a re-render; every other tile, and the recorded strings
    of all tiles, are kept as they are. *)
Theorem initialize_invalidates (r r' : t) :
  initialize r = Some r' →
  _renderableTiles r'
  = (λ tile,
       if bool_decide
            (map_Exists
               (λ src m, stale (terrain (style (painter r))) tile src m = true)
               (_coordsDescendingInvStr r'))
       then cleared tile else tile)
    <$> getRenderableTiles (terrain (style (painter r))).
Proof.
  unfold initialize. intros Hi.
  destruct (fill_coordsDescendingInvStr _ _) as [strs|] eqn:Hs; [|done].
  simpl in Hi. injection Hi as <-. simpl.
  apply list_fmap_ext. intros _ tile _. apply check_tile_cases.
Qed.

Lemma initialize_invalidates_witness :
  ∃ r', initialize (constructor (Sample.painter_of Sample.land_style)) = Some r'
    ∧ _renderableTiles r' = [Sample.new_tile "t1"].
Proof.
  destruct (initialize (constructor (Sample.painter_of Sample.land_style)))
    as [r'|] eqn:Hi; [|by vm_compute in Hi].
  exists r'. split; [done|].
  rewrite (initialize_invalidates _ _ Hi).
  assert (Hs : Some r' = initialize
                 (constructor (Sample.painter_of Sample.land_style))) by done.
  vm_compute in Hs. injection Hs as ->. vm_compute. reflexivity.
Defined.

Lemma get_Some_elem {A : Type} (a : Js.array A) (x : A) :
  Some x ∈ a ↔ ∃ k, Js.get a k = Some x.
Proof.
  rewrite list_elem_of_lookup. unfold Js.get.
  split; intros [k Hk]; exists k.
  - by rewrite Hk.
  - destruct (a !! k) as [[y|]|]; simplify_eq/=; done.
Qed.

Lemma get_set_true (u : Js.array bool) i j :
  Js.truthy (Js.get (Js.set j true u) i) = true
  ↔ i = j ∨ Js.truthy (Js.get u i) = true.
Proof.
  destruct (decide (j = i)) as [->|Hne].
  - rewrite JsFacts.get_set_eq. simpl. naive_solver.
  - rewrite JsFacts.get_set_ne by done. naive_solver.
Qed.

Lemma mark_used_truthy fbos : ∀ u i,
  Js.truthy (Js.get (mark_used u fbos) i) = true
  ↔ Js.truthy (Js.get u i) = true ∨ Some i ∈ fbos.
Proof.
  unfold mark_used.
  induction fbos as [|o fbos IH]; intros u i; simpl.
  - set_solver.
  - rewrite IH. destruct o as [j|].
    + rewrite get_set_true. rewrite elem_of_cons.
      split; [intros [[->|]|]|intros [|[?|]]]; simplify_eq; auto.
    + rewrite elem_of_cons. naive_solver.
Qed.

Lemma mark_tiles_truthy tiles : ∀ u i,
  Js.truthy (Js.get (foldl (λ u tile, mark_used u (Tile.rttFBOs tile)) u tiles)
                    i) = true
  ↔ Js.truthy (Js.get u i) = true
    ∨ ∃ tile, tile ∈ tiles ∧ Some i ∈ Tile.rttFBOs tile.
Proof.
  induction tiles as [|tile tiles IH]; intros u i; simpl.
  - set_solver.
  - rewrite IH, mark_used_truthy. set_solver.
Qed.

(** X4: after [initialize] a framebuffer is marked used exactly when some
    renderable tile still holds it for one of its stacks. *)
Theorem initialize_marks_held (r r' : t) (i : nat) :
  initialize r = Some r' →
  Js.truthy (Js.get (rttUsedFBOs r') i) = true
  ↔ ∃ tile k, tile ∈ _renderableTiles r'
              ∧ Js.get (Tile.rttFBOs tile) k = Some i.
Proof.
  unfold initialize. intros Hi.
  destruct (fill_coordsDescendingInvStr _ _) as [strs|] eqn:Hs; [|done].
  simpl in Hi. injection Hi as <-. simpl.
  rewrite mark_tiles_truthy. split.
  - intros [Hn|(tile & Ht & He)]; [done|].
    apply get_Some_elem in He as [k Hk]. eauto.
  - intros (tile & k & Ht & Hk). right. exists tile. split; [done|].
    apply get_Some_elem. eauto.
Qed.

(** The warm sample compositor, whose tile holds framebuffer 1: after
    [initialize] framebuffer 1 is marked and framebuffer 0 is not. *)
Lemma initialize_marks_held_witness :
  ∃ r', initialize HillshadeSample.warm = Some r'
    ∧ Js.truthy (Js.get (rttUsedFBOs r') 1) = true
    ∧ Js.truthy (Js.get (rttUsedFBOs r') 0) = false.
Proof.
  destruct (initialize HillshadeSample.warm) as [r'|] eqn:E;
    [|by vm_compute in E].
  exists r'. split; [done|].
  assert (Ht : _renderableTiles r' = [HillshadeSample.cached]).
  { assert (Er : Some r' = initialize HillshadeSample.warm) by done.
    clear E. vm_compute in Er. injection Er as ->. reflexivity. }
  split.
  - apply (initialize_marks_held HillshadeSample.warm r' 1 E).
    exists HillshadeSample.cached, 0. rewrite Ht.
    split; [apply list_elem_of_here | reflexivity].
  - destruct (Js.truthy (Js.get (rttUsedFBOs r') 0)) eqn:Hu; [|done].
    apply (initialize_marks_held HillshadeSample.warm r' 0 E) in Hu
      as (tile & k & Hin & Hk).
    rewrite Ht in Hin. apply list_elem_of_singleton in Hin as ->.
    destruct k as [|k]; [discriminate Hk|]. destruct k; discriminate Hk.
Defined.

Lemma fill_str_fold_missing st inv lids : ∀ m,
  foldl (fill_str_step st inv) (Some m) lids = None
  ↔ ∃ lid, lid ∈ lids ∧ _layers st !! lid = None.
Proof.
  induction lids as [|lid lids IH]; intros m; cbn [foldl].
  - split; [done|]. intros (lid & He & _). by apply elem_of_nil in He.
  - destruct (_layers st !! lid) as [layer|] eqn:Hl.
    + assert (∃ m', fill_str_step st inv (Some m) lid = Some m') as [m' ->].
      { unfold fill_str_step. simpl. rewrite Hl. simpl.
        repeat case_match; eauto. }
      rewrite IH. split.
      * intros (l & He & Hn). exists l. split; [by right|done].
      * intros (l & He & Hn). apply elem_of_cons in He as [->|He];
          [congruence|]. eauto.
    + assert (fill_str_step st inv (Some m) lid = None) as ->.
      { unfold fill_str_step. simpl. by rewrite Hl. }
      rewrite InitFacts.fill_str_fold_None. split; [|done].
      intros _. exists lid. split; [by left|done].
Qed.

(** X5: [initialize] throws exactly when the draw order of the style names
    a layer that the style does not hold. *)
Theorem initialize_throws_iff (r : t) :
  initialize r = None
  ↔ ∃ lid, lid ∈ _order (style (painter r))
           ∧ _layers (style (painter r)) !! lid = None.
Proof.
  rewrite <- (fill_str_fold_missing (style (painter r))
                (fill_coordsDescendingInv (style (painter r)))
                (_order (style (painter r))) ∅).
  unfold initialize, fill_coordsDescendingInvStr.
  destruct (foldl _ _ _); simpl; split; done.
Qed.

Lemma push_coord_fold K kcs : ∀ m : gmap string (list OverscaledTileID),
  default [] (foldl push_coord m kcs !! K)
  = default [] (m !! K) ++ (filter (λ kc, kc.1 = K) kcs).*2.
Proof.
  induction kcs as [|[k c] kcs IH]; intros m; simpl.
  - by rewrite app_nil_r.
  - rewrite IH. unfold push_coord. simpl.
    destruct (decide (k = K)) as [->|Hne].
    + rewrite lookup_insert_eq. simpl.
      rewrite filter_cons_True by done. simpl. by rewrite <- app_assoc.
    + rewrite lookup_insert_ne by done.
      rewrite filter_cons_False by done. done.
Qed.

Lemma push_coord_fold_nonempty K kcs :
  ∀ m : gmap string (list OverscaledTileID),
  (∀ l, m !! K = Some l → l ≠ []) →
  ∀ l, foldl push_coord m kcs !! K = Some l → l ≠ [].
Proof.
  induction kcs as [|[k c] kcs IH]; intros m Hm; simpl; [done|].
  apply IH. intros l. unfold push_coord. simpl.
  destruct (decide (k = K)) as [->|Hne].
  - rewrite lookup_insert_eq. intros [= <-]. by destruct (default _ _).
  - rewrite lookup_insert_ne by done. apply Hm.
Qed.

Lemma collect_fold te K tileIDs :
  ∀ m : gmap string (list OverscaledTileID),
  default []
    (foldl (λ m tileID, foldl push_coord m (getTerrainCoords te tileID))
           m tileIDs !! K)
  = default [] (m !! K) ++ covering te tileIDs K.
Proof.
  unfold covering.
  induction tileIDs as [|tileID tileIDs IH]; intros m; simpl.
  - by rewrite app_nil_r.
  - rewrite IH, push_coord_fold. by rewrite <- app_assoc.
Qed.

Lemma collect_fold_nonempty te K tileIDs :
  ∀ m : gmap string (list OverscaledTileID),
  (∀ l, m !! K = Some l → l ≠ []) →
  ∀ l, foldl (λ m tileID, foldl push_coord m (getTerrainCoords te tileID))
             m tileIDs !! K = Some l → l ≠ [].
Proof.
  induction tileIDs as [|tileID tileIDs IH]; intros m Hm; simpl; [done|].
  apply IH. by apply push_coord_fold_nonempty.
Qed.

Lemma collect_coords_lookup te tileIDs K :
  collect_coords te tileIDs !! K
  = match covering te tileIDs K with
    | [] => None
    | l => Some l
    end.
Proof.
  pose proof (collect_fold te K tileIDs ∅) as Hd.
  pose proof (collect_fold_nonempty te K tileIDs ∅) as Hn.
  rewrite lookup_empty in Hd. simpl in Hd.
  fold (collect_coords te tileIDs) in Hd, Hn.
  destruct (collect_coords te tileIDs !! K) as [l|] eqn:Hl; simpl in Hd.
  - rewrite <- Hd. specialize (Hn ltac:(by intros l'; rewrite lookup_empty) l eq_refl).
    by destruct l.
  - by rewrite <- Hd.
Qed.

Lemma fill_inv_fold_absent st (caches : list (string * SourceCache)) src :
  ∀ acc : gmap string (gmap string (list OverscaledTileID)),
  src ∉ caches.*1 →
  foldl (λ acc e,
           <[e.1 := collect_coords (terrain st) (getVisibleCoordinates e.2)]> acc)
        acc caches !! src = acc !! src.
Proof.
  induction caches as [|[s c] caches IH]; intros acc Hn; simpl; [done|].
  rewrite fmap_cons, not_elem_of_cons in Hn. destruct Hn as [Hne Hn].
  rewrite IH by done. simpl in *. by rewrite lookup_insert_ne.
Qed.

Lemma fill_inv_fold_present st (caches : list (string * SourceCache)) src c :
  ∀ acc : gmap string (gmap string (list OverscaledTileID)),
  NoDup caches.*1 → (src, c) ∈ caches →
  foldl (λ acc e,
           <[e.1 := collect_coords (terrain st) (getVisibleCoordinates e.2)]> acc)
        acc caches !! src
  = Some (collect_coords (terrain st) (getVisibleCoordinates c)).
Proof.
  induction caches as [|[s c'] caches IH]; intros acc Hnd He; simpl.
  - by apply elem_of_nil in He.
  - rewrite fmap_cons, NoDup_cons in Hnd. destruct Hnd as [Hs Hnd].
    apply elem_of_cons in He as [[= -> ->]|He].
    + rewrite fill_inv_fold_absent by done. simpl. by rewrite lookup_insert_eq.
    + by apply IH.
Qed.

(** X6: for a source cache of the style and a terrain tile key,
    [initialize] collects the visible tiles of that source that cover the
    terrain tile, one entry per covering and in the order in which the
    source lists them; a terrain tile that none covers gets no entry, and a
    source without a cache gets no table. *)
Theorem initialize_collects_covering (r r' : t) (src : string)
    (c : SourceCache) (K : string) :
  initialize r = Some r' →
  NoDup (sourceCaches (style (painter r))).*1 →
  (src, c) ∈ sourceCaches (style (painter r)) →
  (_coordsDescendingInv r' !! src ≫= (.!! K)
   = match covering (terrain (style (painter r))) (getVisibleCoordinates c) K
     with
     | [] => None
     | l => Some l
     end)
  ∧ (∀ other, other ∉ (sourceCaches (style (painter r))).*1 →
              _coordsDescendingInv r' !! other = None).
Proof.
  unfold initialize. intros Hi Hnd He.
  destruct (fill_coordsDescendingInvStr _ _) as [strs|] eqn:Hs; [|done].
  simpl in Hi. injection Hi as <-. simpl. unfold fill_coordsDescendingInv.
  split.
  - rewrite (fill_inv_fold_present _ _ _ _ _ Hnd He). simpl.
    apply collect_coords_lookup.
  - intros other Ho. rewrite fill_inv_fold_absent by done. apply lookup_empty.
Qed.

Lemma initialize_collects_covering_witness :
  ∃ r', initialize (constructor (Sample.painter_of Sample.places_style))
        = Some r'
    ∧ _coordsDescendingInv r' !! "v" ≫= (.!! "t1")
      = Some [Sample.tid "a"; Sample.tid "a"]
    ∧ _coordsDescendingInv r' !! "v" ≫= (.!! "t2") = None.
Proof.
  destruct (initialize (constructor (Sample.painter_of Sample.places_style)))
    as [r'|] eqn:Hi; [|by vm_compute in Hi].
  exists r'. split; [done|].
  assert (Hnd : NoDup (sourceCaches
                         (style (painter (constructor
                            (Sample.painter_of Sample.places_style))))).*1).
  { simpl. repeat constructor; set_solver. }
  assert (He : ("v", {| getVisibleCoordinates := [Sample.tid "a"; Sample.tid "a"] |})
               ∈ sourceCaches
                   (style (painter (constructor
                      (Sample.painter_of Sample.places_style))))).
  { simpl. set_solver. }
  split.
  - destruct (initialize_collects_covering _ _ _ _ "t1" Hi Hnd He) as [-> _].
    reflexivity.
  - destruct (initialize_collects_covering _ _ _ _ "t2" Hi Hnd He) as [-> _].
    reflexivity.
Defined.

End InitMore.

(** ** The order of strings and the string of contributing tiles *)

Module KeyFacts.
Import Rtt RttNotions.

Lemma ascii_compare_refl a : Ascii.compare a a = Eq.
Proof. unfold Ascii.compare. apply N.compare_refl. Qed.

Lemma ascii_compare_lt_trans a b c :
  Ascii.compare a b = Lt → Ascii.compare b c = Lt → Ascii.compare a c = Lt.
Proof.
  unfold Ascii.compare. rewrite !N.compare_lt_iff. apply N.lt_trans.
Qed.

Lemma string_compare_trans a : ∀ b c,
  String.compare a b ≠ Gt → String.compare b c ≠ Gt →
  String.compare a c ≠ Gt.
Proof.
  induction a as [|x a IH]; intros [|y b] [|z c]; simpl; try done.
  destruct (Ascii.compare x y) eqn:Hxy; [| |done].
  - apply Ascii.compare_eq_iff in Hxy as ->.
    destruct (Ascii.compare y z) eqn:Hyz; [|done|done].
    apply IH.
  - intros _. destruct (Ascii.compare y z) eqn:Hyz; [| |done].
    + apply Ascii.compare_eq_iff in Hyz as ->. by rewrite Hxy.
    + by rewrite (ascii_compare_lt_trans _ _ _ Hxy Hyz).
Qed.

#[local] Instance str_le_trans : Transitive str_le.
Proof.
  intros a b c. unfold str_le, String.leb. intros Hab Hbc.
  pose proof (string_compare_trans a b c) as Ht.
  destruct (String.compare a b); [| |done];
    (destruct (String.compare b c); [| |done]);
    (destruct (String.compare a c); [done|done|]);
    exfalso; by apply Ht.
Qed.

#[local] Instance str_le_antisym : AntiSymm (=) str_le.
Proof. intros a b. unfold str_le. apply String.leb_antisym. Qed.

Lemma sort_unique l l' : l ≡ₚ l' → sort l = sort l'.
Proof.
  intros Hp. apply (Sorted_unique str_le).
  - apply InitFacts.sort_sorted.
  - apply InitFacts.sort_sorted.
  - by rewrite !InitFacts.sort_permutation.
Qed.

(** X7: the string of contributing tiles does not depend on the order in
    which a source lists its visible tiles: two lists with the same keys,
    each as often, give the same string. *)
Theorem coords_str_order_independent (cs cs' : list OverscaledTileID) :
  key <$> cs ≡ₚ key <$> cs' → coords_str cs = coords_str cs'.
Proof. intros Hp. unfold coords_str. by rewrite (sort_unique _ _ Hp). Qed.

Lemma coords_str_order_independent_witness :
  coords_str [Sample.tid "b"; Sample.tid "a"; Sample.tid "c"]
  = coords_str [Sample.tid "c"; Sample.tid "b"; Sample.tid "a"].
Proof.
  apply coords_str_order_independent. simpl.
  change ["b"; "a"; "c"] with (["b"; "a"] ++ ["c"]).
  change ["c"; "b"; "a"] with (["c"] ++ ["b"; "a"]).
  apply Permutation_app_comm.
Defined.

End KeyFacts.

(** ** A whole frame of the compositor *)

Module FrameFacts.
Import Rtt RttNotions.

Lemma extends_refl r : extends r r.
Proof. split; [apply LayerFacts.grows_refl | done]. Qed.

Lemma extends_trans r1 r2 r3 : extends r1 r2 → extends r2 r3 → extends r1 r3.
Proof.
  intros [Hg1 Hp1] [Hg2 Hp2]. split; [by eapply LayerFacts.grows_trans | lia].
Qed.

Lemma getFBO_extends r : extends r (getFBO r).2.
Proof.
  split; [apply LayerFacts.getFBO_grows|].
  unfold getFBO. destruct (first_free _ _ _); simpl; [done|].
  rewrite !length_app. simpl. lia.
Qed.

Lemma emit_extends c r : extends r (emit c r).
Proof. split; [apply LayerFacts.emit_grows | done]. Qed.

Lemma freeFBO_extends i r : extends r (freeFBO i r).
Proof. split; [apply LayerFacts.freeFBO_grows | by destruct i]. Qed.

Lemma set_tiles_extends ts r : extends r (set_tiles ts r).
Proof. split; [apply LayerFacts.set_tiles_grows | done]. Qed.

Lemma drawTerrain_extends r : extends r (drawTerrain r).
Proof. split; [apply LayerFacts.drawTerrain_grows | done]. Qed.

Lemma extends_length r r' : extends r r' → length (rttFBOs r) ≤ length (rttFBOs r').
Proof. intros [Hg _]. apply Hg. Qed.

Lemma in_pool_mono n n' tile : n ≤ n' → in_pool n tile → in_pool n' tile.
Proof. intros Hn Hp k i Hk. specialize (Hp k i Hk). lia. Qed.

Lemma in_pool_extends r r' tile :
  extends r r' → in_pool (length (rttFBOs r)) tile →
  in_pool (length (rttFBOs r')) tile.
Proof. intros He. apply in_pool_mono. by apply extends_length. Qed.

Lemma in_pool_set stack i n tile :
  i < n → in_pool n tile → in_pool n (set_tile_fbo stack i tile).
Proof.
  intros Hi Hp k j. simpl.
  destruct (decide (stack = k)) as [->|Hne].
  - rewrite JsFacts.get_set_eq. by intros [= <-].
  - rewrite JsFacts.get_set_ne by done. apply Hp.
Qed.

Lemma draw_stack_pool fbo layers : ∀ r tile r' tile',
  foldl (draw_stack_layer fbo) (Some (r, tile)) layers = Some (r', tile') →
  rttFBOs r' = rttFBOs r ∧ rttTextures r' = rttTextures r
  ∧ Tile.rttFBOs tile' = Tile.rttFBOs tile.
Proof.
  induction layers as [|lid layers IH]; intros r tile r' tile'; cbn [foldl].
  - by intros [= <- <-].
  - destruct (draw_stack_layer fbo (Some (r, tile)) lid) as [[r1 tile1]|] eqn:Hd.
    2:{ by rewrite LayerFacts.draw_stack_None. }
    intros Hf. apply IH in Hf as (-> & -> & ->).
    unfold draw_stack_layer in Hd. simpl in Hd.
    destruct (_layers _ !! _) as [layer|]; [|done].
    simpl in Hd.
    destruct (Js.truthy_str (source layer)); simplify_option_eq; done.
Qed.

Lemma for_tiles_extends (f : t → Tile.t → option (t * Tile.t))
    (P Q : t → Tile.t → Prop) r tiles :
  (∀ r1 r2 tile, extends r1 r2 → P r1 tile → P r2 tile) →
  (∀ r1 r2 tile, extends r1 r2 → Q r1 tile → Q r2 tile) →
  (∀ r1 tile, extends r r1 → P r1 tile →
     ∃ r2 tile', f r1 tile = Some (r2, tile') ∧ extends r1 r2 ∧ Q r2 tile') →
  Forall (P r) tiles →
  ∃ r' tiles', for_tiles f r tiles = Some (r', tiles')
    ∧ extends r r' ∧ Forall (Q r') tiles' ∧ length tiles' = length tiles.
Proof.
  intros HP HQ Hf.
  assert (Hall : ∀ r1, extends r r1 → Forall (P r1) tiles →
    ∃ r' tiles', for_tiles f r1 tiles = Some (r', tiles')
      ∧ extends r1 r' ∧ Forall (Q r') tiles' ∧ length tiles' = length tiles).
  { induction tiles as [|tile tiles IH]; intros r1 He1 Hp1.
    - exists r1, []. split; [done|]. split; [apply extends_refl | done].
    - apply Forall_cons in Hp1 as [Hp Hps]. simpl.
      destruct (Hf r1 tile He1 Hp) as (r2 & tile' & -> & He2 & Hq).
      simpl. destruct (IH r2) as (r3 & tiles' & -> & He3 & Hqs & Hlen).
      { by eapply extends_trans. }
      { eapply Forall_impl; [exact Hps|]. intros x. by apply HP. }
      simpl. exists r3, (tile' :: tiles'). split; [done|].
      split; [by eapply extends_trans|]. split.
      + apply Forall_cons. split; [by eapply HQ | done].
      + simpl. by rewrite Hlen. }
  intros Hp. apply Hall; [apply extends_refl | done].
Qed.

Lemma drawable_same r r' lid :
  style (painter r') = style (painter r) →
  _coordsDescendingInv r' = _coordsDescendingInv r →
  _coordsDescendingInvStr r' = _coordsDescendingInvStr r →
  drawable r lid → drawable r' lid.
Proof. unfold drawable. intros -> -> ->. done. Qed.

Lemma drawable_extends r r' lid : extends r r' → drawable r lid → drawable r' lid.
Proof. intros [Hg _]. by apply LayerFacts.drawable_grows. Qed.

Lemma flush_tile_keeps stack layers r tile :
  Forall (drawable r) layers →
  in_pool (length (rttFBOs r)) tile →
  ∃ r' tile', flush_tile stack layers r tile = Some (r', tile')
    ∧ extends r r' ∧ in_pool (length (rttFBOs r')) tile'.
Proof.
  intros Hd Hp. unfold flush_tile.
  destruct (Js.truthy_num (Js.get (Tile.rttFBOs tile) stack)).
  { exists r, tile. split; [done|]. split; [apply extends_refl | done]. }
  pose proof (getFBO_extends r) as He.
  pose proof (PoolFacts.getFBO_in_range r) as Hr.
  destruct (getFBO r) as [i r1]. simpl in *.
  rewrite JsFacts.get_set_eq, LayerFacts.prepareFBO_in_range by done. simpl.
  destruct (LayerFacts.draw_stack_ok i layers (emit (Clear i) r1)
              (set_tile_fbo stack i tile))
    as (r2 & tile2 & E & Hg2 & Hid & Hfb).
  { eapply Forall_impl; [exact Hd|]. intros x Hx.
    eapply drawable_extends; [|exact Hx].
    eapply extends_trans; [exact He | apply emit_extends]. }
  exists r2, tile2. split; [done|].
  apply draw_stack_pool in E as (Ef & Et & _).
  split.
  - eapply extends_trans; [exact He|]. split; [|by rewrite Ef, Et].
    eapply LayerFacts.grows_trans; [apply LayerFacts.emit_grows | done].
  - rewrite Ef. simpl. intros k j. rewrite Hfb.
    apply in_pool_set; [done|]. eapply in_pool_extends; [exact He | done].
Qed.

Lemma hillshade_tile_keeps layer stack r tile :
  is_Some (_coordsDescendingInv r !! Js.prop_key (source layer)) →
  in_pool (length (rttFBOs r)) tile →
  ∃ r' tile', hillshade_tile layer stack r tile = Some (r', tile')
    ∧ extends r r' ∧ in_pool (length (rttFBOs r')) tile'.
Proof.
  intros [inv Hinv] Hp. unfold hillshade_tile.
  pose proof (freeFBO_extends (Js.get (Tile.rttFBOs tile) stack) r) as He0.
  set (r0 := freeFBO _ r) in *.
  pose proof (getFBO_extends r0) as He.
  pose proof (PoolFacts.getFBO_in_range r0) as Hr.
  destruct (getFBO r0) as [i r1]. simpl in *.
  rewrite JsFacts.get_set_eq, LayerFacts.prepareFBO_in_range by done. simpl.
  assert (Hi : _coordsDescendingInv r1 = _coordsDescendingInv r).
  { destruct He as [Hg _], He0 as [Hg0 _].
    destruct Hg as (_ & _ & -> & _), Hg0 as (_ & _ & -> & _). done. }
  rewrite Hi, Hinv. simpl.
  eexists _, _. split; [reflexivity|]. split.
  - eapply extends_trans; [exact He0|]. eapply extends_trans; [exact He|].
    eapply extends_trans; [apply emit_extends | apply emit_extends].
  - simpl. apply in_pool_set; [done|].
    eapply in_pool_extends; [exact He|]. eapply in_pool_extends; [exact He0|done].
Qed.

Lemma advances_intro r r' l :
  style (painter r') = style (painter r) →
  currentLayer (painter r') = currentLayer (painter r) →
  _coordsDescendingInv r' = _coordsDescendingInv r →
  _coordsDescendingInvStr r' = _coordsDescendingInvStr r →
  length (rttFBOs r) ≤ length (rttFBOs r') →
  length (rttTextures r') + length (rttFBOs r)
  = length (rttTextures r) + length (rttFBOs r') →
  context (painter r') = context (painter r) ++ l →
  advances r r'.
Proof. intros. repeat (split; [done|]). by exists l. Qed.

Lemma advances_refl r : advances r r.
Proof. apply (advances_intro r r []); try done. by rewrite app_nil_r. Qed.

Lemma advances_trans r1 r2 r3 :
  advances r1 r2 → advances r2 r3 → advances r1 r3.
Proof.
  intros (A1 & A2 & A3 & A4 & A5 & A6 & l1 & A7)
         (B1 & B2 & B3 & B4 & B5 & B6 & l2 & B7).
  apply (advances_intro r1 r3 (l1 ++ l2)); try congruence; try lia.
  rewrite B7, A7. by rewrite app_assoc.
Qed.

Lemma extends_advances r r' : extends r r' → advances r r'.
Proof.
  intros [(G1 & G2 & G3 & G4 & G5 & G6 & G7 & l & G8) Hp].
  by apply (advances_intro r r' l).
Qed.

Lemma snoc_cases {A : Type} (l : list A) : l = [] ∨ ∃ l' x, l = l' ++ [x].
Proof. induction l as [|x l _] using rev_ind; [by left | right; eauto]. Qed.

(** The flush of the newest stack, as [renderLayer] runs it. *)
Lemma flush_spec r :
  flush_ready r →
  Forall (in_pool (length (rttFBOs r))) (_renderableTiles r) →
  ∃ r',
    match length (_stacks r) with
    | 0 => Some r
    | S stack =>
        let layers := default [] (_stacks r !! stack) in
        '(r1, tiles) ← for_tiles (flush_tile stack layers) r
                                (_renderableTiles r);
        Some (set_tiles tiles r1)
    end = Some r'
    ∧ extends r r'
    ∧ Forall (in_pool (length (rttFBOs r'))) (_renderableTiles r')
    ∧ length (_renderableTiles r') = length (_renderableTiles r).
Proof.
  intros Hready Hp.
  destruct (snoc_cases (_stacks r)) as [Hnil|(ss & s & Hss)].
  { rewrite Hnil. simpl. exists r. split; [done|].
    split; [apply extends_refl | done]. }
  destruct (LayerFacts.last_stack ss s) as [Hlen Hlast].
  specialize (Hready ss s Hss).
  rewrite Hss, Hlen, Hlast. simpl.
  destruct (for_tiles_extends (flush_tile (length ss) s)
              (λ r tile, in_pool (length (rttFBOs r)) tile)
              (λ r tile, in_pool (length (rttFBOs r)) tile)
              r (_renderableTiles r))
    as (r1 & tiles & -> & He & Hall & Hl); [| | |done|].
  { intros r1 r2 tile. apply in_pool_extends. }
  { intros r1 r2 tile. apply in_pool_extends. }
  { intros r1 tile He1 Hp1. apply flush_tile_keeps; [|done].
    eapply Forall_impl; [exact Hready|]. intros x. by apply drawable_extends. }
  simpl. eexists. split; [reflexivity|]. split; [|done].
  eapply extends_trans; [exact He | apply set_tiles_extends].
Qed.

Lemma flush_ready_same r r' :
  style (painter r') = style (painter r) →
  _coordsDescendingInv r' = _coordsDescendingInv r →
  _coordsDescendingInvStr r' = _coordsDescendingInvStr r →
  _stacks r' = _stacks r →
  flush_ready r → flush_ready r'.
Proof.
  intros Hs Hi Hst Hk Hr ss s Hss. rewrite Hk in Hss.
  eapply Forall_impl; [exact (Hr ss s Hss)|].
  intros x. by apply drawable_same.
Qed.

Lemma flush_ready_extends r r' : extends r r' → flush_ready r → flush_ready r'.
Proof.
  intros [(G1 & G2 & G3 & G4 & G5 & _) _]. by apply flush_ready_same.
Qed.

Lemma not_rtt_hillshade ty :
  ty = hillshade → Js.truthy (_renderToTexture ty) = false.
Proof. by intros ->. Qed.

Lemma lookup_prev_Some prev :
  Js.truthy (lookup_prev prev) = true → is_Some prev.
Proof. destruct prev; [eauto|done]. Qed.

Lemma advances_set_prevType ty r : advances r (set_prevType ty r).
Proof. apply (advances_intro _ _ []); try done. simpl. by rewrite app_nil_r. Qed.

Lemma advances_set_stacks ss r : advances r (set_stacks ss r).
Proof. apply (advances_intro _ _ []); try done. simpl. by rewrite app_nil_r. Qed.

Lemma rtt_cond prev :
  negb (bool_decide (is_Some prev)) || negb (Js.truthy (lookup_prev prev))
  = negb (Js.truthy (lookup_prev prev)).
Proof.
  destruct prev as [ty|]; simpl; done.
Qed.

Lemma collect_spec (layer : StyleLayer) (r : t) (lid : string) :
  _order (style (painter r)) !! currentLayer (painter r) = Some lid →
  drawable r (Some lid) →
  (Js.truthy (lookup_prev (_prevType r)) = true →
   _stacks r ≠ [] ∧ flush_ready r) →
  ∃ ss s,
    push_last (_order (style (painter r)) !! currentLayer (painter r))
      (if negb (Js.truthy (lookup_prev (_prevType r)))
       then _stacks r ++ [[]] else _stacks r)
    = Some (ss ++ [s])
    ∧ mjoin (ss ++ [s]) = mjoin (_stacks r) ++ [Some lid]
    ∧ Forall (drawable r) s
    ∧ (Forall (λ s, s ≠ []) (_stacks r) → Forall (λ s, s ≠ []) (ss ++ [s])).
Proof.
  intros Hlid Hd Hprev. rewrite Hlid.
  destruct (Js.truthy (lookup_prev (_prevType r))) eqn:Hp; simpl.
  - destruct (Hprev eq_refl) as [Hne Hready].
    destruct (snoc_cases (_stacks r)) as [?|(ss & s & Hss)]; [done|].
    exists ss, (s ++ [Some lid]). rewrite Hss, LayerFacts.push_last_snoc.
    split; [done|]. split; [|split].
    + rewrite !join_app. simpl. by rewrite !app_nil_r, app_assoc.
    + apply Forall_app. split; [by eapply Hready|]. by apply Forall_singleton.
    + rewrite !Forall_app, !Forall_singleton.
      intros [Hs _]. split; [done|]. by destruct s.
  - exists (_stacks r), [Some lid].
    rewrite (LayerFacts.push_last_snoc (Some lid) (_stacks r) []).
    split; [done|]. split; [|split].
    + rewrite join_app. simpl. done.
    + by apply Forall_singleton.
    + intros Hs. rewrite Forall_app, Forall_singleton. done.
Qed.

Lemma renderLayer_spec (layer : StyleLayer) (r : t) (lid : string) :
  _order (style (painter r)) !! currentLayer (painter r) = Some lid →
  (Js.truthy (_renderToTexture (type layer)) = true → drawable r (Some lid)) →
  (Js.truthy (lookup_prev (_prevType r)) = true →
   _stacks r ≠ [] ∧ flush_ready r) →
  (type layer = hillshade →
   flush_ready r
   ∧ is_Some (_coordsDescendingInv r !! Js.prop_key (source layer))) →
  Forall (in_pool (length (rttFBOs r))) (_renderableTiles r) →
  ∃ b r', renderLayer layer r = Some (b, r')
    ∧ Js.truthy b = Js.truthy (_renderToTexture (type layer))
                    || bool_decide (type layer = hillshade)
    ∧ advances r r'
    ∧ mjoin (_stacks r')
      = mjoin (_stacks r)
        ++ (if Js.truthy (_renderToTexture (type layer))
               || bool_decide (type layer = hillshade)
            then [Some lid] else [])
    ∧ _prevType r'
      = (if Js.truthy (_renderToTexture (type layer))
            || bool_decide (type layer = hillshade)
            || Js.truthy (lookup_prev (_prevType r))
         then Some (type layer) else _prevType r)
    ∧ (Js.truthy (_renderToTexture (type layer)) = true →
       _stacks r' ≠ [] ∧ flush_ready r')
    ∧ (Js.truthy (_renderToTexture (type layer))
       || bool_decide (type layer = hillshade) = false →
       _stacks r' = _stacks r)
    ∧ Forall (in_pool (length (rttFBOs r'))) (_renderableTiles r')
    ∧ length (_renderableTiles r') = length (_renderableTiles r)
    ∧ (Forall (λ s, s ≠ []) (_stacks r) → Forall (λ s, s ≠ []) (_stacks r')).
Proof.
  intros Hlid Hdraw Hprev Hhill Hpool.
  unfold renderLayer. rewrite rtt_cond.
  destruct (Js.truthy (_renderToTexture (type layer))) eqn:Hrtt.
  - (* rendered to texture *)
    assert (Hnh : bool_decide (type layer = hillshade) = false).
    { apply bool_decide_eq_false_2. intros Hh.
      by rewrite (not_rtt_hillshade _ Hh) in Hrtt. }
    rewrite Hnh.
    destruct (collect_spec layer r lid Hlid (Hdraw eq_refl) Hprev)
      as (ss & s & Hpush & Hjoin & Hds & Hnonempty).
    set (c := negb (Js.truthy (lookup_prev (_prevType r)))) in *.
    set (r0 := if c then set_stacks (_stacks r ++ [[]]) r else r).
    assert (Hst0 : _stacks (set_prevType (Some (type layer)) r0)
                   = if c then _stacks r ++ [[]] else _stacks r)
      by (unfold r0; by destruct c).
    rewrite Hst0, Hpush. cbn [mbind option_bind].
    set (r1 := set_stacks (ss ++ [s]) (set_prevType (Some (type layer)) r0)).
    assert (Hadv : advances r r1).
    { apply (advances_intro r r1 []); unfold r1, r0; destruct c; simpl;
        try done; by rewrite app_nil_r. }
    assert (Hstk : _stacks r1 = ss ++ [s]) by done.
    assert (Hpt : _prevType r1 = Some (type layer)) by done.
    assert (Htiles : _renderableTiles r1 = _renderableTiles r)
      by (unfold r1, r0; by destruct c).
    assert (Hfb : rttFBOs r1 = rttFBOs r) by (unfold r1, r0; by destruct c).
    clearbody r1. clear r0 Hst0.
    assert (Hready : flush_ready r1).
    { intros ss' s' Hss'. rewrite Hstk in Hss'.
      apply app_inj_tail in Hss' as [_ <-].
      eapply Forall_impl; [exact Hds|]. intros x.
      destruct Hadv as (A1 & _ & A3 & A4 & _). by apply drawable_same. }
    assert (Hne : _stacks r1 ≠ []) by (rewrite Hstk; by destruct ss).
    destruct (bool_decide (currentLayer (painter r) + 1
                           = length (_order (style (painter r))))) eqn:Hlast;
      simpl.
    + (* the last layer: the stack is flushed at once *)
      rewrite Hpt. simpl. rewrite Hrtt. simpl.
      destruct (flush_spec (set_prevType (Some (type layer)) r1))
        as (r3 & E & He & Hall & Hl).
      { by apply (flush_ready_same r1). }
      { simpl. by rewrite Htiles, Hfb. }
      simpl in E. rewrite E. simpl.
      exists (_renderToTexture (type layer)), (drawTerrain r3).
      split; [done|]. split; [done|].
      assert (He4 : extends (set_prevType (Some (type layer)) r1) (drawTerrain r3)).
      { eapply extends_trans; [exact He | apply drawTerrain_extends]. }
      destruct (He4) as [(G1 & G2 & G3 & G4 & G5 & G6 & G7 & G8) Gp].
      split.
      { eapply advances_trans; [exact Hadv|].
        apply (advances_trans _ (set_prevType (Some (type layer)) r1));
          [apply advances_set_prevType | by apply extends_advances]. }
      split; [by rewrite G5; simpl; rewrite Hstk|]. split; [by rewrite G6|].
      split.
      { intros _. rewrite G5. simpl. split; [done|].
        apply (flush_ready_extends (set_prevType (Some (type layer)) r1));
          [done|]. by apply (flush_ready_same r1). }
      split; [done|]. split; [done|].
      split; [simpl; simpl in Hl; by rewrite Hl, Htiles|].
      rewrite G5. simpl. by rewrite Hstk.
    + exists (Some true), r1. split; [done|]. split; [done|].
      split; [done|]. split; [by rewrite Hstk|]. split; [done|].
      split; [done|]. split; [done|].
      split; [by rewrite Htiles, Hfb|]. split; [by rewrite Htiles|].
      by rewrite Hstk.
  - cbn [mbind option_bind andb]. rewrite Hlid, !orb_false_r. cbn [orb].
    destruct (bool_decide (type layer = hillshade)) eqn:Hh.
    + (* a hillshade layer *)
      apply bool_decide_eq_true_1 in Hh as Hty.
      destruct (Hhill Hty) as [Hready Hinv].
      rewrite orb_true_r.
      destruct (flush_spec (set_prevType (Some (type layer)) r))
        as (r3 & E & He & Hall & Hl); [by apply (flush_ready_same r)|done|].
      cbv zeta in E. rewrite E. cbn [mbind option_bind].
      set (r5 := set_stacks (_stacks (drawTerrain r3) ++ [[Some lid]])
                            (drawTerrain r3)).
      assert (He4 : extends (set_prevType (Some (type layer)) r)
                            (drawTerrain r3)).
      { eapply extends_trans; [exact He | apply drawTerrain_extends]. }
      assert (Hstk : _stacks r5 = _stacks r ++ [[Some lid]]).
      { destruct He4 as [(_ & _ & _ & _ & G5 & _) _]. simpl. simpl in G5.
        by rewrite G5. }
      assert (Hpt : _prevType r5 = Some (type layer)).
      { destruct He4 as [(_ & _ & _ & _ & _ & G6 & _) _]. simpl. simpl in G6.
        by rewrite G6. }
      assert (Hadv : advances r r5).
      { eapply advances_trans; [apply (advances_set_prevType (Some (type layer)))|].
        eapply advances_trans; [apply extends_advances, He4|].
        apply advances_set_stacks. }
      assert (Hlen : length (_stacks r5) - 1 = length (_stacks r)).
      { rewrite Hstk, length_app. simpl. lia. }
      assert (Htl : _renderableTiles r5 = _renderableTiles r3) by done.
      assert (Hfb : rttFBOs r5 = rttFBOs r3) by done.
      clearbody r5. rewrite Hlen, Htl.
      destruct (for_tiles_extends (hillshade_tile layer (length (_stacks r)))
                  (λ r tile, in_pool (length (rttFBOs r)) tile)
                  (λ r tile, in_pool (length (rttFBOs r)) tile)
                  r5 (_renderableTiles r3))
        as (r6 & tiles & -> & He6 & Hall6 & Hl6).
      { intros r1 r2 tile. apply in_pool_extends. }
      { intros r1 r2 tile. apply in_pool_extends. }
      { intros r1 tile He1 Hp1. apply hillshade_tile_keeps; [|done].
        destruct He1 as [(_ & _ & -> & _) _].
        destruct Hadv as (_ & _ & -> & _). done. }
      { by rewrite Hfb. }
      cbn [mbind option_bind].
      exists (Some true), (drawTerrain (set_tiles tiles r6)).
      split; [done|]. split; [done|].
      assert (He7 : extends r5 (drawTerrain (set_tiles tiles r6))).
      { eapply extends_trans; [exact He6|].
        eapply extends_trans; [apply set_tiles_extends | apply drawTerrain_extends]. }
      destruct (He7) as [(G1 & G2 & G3 & G4 & G5 & G6 & G7 & G8) Gp].
      split.
      { eapply advances_trans; [exact Hadv | by apply extends_advances]. }
      split.
      { rewrite G5, Hstk, join_app. simpl. done. }
      split; [by rewrite G6|]. split; [done|]. split; [done|].
      split; [done|].
      split; [simpl; rewrite Hl6; simpl in Hl; done|].
      rewrite G5, Hstk, Forall_app, Forall_singleton. done.
    + destruct (Js.truthy (lookup_prev (_prevType r))) eqn:Hp; cbn [orb].
      * (* the open stack is flushed *)
        destruct (Hprev eq_refl) as [Hne Hready].
        destruct (flush_spec (set_prevType (Some (type layer)) r))
          as (r3 & E & He & Hall & Hl); [by apply (flush_ready_same r)|done|].
        cbv zeta in E. rewrite E. cbn [mbind option_bind].
        exists (_renderToTexture (type layer)), (drawTerrain r3).
        split; [done|]. split; [done|].
        assert (He4 : extends (set_prevType (Some (type layer)) r)
                              (drawTerrain r3)).
        { eapply extends_trans; [exact He | apply drawTerrain_extends]. }
        destruct (He4) as [(G1 & G2 & G3 & G4 & G5 & G6 & G7 & G8) Gp].
        split.
        { eapply advances_trans;
            [apply (advances_set_prevType (Some (type layer)))
            | by apply extends_advances]. }
        split; [by rewrite G5, app_nil_r|]. split; [by rewrite G6|].
        split; [done|]. split; [by rewrite G5|]. split; [done|].
        split; [simpl; simpl in Hl; done|]. by rewrite G5.
      * exists (Some false), r. split; [done|]. split; [done|].
        split; [apply advances_refl|]. split; [by rewrite app_nil_r|].
        done.
Qed.

Lemma stacked_layer st lid layer :
  _layers st !! lid = Some layer →
  is_rtt st lid = Js.truthy (_renderToTexture (type layer))
  ∧ is_hillshade st lid = bool_decide (type layer = hillshade)
  ∧ stacked st lid
    = Js.truthy (_renderToTexture (type layer))
      || bool_decide (type layer = hillshade).
Proof. intros Hl. unfold stacked, is_rtt, is_hillshade. by rewrite Hl. Qed.

(** One turn of the painter's loop keeps the invariant. *)
Lemma render_step_inv st r0 i res r lid :
  well_formed st →
  (∀ lid layer, lid ∈ _order st → _layers st !! lid = Some layer →
     Js.truthy (_renderToTexture (type layer)) = true →
     drawable r0 (Some lid)) →
  (∀ lid layer, lid ∈ _order st → _layers st !! lid = Some layer →
     type layer = hillshade →
     is_Some (_coordsDescendingInv r0 !! Js.prop_key (source layer))) →
  style (painter r0) = st →
  loop_inv st r0 i res r → _order st !! i = Some lid →
  ∃ b r', render_step (Some (res, r)) i = Some (res ++ [b], r')
    ∧ loop_inv st r0 (S i) (res ++ [b]) r'.
Proof.
  intros [Hwf Hapart] Hdr Hhs Hst0
    (Ist & Iinv & Istr & Ijoin & Ine & Ires & Iprev & Ilast & Ipar & Ilen
     & Ipool & Itiles & Ictx) Hi.
  assert (Hin : lid ∈ _order st) by (by eapply list_elem_of_lookup_2).
  destruct (Hwf lid Hin) as (layer & Hl & _ & _).
  destruct (stacked_layer st lid layer Hl) as (Hisr & Hish & Hisk).
  set (ri := set_currentLayer i r).
  assert (Hsame : ∀ x, drawable r0 x → drawable ri x).
  { intros x. apply drawable_same; simpl; congruence. }
  assert (Hfr : flush_ready r → flush_ready ri).
  { apply flush_ready_same; done. }
  destruct (renderLayer_spec layer ri lid)
    as (b & r' & E & Hb & Hadv & Hjoin & Hprev & Hrtt & Hkeep & Hpool & Htl & Hne).
  { simpl. by rewrite Ist. }
  { intros Hr. apply Hsame. by eapply Hdr. }
  { intros Hp. destruct (Iprev Hp) as [? ?]. split; [done|by apply Hfr]. }
  { intros Hty. split; [|].
    - destruct Ilast as [?|(j & lj & Hj & Hlj & Hhj & Hno)]; [by apply Hfr|].
      destruct (Hapart j i lj lid Hj Hlj Hi Hhj) as (k & lk & Hk & Hlk & Hrk).
      { rewrite Hish. by apply bool_decide_eq_true_2. }
      by rewrite (Hno k lk Hk Hlk) in Hrk.
    - simpl. rewrite Iinv. by eapply Hhs. }
  { done. }
  exists b, r'. split.
  { apply LayerFacts.render_step_at with (lid := lid) (layer := layer);
      [by rewrite Ist | by rewrite Ist | done]. }
  destruct Hadv as (A1 & A2 & A3 & A4 & A5 & A6 & l & A7).
  simpl in A1, A3, A4, A5, A6, A7. simpl in Hjoin, Hprev, Hkeep, Htl, Hne.
  unfold loop_inv. rewrite (take_S_r _ _ _ Hi).
  split; [congruence|]. split; [congruence|]. split; [congruence|].
  split.
  { rewrite Hjoin, Ijoin, filter_app, fmap_app. f_equal.
    rewrite <- Hisk. destruct (stacked st lid) eqn:Hs.
    - by rewrite filter_cons_True.
    - rewrite filter_cons_False; [done|]. by rewrite Hs. }
  split; [by apply Hne|].
  split.
  { rewrite !fmap_app, Ires. simpl. by rewrite Hb, Hisk. }
  split.
  { rewrite Hprev. intros Hp.
    destruct (Js.truthy (_renderToTexture (type layer))) eqn:Hr;
      [by apply Hrtt|].
    simpl in Hp.
    destruct (bool_decide (type layer = hillshade)) eqn:Hh; simpl in Hp.
    { apply bool_decide_eq_true_1 in Hh. rewrite Hh in Hp. done. }
    destruct (Js.truthy (lookup_prev (_prevType r))) eqn:Hpp; simpl in Hp.
    { by rewrite Hr in Hp. }
    by rewrite Hpp in Hp. }
  split.
  { destruct (Js.truthy (_renderToTexture (type layer))) eqn:Hr.
    { left. by apply Hrtt. }
    destruct (bool_decide (type layer = hillshade)) eqn:Hh.
    { right. exists i, lid. split; [lia|]. split; [done|].
      split; [by rewrite Hish|]. intros k lk Hk. lia. }
    destruct Ilast as [Hready|(j & lj & Hj & Hlj & Hhj & Hno)].
    - left. apply (flush_ready_same r);
        [congruence|congruence|congruence|by apply Hkeep|done].
    - right. exists j, lj. split; [lia|]. split; [done|]. split; [done|].
      intros k lk Hk Hlk. destruct (decide (k = i)) as [->|Hki].
      + rewrite Hi in Hlk. injection Hlk as <-. by rewrite Hisr.
      + apply (Hno k lk); [lia|done]. }
  split; [lia|]. split; [lia|]. split; [done|]. split; [congruence|].
  destruct Ictx as [l0 Hl0]. exists (l0 ++ l). rewrite A7, Hl0.
  by rewrite app_assoc.
Qed.

Lemma render_steps_inv st r0 :
  well_formed st →
  (∀ lid layer, lid ∈ _order st → _layers st !! lid = Some layer →
     Js.truthy (_renderToTexture (type layer)) = true →
     drawable r0 (Some lid)) →
  (∀ lid layer, lid ∈ _order st → _layers st !! lid = Some layer →
     type layer = hillshade →
     is_Some (_coordsDescendingInv r0 !! Js.prop_key (source layer))) →
  style (painter r0) = st →
  ∀ k i res r,
    i + k = length (_order st) → loop_inv st r0 i res r →
    ∃ res' r', foldl render_step (Some (res, r)) (seq i k) = Some (res', r')
      ∧ loop_inv st r0 (length (_order st)) res' r'.
Proof.
  intros Hwf Hdr Hhs Hst0.
  induction k as [|k IH]; intros i res r Hik Hinv.
  - exists res, r. split; [done|]. by replace (length (_order st)) with i by lia.
  - cbn [seq foldl].
    destruct (lookup_lt_is_Some_2 (_order st) i) as [lid Hi]; [lia|].
    destruct (render_step_inv st r0 i res r lid Hwf Hdr Hhs Hst0 Hinv Hi)
      as (b & r' & -> & Hinv').
    apply IH; [lia|done].
Qed.

Lemma initialize_pool r r0 :
  initialize r = Some r0 →
  rttFBOs r0 = rttFBOs r ∧ rttTextures r0 = rttTextures r
  ∧ _renderableTiles r0
    = check_tile (terrain (style (painter r))) (_coordsDescendingInvStr r0)
      <$> getRenderableTiles (terrain (style (painter r))).
Proof.
  unfold initialize. intros Hi.
  destruct (fill_coordsDescendingInvStr _ _) as [strs|]; [|done].
  simpl in Hi. by injection Hi as <-.
Qed.

Lemma in_pool_check_tile n te strs tile :
  in_pool n tile → in_pool n (check_tile te strs tile).
Proof.
  intros Hp. rewrite InitMore.check_tile_cases. case_bool_decide; [|done].
  intros k i. unfold Js.get. simpl. by destruct k.
Qed.

(** A frame on a style the compositor can render, from a pool whose tiles
    hold framebuffers of the pool. *)
Lemma frame_general r :
  well_formed (style (painter r)) →
  length (rttTextures r) = length (rttFBOs r) →
  Forall (in_pool (length (rttFBOs r)))
         (getRenderableTiles (terrain (style (painter r)))) →
  ∃ r0 res r',
    initialize r = Some r0 ∧ renderLayers r0 = Some (res, r')
    ∧ rttFBOs r0 = rttFBOs r
    ∧ length (_renderableTiles r0)
      = length (getRenderableTiles (terrain (style (painter r))))
    ∧ context (painter r0) = context (painter r)
    ∧ loop_inv (style (painter r)) r0 (length (_order (style (painter r))))
               res r'.
Proof.
  intros Hwf Hpar Hpool. pose proof Hwf as [Hlayers _].
  destruct (InitFacts.initialize_ok r)
    as (r0 & Hi & Hp & Hf & Hs & Hpt & Hinv & Hstr & Hlen).
  { intros lid Hin. destruct (Hlayers lid Hin) as (layer & -> & _). eauto. }
  destruct (initialize_pool r r0 Hi) as (_ & Htx & Htiles).
  exists r0.
  assert (Hst0 : style (painter r0) = style (painter r)) by by rewrite Hp.
  assert (Hdr : ∀ lid layer,
            lid ∈ _order (style (painter r)) →
            _layers (style (painter r)) !! lid = Some layer →
            Js.truthy (_renderToTexture (type layer)) = true →
            drawable r0 (Some lid)).
  { intros lid layer Hin Hl Hr. exists layer. split; [by rewrite Hst0|].
    intros Hsrc. destruct (Hlayers lid Hin) as (layer' & Hl' & Hc & _).
    rewrite Hl in Hl'. injection Hl' as <-.
    split.
    + rewrite Hinv. apply InitFacts.fill_inv_lookup. by apply Hc.
    + rewrite Hstr. rewrite bool_decide_eq_true_2; [eauto|].
      by eapply InitFacts.rtt_source_elem. }
  assert (Hhs : ∀ lid layer,
            lid ∈ _order (style (painter r)) →
            _layers (style (painter r)) !! lid = Some layer →
            type layer = hillshade →
            is_Some (_coordsDescendingInv r0 !! Js.prop_key (source layer))).
  { intros lid layer Hin Hl Hty.
    destruct (Hlayers lid Hin) as (layer' & Hl' & _ & Hc).
    rewrite Hl in Hl'. injection Hl' as <-.
    rewrite Hinv. apply InitFacts.fill_inv_lookup. by apply Hc. }
  assert (Hinit : loop_inv (style (painter r)) r0 0 [] r0).
  { unfold loop_inv. rewrite Hs, Hpt. simpl. repeat split; try done.
    - left. intros ss s Hss. rewrite Hs in Hss. by destruct ss.
    - by rewrite Htx, Hf.
    - rewrite Htiles, Hf. apply Forall_fmap.
      eapply Forall_impl; [exact Hpool|]. intros tile.
      apply in_pool_check_tile.
    - exists []. by rewrite app_nil_r. }
  destruct (render_steps_inv (style (painter r)) r0 Hwf Hdr Hhs Hst0
              (length (_order (style (painter r)))) 0 [] r0 eq_refl Hinit)
    as (res & r' & E & Hfinal).
  exists res, r'. split; [done|]. split.
  { unfold renderLayers. by rewrite Hst0. }
  split; [done|]. split; [done|]. split; [by rewrite Hp|]. done.
Qed.

Lemma relief_style_well_formed : well_formed Sample.relief_style.
Proof.
  split.
  - intros lid Hin.
    assert (Hc : lid = "sky" ∨ lid = "land" ∨ lid = "labels" ∨ lid = "water"
                 ∨ lid = "relief").
    { simpl in Hin. set_solver. }
    destruct Hc as [-> | [-> | [-> | [-> | ->]]]];
      eexists; (split; [reflexivity|]); simpl;
      (split; intros); first [done | by left | by right; left].
  - intros i j li lj Hij Hi Hj Hhi Hhj.
    assert (Hfour : ∀ k lk, _order Sample.relief_style !! k = Some lk →
                            is_hillshade Sample.relief_style lk = true → k = 4).
    { intros k lk Hk Hh.
      do 5 (destruct k as [|k]; [simpl in Hk; injection Hk as <-;
                                 by vm_compute in Hh|]).
      done. }
    rewrite (Hfour i li Hi Hhi), (Hfour j lj Hj Hhj) in Hij. lia.
Qed.

(** X8: on a style the compositor can render, a frame ([initialize]
    followed by [renderLayer] for each layer in draw order) does not throw,
    and [renderLayer] answers truthy exactly for the layers whose type is
    background, fill, line, raster or hillshade: the painter draws the
    others itself. *)
Theorem frame_returns_which_layers_it_took (r : t) :
  well_formed (style (painter r)) →
  length (rttTextures r) = length (rttFBOs r) →
  Forall (in_pool (length (rttFBOs r)))
         (getRenderableTiles (terrain (style (painter r)))) →
  ∃ res r', frame r = Some (res, r')
    ∧ Js.truthy <$> res
      = stacked (style (painter r)) <$> _order (style (painter r))
    ∧ length (_renderableTiles r')
      = length (getRenderableTiles (terrain (style (painter r))))
    ∧ ∃ l, context (painter r') = context (painter r) ++ l.
Proof.
  intros Hwf Hpar Hpool.
  destruct (frame_general r Hwf Hpar Hpool)
    as (r0 & res & r' & Hi & Hr & _ & Hlen & Hctx & Hinv).
  destruct Hinv as (_ & _ & _ & _ & _ & Hres & _ & _ & _ & _ & _ & Htl & Hc).
  exists res, r'. unfold frame. rewrite Hi. simpl. split; [done|].
  rewrite firstn_all in Hres. split; [done|].
  split; [congruence|]. by rewrite <- Hctx.
Qed.

Lemma frame_returns_which_layers_it_took_witness :
  ∃ res r', frame (constructor (Sample.painter_of Sample.relief_style))
            = Some (res, r')
    ∧ Js.truthy <$> res = [true; true; false; true; true]
    ∧ length (_renderableTiles r') = 2.
Proof.
  destruct (frame_returns_which_layers_it_took
              (constructor (Sample.painter_of Sample.relief_style)))
    as (res & r' & Hf & Hres & Hlen & _).
  - apply relief_style_well_formed.
  - reflexivity.
  - simpl. repeat constructor; intros k i; unfold Js.get; by destruct k.
  - exists res, r'. split; [exact Hf|]. split; [|exact Hlen].
    rewrite Hres. vm_compute. reflexivity.
Defined.

(** X9: after a frame on such a style the stacks, read one after the
    other, are the layers of type background, fill, line, raster or
    hillshade in draw order: each of them is in exactly one stack, no other
    layer is in any, and no stack is empty. *)
Theorem stacks_partition_the_layers (r : t) :
  well_formed (style (painter r)) →
  length (rttTextures r) = length (rttFBOs r) →
  Forall (in_pool (length (rttFBOs r)))
         (getRenderableTiles (terrain (style (painter r)))) →
  ∃ res r', frame r = Some (res, r')
    ∧ mjoin (_stacks r')
      = Some <$> filter (λ lid, stacked (style (painter r)) lid = true)
                        (_order (style (painter r)))
    ∧ Forall (λ s, s ≠ []) (_stacks r').
Proof.
  intros Hwf Hpar Hpool.
  destruct (frame_general r Hwf Hpar Hpool)
    as (r0 & res & r' & Hi & Hr & _ & _ & _ & Hinv).
  destruct Hinv as (_ & _ & _ & Hjoin & Hne & _).
  exists res, r'. unfold frame. rewrite Hi. simpl. split; [done|].
  rewrite firstn_all in Hjoin. done.
Qed.

Lemma stacks_partition_the_layers_witness :
  ∃ res r', frame (constructor (Sample.painter_of Sample.relief_style))
            = Some (res, r')
    ∧ mjoin (_stacks r')
      = [Some "sky"; Some "land"; Some "water"; Some "relief"].
Proof.
  destruct (stacks_partition_the_layers
              (constructor (Sample.painter_of Sample.relief_style)))
    as (res & r' & Hf & Hjoin & _).
  - apply relief_style_well_formed.
  - reflexivity.
  - simpl. repeat constructor; intros k i; unfold Js.get; by destruct k.
  - exists res, r'. split; [exact Hf|]. rewrite Hjoin. vm_compute.
    reflexivity.
Defined.

(** X10: a frame keeps the pool consistent: the textures stay parallel to
    the framebuffers, the pool never shrinks, and every framebuffer index a
    tile holds afterwards, for whatever stack, names a framebuffer and a
    texture of the pool, so that [getTexture] finds a texture for it. *)
Theorem frame_keeps_the_pool_consistent (r : t) :
  well_formed (style (painter r)) →
  length (rttTextures r) = length (rttFBOs r) →
  Forall (in_pool (length (rttFBOs r)))
         (getRenderableTiles (terrain (style (painter r)))) →
  ∃ res r', frame r = Some (res, r')
    ∧ pool_ok r'
    ∧ length (rttFBOs r) ≤ length (rttFBOs r')
    ∧ ∀ tile k i, tile ∈ _renderableTiles r' →
                  Js.get (Tile.rttFBOs tile) k = Some i →
                  is_Some (rttFBOs r' !! i) ∧ is_Some (rttTextures r' !! i).
Proof.
  intros Hwf Hpar Hpool.
  destruct (frame_general r Hwf Hpar Hpool)
    as (r0 & res & r' & Hi & Hr & Hfb & _ & _ & Hinv).
  destruct Hinv as (_ & _ & _ & _ & _ & _ & _ & _ & Hp & Hl & Hall & _).
  exists res, r'. unfold frame. rewrite Hi. simpl. split; [done|].
  split; [done|]. split; [by rewrite <- Hfb|].
  intros tile k i Hin Hk.
  rewrite Forall_forall in Hall. specialize (Hall tile Hin k i Hk).
  split; apply lookup_lt_is_Some_2; lia.
Qed.

Lemma frame_keeps_the_pool_consistent_witness :
  ∃ res r', frame (constructor (Sample.painter_of Sample.relief_style))
            = Some (res, r')
    ∧ pool_ok r'.
Proof.
  destruct (frame_keeps_the_pool_consistent
              (constructor (Sample.painter_of Sample.relief_style)))
    as (res & r' & Hf & Hok & _).
  - apply relief_style_well_formed.
  - reflexivity.
  - simpl. repeat constructor; intros k i; unfold Js.get; by destruct k.
  - exists res, r'. split; [exact Hf | exact Hok].
Defined.

End FrameFacts.

(** ** The flush of a stack *)

Module FlushFacts.
Import Rtt RttNotions.

Lemma for_tiles_cached stack layers r tiles :
  Forall (λ tile, ∃ i, Js.get (Tile.rttFBOs tile) stack = Some (S i)) tiles →
  for_tiles (flush_tile stack layers) r tiles = Some (r, tiles).
Proof.
  induction 1 as [|tile tiles [i Hi] _ IH]; simpl; [done|].
  rewrite (LayerFacts.flush_tile_skips stack layers r tile i Hi). simpl.
  by rewrite IH.
Qed.

(** X11: when a layer the painter draws itself follows layers rendered to
    texture, and every tile holds a framebuffer other than number 0 for the
    open stack, the flush renders nothing anew: no framebuffer is acquired
    or cleared, no layer is drawn, the pool and the tiles are as before and
    the terrain is drawn once from the framebuffers the tiles hold. *)
Theorem cached_stack_is_not_redrawn (layer : StyleLayer) (r : t)
    (ss : list (Js.array string)) (s : Js.array string) :
  Js.truthy (_renderToTexture (type layer)) = false →
  type layer ≠ hillshade →
  Js.truthy (lookup_prev (_prevType r)) = true →
  _stacks r = ss ++ [s] →
  Forall (λ tile, ∃ i, Js.get (Tile.rttFBOs tile) (length ss) = Some (S i))
         (_renderableTiles r) →
  ∃ r', renderLayer layer r = Some (None, r')
    ∧ context (painter r')
      = context (painter r)
        ++ [DrawTerrain ((λ tile, Js.get (Tile.rttFBOs tile) (length ss))
                           <$> _renderableTiles r)]
    ∧ rttFBOs r' = rttFBOs r ∧ rttTextures r' = rttTextures r
    ∧ rttUsedFBOs r' = rttUsedFBOs r
    ∧ _renderableTiles r' = _renderableTiles r
    ∧ _stacks r' = _stacks r.
Proof.
  intros Hrtt Hh Hprev Hss Hall. unfold renderLayer.
  rewrite Hrtt. simpl. rewrite Hprev. simpl.
  destruct (LayerFacts.last_stack ss s) as [Hlen Hlast].
  rewrite Hss, Hlen, Hlast. simpl.
  rewrite for_tiles_cached by done. simpl.
  rewrite bool_decide_eq_false_2 by done.
  eexists. split.
  { f_equal. f_equal. by destruct (type layer). }
  unfold drawTerrain. simpl. rewrite Hss, Hlen. done.
Qed.

Lemma cached_stack_is_not_redrawn_witness :
  ∃ r0 r1 r',
    initialize HillshadeSample.warm = Some r0
    ∧ renderLayer Sample.land r0 = Some (Some true, r1)
    ∧ renderLayer Sample.places (set_currentLayer 1 r1) = Some (None, r')
    ∧ context (painter r') = [DrawTerrain [Some 1]]
    ∧ length (rttFBOs r') = 2.
Proof.
  pose (r0 := default HillshadeSample.warm (initialize HillshadeSample.warm)).
  pose (r1 := default r0 (snd <$> renderLayer Sample.land r0)).
  assert (Ht : _renderableTiles (set_currentLayer 1 r1)
               = [HillshadeSample.cached]) by (vm_compute; reflexivity).
  destruct (cached_stack_is_not_redrawn Sample.places
              (set_currentLayer 1 r1) [] [Some "land"])
    as (r' & Hr & Hc & Hf & _).
  - reflexivity.
  - done.
  - vm_compute. reflexivity.
  - vm_compute. reflexivity.
  - rewrite Ht. repeat constructor. by exists 0.
  - exists r0, r1, r'.
    split; [vm_compute; reflexivity|]. split; [vm_compute; reflexivity|].
    split; [exact Hr|]. split.
    + rewrite Hc, Ht. vm_compute. reflexivity.
    + rewrite Hf. vm_compute. reflexivity.
Defined.

Lemma draw_stack_layer_frame fbo r tile lid r' tile' :
  draw_stack_layer fbo (Some (r, tile)) lid = Some (r', tile') →
  style (painter r') = style (painter r)
  ∧ _coordsDescendingInvStr r' = _coordsDescendingInvStr r
  ∧ Tile.tileID tile' = Tile.tileID tile
  ∧ ∃ layer, _layers (style (painter r)) !! Js.prop_key lid = Some layer
      ∧ ∀ src,
          Tile.rttCoords tile' !! src
          = if Js.truthy_str (source layer)
               && bool_decide (src = Js.prop_key (source layer))
            then _coordsDescendingInvStr r !! src
                 ≫= (.!! key (Tile.tileID tile))
            else Tile.rttCoords tile !! src.
Proof.
  unfold draw_stack_layer. simpl.
  destruct (_layers _ !! _) as [layer|]; [|done]. simpl.
  destruct (Js.truthy_str (source layer)) eqn:Hsrc.
  - destruct (_coordsDescendingInv r !! _) as [inv|]; [|done]. simpl.
    destruct (_coordsDescendingInvStr r !! Js.prop_key (source layer))
      as [strs|] eqn:Hstrs; [|done].
    simpl. intros [= <- <-]. repeat split; try done.
    exists layer. split; [done|]. intros src. rewrite Hsrc. simpl.
    case_bool_decide as Hs.
    + subst src. rewrite Hstrs. simpl.
      destruct (strs !! key (Tile.tileID tile)) eqn:Hk; simpl.
      * by rewrite lookup_insert_eq.
      * by rewrite lookup_delete_eq.
    + destruct (strs !! key (Tile.tileID tile)); simpl.
      * by rewrite lookup_insert_ne.
      * by rewrite lookup_delete_ne.
  - simpl. intros [= <- <-]. repeat split; try done.
    exists layer. split; [done|]. intros src. by rewrite Hsrc.
Qed.

Lemma draw_stack_records fbo layers : ∀ r tile r' tile' src,
  foldl (draw_stack_layer fbo) (Some (r, tile)) layers = Some (r', tile') →
  Tile.tileID tile' = Tile.tileID tile
  ∧ (Tile.rttCoords tile !! src
     = _coordsDescendingInvStr r !! src ≫= (.!! key (Tile.tileID tile))
     ∨ (∃ lid layer, lid ∈ layers
          ∧ _layers (style (painter r)) !! Js.prop_key lid = Some layer
          ∧ Js.truthy_str (source layer) = true
          ∧ src = Js.prop_key (source layer)) →
     Tile.rttCoords tile' !! src
     = _coordsDescendingInvStr r !! src ≫= (.!! key (Tile.tileID tile))).
Proof.
  induction layers as [|lid layers IH]; intros r tile r' tile' src;
    cbn [foldl].
  - intros [= <- <-]. split; [done|]. intros [?|(l & ? & Hin & _)]; [done|].
    by apply elem_of_nil in Hin.
  - destruct (draw_stack_layer fbo (Some (r, tile)) lid)
      as [[r1 tile1]|] eqn:Hd.
    2:{ by rewrite LayerFacts.draw_stack_None. }
    apply draw_stack_layer_frame in Hd
      as (Hst & Hstr & Hid & layer & Hl & Hco).
    intros Hf. destruct (IH _ _ _ _ src Hf) as [Hid' Hrec].
    split; [congruence|].
    rewrite Hstr, Hid, Hst in Hrec. intros Hcase. apply Hrec.
    rewrite (Hco src).
    destruct Hcase as [Hold|(l & layer' & Hin & Hl' & Hsrc & ->)].
    + left. by case_match.
    + apply elem_of_cons in Hin as [->|Hin].
      * rewrite Hl in Hl'. injection Hl' as <-. left.
        rewrite Hsrc. simpl. by rewrite bool_decide_eq_true_2.
      * right. by exists l, layer'.
Qed.

(** X12: when the flush renders a tile for a stack, it leaves on the
    tile, for every layer of the stack that has a source, the string of
    contributing tiles that was current for that source; at the next
    [initialize] with unchanged strings the tile is therefore dropped for
    that source only if the terrain asks for a re-render. *)
Theorem flush_records_the_strings (stack : nat) (layers : Js.array string)
    (r r' : t) (tile tile' : Tile.t) (lid : option string)
    (layer : StyleLayer) :
  Js.truthy_num (Js.get (Tile.rttFBOs tile) stack) = false →
  flush_tile stack layers r tile = Some (r', tile') →
  lid ∈ layers →
  _layers (style (painter r)) !! Js.prop_key lid = Some layer →
  Js.truthy_str (source layer) = true →
  Tile.rttCoords tile' !! Js.prop_key (source layer)
  = _coordsDescendingInvStr r !! Js.prop_key (source layer)
    ≫= (.!! key (Tile.tileID tile))
  ∧ ∀ m, _coordsDescendingInvStr r !! Js.prop_key (source layer) = Some m →
         stale (terrain (style (painter r))) tile'
               (Js.prop_key (source layer)) m
         = needsRerender (terrain (style (painter r)))
                         (Js.prop_key (source layer)) (Tile.tileID tile').
Proof.
  intros Hslot Hflush Hin Hl Hsrc. unfold flush_tile in Hflush.
  rewrite Hslot in Hflush.
  pose proof (LayerFacts.getFBO_grows r) as Hg.
  destruct (getFBO r) as [i r1]. simpl in Hflush, Hg.
  destruct (prepareFBO _ r1) as [r2|] eqn:Hp; [|done]. simpl in Hflush.
  assert (Hg2 : grows r1 r2).
  { unfold prepareFBO in Hp. simplify_option_eq. apply LayerFacts.emit_grows. }
  pose proof (LayerFacts.grows_trans _ _ _ Hg Hg2)
    as (G1 & _ & _ & G4 & _).
  destruct (draw_stack_records i layers r2 (set_tile_fbo stack i tile) r'
              tile' (Js.prop_key (source layer)) Hflush) as [Hid Hrec].
  simpl in Hid, Hrec. rewrite G1, G4 in Hrec.
  assert (Hc : Tile.rttCoords tile' !! Js.prop_key (source layer)
               = _coordsDescendingInvStr r !! Js.prop_key (source layer)
                 ≫= (.!! key (Tile.tileID tile))).
  { apply Hrec. right. by exists lid, layer. }
  split; [done|]. intros m Hm. unfold stale.
  rewrite Hc, Hm, Hid. simpl.
  rewrite bool_decide_eq_true_2 by done. simpl.
  by rewrite andb_false_r.
Qed.

Lemma flush_records_the_strings_witness :
  ∃ r0 r' tile',
    initialize (constructor (Sample.painter_of Sample.land_style)) = Some r0
    ∧ flush_tile 0 [Some "land"] r0 (Sample.new_tile "t1") = Some (r', tile')
    ∧ Tile.rttCoords tile' !! "v" = Some "a,b".
Proof.
  pose (r0 := default (constructor (Sample.painter_of Sample.land_style))
                (initialize (constructor (Sample.painter_of Sample.land_style)))).
  destruct (flush_tile 0 [Some "land"] r0 (Sample.new_tile "t1"))
    as [[r' tile']|] eqn:Hf; [|by vm_compute in Hf].
  destruct (flush_records_the_strings 0 [Some "land"] r0 r'
              (Sample.new_tile "t1") tile' (Some "land") Sample.land)
    as [Hc _].
  - reflexivity.
  - exact Hf.
  - by left.
  - vm_compute. reflexivity.
  - reflexivity.
  - exists r0, r', tile'. split; [vm_compute; reflexivity|].
    split; [exact Hf|]. etransitivity; [exact Hc|]. vm_compute. reflexivity.
Defined.

(** X13: a hillshade layer that comes after a hillshade layer, with no
    layer rendered to texture between them, flushes the stack of the first
    one; for a tile whose framebuffer for that stack is number 0 or
    missing this draws the first hillshade layer again and then reads the
    strings of its source, which [initialize] collects only for sources of
    layers rendered to texture: [renderLayer] throws. *)
Theorem hillshade_after_hillshade_throws (layer hl : StyleLayer) (r : t)
    (ss : list (Js.array string)) (h : string) (tile : Tile.t)
    (rest : list Tile.t) :
  type layer = hillshade →
  _stacks r = ss ++ [[Some h]] →
  _renderableTiles r = tile :: rest →
  Js.truthy_num (Js.get (Tile.rttFBOs tile) (length ss)) = false →
  _layers (style (painter r)) !! h = Some hl →
  Js.truthy_str (source hl) = true →
  _coordsDescendingInvStr r !! Js.prop_key (source hl) = None →
  renderLayer layer r = None.
Proof.
  intros Hty Hss Htiles Hslot Hl Hsrc Hnone. unfold renderLayer.
  rewrite Hty. simpl. rewrite orb_true_r. simpl.
  destruct (LayerFacts.last_stack ss [Some h]) as [Hlen Hlast].
  assert (Hft : flush_tile (length ss) [Some h]
                  (set_prevType (Some hillshade) r) tile = None).
  { unfold flush_tile. rewrite Hslot.
    pose proof (LayerFacts.getFBO_grows (set_prevType (Some hillshade) r))
      as (G1 & _ & _ & G4 & _).
    pose proof (PoolFacts.getFBO_in_range (set_prevType (Some hillshade) r))
      as Hr.
    destruct (getFBO (set_prevType (Some hillshade) r)) as [i r1].
    simpl in G1, G4, Hr.
    simpl. rewrite JsFacts.get_set_eq.
    rewrite LayerFacts.prepareFBO_in_range by done. simpl.
    rewrite G1, Hl. simpl. rewrite Hsrc.
    destruct (_coordsDescendingInv r1 !! _); [|done]. simpl.
    rewrite G4, Hnone. done. }
  rewrite Hss, Hlen, Hlast, Htiles. cbn [for_tiles default Datatypes.id].
  rewrite Hft. done.
Qed.

Lemma hillshade_after_hillshade_throws_witness :
  ∃ r0 r1,
    initialize (constructor (Sample.painter_of HillshadeSample.two_reliefs))
    = Some r0
    ∧ renderLayer Sample.relief r0 = Some (Some true, r1)
    ∧ renderLayer HillshadeSample.shade (set_currentLayer 1 r1) = None
    ∧ frame (constructor (Sample.painter_of HillshadeSample.two_reliefs))
      = None.
Proof.
  pose (r := constructor (Sample.painter_of HillshadeSample.two_reliefs)).
  pose (r0 := default r (initialize r)).
  pose (r1 := default r0 (snd <$> renderLayer Sample.relief r0)).
  assert (Ht : _renderableTiles (set_currentLayer 1 r1)
               = [{| Tile.tileID := Sample.tid "t1"; Tile.rttFBOs := [Some 0];
                     Tile.rttCoords := ∅ |}]) by (vm_compute; reflexivity).
  assert (Hthrow : renderLayer HillshadeSample.shade (set_currentLayer 1 r1)
                   = None).
  { eapply (hillshade_after_hillshade_throws HillshadeSample.shade
              Sample.relief (set_currentLayer 1 r1) [] "relief").
    - reflexivity.
    - vm_compute. reflexivity.
    - exact Ht.
    - reflexivity.
    - vm_compute. reflexivity.
    - reflexivity.
    - vm_compute. reflexivity. }
  exists r0, r1. split; [vm_compute; reflexivity|].
  split; [vm_compute; reflexivity|]. split; [exact Hthrow|].
  vm_compute. reflexivity.
Defined.

Lemma flush_tile_assigns stack layers r tile :
  Forall (drawable r) layers →
  in_pool (length (rttFBOs r)) tile →
  ∃ r' tile', flush_tile stack layers r tile = Some (r', tile')
    ∧ extends r r'
    ∧ in_pool (length (rttFBOs r')) tile'
    ∧ is_Some (Js.get (Tile.rttFBOs tile') stack).
Proof.
  intros Hd Hp.
  destruct (FrameFacts.flush_tile_keeps stack layers r tile Hd Hp)
    as (r' & tile' & Hf & He & Hp').
  exists r', tile'. split; [done|]. split; [done|]. split; [done|].
  unfold flush_tile in Hf.
  destruct (Js.truthy_num (Js.get (Tile.rttFBOs tile) stack)) eqn:Hs.
  - injection Hf as <- <-. by destruct (Js.get (Tile.rttFBOs tile) stack).
  - destruct (getFBO r) as [i r1]. simpl in Hf.
    destruct (prepareFBO _ r1) as [r2|]; [|done]. simpl in Hf.
    apply FrameFacts.draw_stack_pool in Hf as (_ & _ & ->). simpl.
    rewrite JsFacts.get_set_eq. eauto.
Qed.

(** X14: when a layer the painter draws itself follows layers rendered to
    texture, the terrain is drawn after the flush with a framebuffer of the
    pool for every tile: [getTexture] then finds a texture for each of
    them. *)
Theorem flushed_tiles_have_textures (layer : StyleLayer) (r : t)
    (ss : list (Js.array string)) (s : Js.array string) :
  Js.truthy (_renderToTexture (type layer)) = false →
  type layer ≠ hillshade →
  Js.truthy (lookup_prev (_prevType r)) = true →
  _stacks r = ss ++ [s] → Forall (drawable r) s →
  length (rttTextures r) = length (rttFBOs r) →
  Forall (in_pool (length (rttFBOs r))) (_renderableTiles r) →
  ∃ r' l,
    renderLayer layer r = Some (None, r')
    ∧ context (painter r')
      = context (painter r) ++ l
        ++ [DrawTerrain ((λ tile, Js.get (Tile.rttFBOs tile) (length ss))
                           <$> _renderableTiles r')]
    ∧ length (_renderableTiles r') = length (_renderableTiles r)
    ∧ Forall (λ tile, is_Some (getTexture tile r')) (_renderableTiles r').
Proof.
  intros Hrtt Hh Hprev Hss Hd Hpar Hpool. unfold renderLayer.
  rewrite Hrtt. simpl. rewrite Hprev. simpl.
  destruct (LayerFacts.last_stack ss s) as [Hlen Hlast].
  rewrite Hss, Hlen, Hlast. simpl.
  destruct (FrameFacts.for_tiles_extends (flush_tile (length ss) s)
              (λ r tile, in_pool (length (rttFBOs r)) tile)
              (λ r tile, in_pool (length (rttFBOs r)) tile
                         ∧ is_Some (Js.get (Tile.rttFBOs tile) (length ss)))
              (set_prevType (Some (type layer)) r) (_renderableTiles r))
    as (r1 & tiles & -> & He & Hall & Hl); [| | |done|].
  { intros r1 r2 tile. apply FrameFacts.in_pool_extends. }
  { intros r1 r2 tile He [Hp Hs]. split; [|done].
    by eapply FrameFacts.in_pool_extends. }
  { intros r1 tile He1 Hp1. apply flush_tile_assigns; [|done].
    eapply Forall_impl; [exact Hd|]. intros x Hx.
    eapply FrameFacts.drawable_extends; [exact He1|].
    destruct Hx as (l & ? & ?). by exists l. }
  simpl. rewrite bool_decide_eq_false_2 by done.
  destruct He as [(G1 & G2 & G3 & G4 & G5 & G6 & G7 & l & G8) Gp].
  simpl in G5, G7, G8, Gp.
  eexists _, l. split.
  { f_equal. f_equal. by destruct (type layer). }
  simpl. rewrite G5, Hss, Hlen, G8, <- app_assoc.
  split; [done|]. split; [done|].
  eapply Forall_impl; [exact Hall|]. intros tile [Hp [i Hi]].
  unfold getTexture. simpl. rewrite G5, Hss, Hlen, Hi. simpl.
  apply lookup_lt_is_Some_2. specialize (Hp _ _ Hi). lia.
Qed.

Lemma flushed_tiles_have_textures_witness :
  ∃ r0 r1 r' l,
    initialize (constructor (Sample.painter_of Sample.places_style)) = Some r0
    ∧ renderLayer Sample.land r0 = Some (Some true, r1)
    ∧ renderLayer Sample.places (set_currentLayer 1 r1) = Some (None, r')
    ∧ context (painter r') = l ++ [DrawTerrain [Some 0]]
    ∧ Forall (λ tile, is_Some (getTexture tile r')) (_renderableTiles r').
Proof.
  pose (r := constructor (Sample.painter_of Sample.places_style)).
  pose (r0 := default r (initialize r)).
  pose (r1 := default r0 (snd <$> renderLayer Sample.land r0)).
  assert (Ht : _renderableTiles (set_currentLayer 1 r1)
               = [Sample.new_tile "t1"]) by (vm_compute; reflexivity).
  destruct (flushed_tiles_have_textures Sample.places
              (set_currentLayer 1 r1) [] [Some "land"])
    as (r' & l & Hr & Hc & Hl & Hall).
  - reflexivity.
  - done.
  - vm_compute. reflexivity.
  - vm_compute. reflexivity.
  - apply Forall_singleton. exists Sample.land.
    split; [vm_compute; reflexivity|]. intros _.
    split; vm_compute; eauto.
  - vm_compute. reflexivity.
  - rewrite Ht. apply Forall_singleton. intros k i. unfold Js.get.
    by destruct k.
  - exists r0, r1, r', l.
    split; [vm_compute; reflexivity|]. split; [vm_compute; reflexivity|].
    split; [exact Hr|]. split; [|exact Hall].
    destruct (_renderableTiles r') as [|tile [|? ?]] eqn:Htl;
      [by rewrite Ht in Hl|clear Hl|by rewrite Ht in Hl].
    apply Forall_singleton in Hall.
    assert (Hctx : context (painter (set_currentLayer 1 r1)) = [])
      by (vm_compute; reflexivity).
    rewrite Hc, Hctx. cbn [app fmap list_fmap length].
    assert (Hz : Js.get (Tile.rttFBOs tile) 0 = Some 0).
    { assert (Hq : Some (None, r')
                   = renderLayer Sample.places (set_currentLayer 1 r1))
        by done.
      vm_compute in Hq. injection Hq as ->. vm_compute in Htl.
      injection Htl as <-. reflexivity. }
    rewrite Hz. reflexivity.
Defined.

(** X2: a hillshade layer that is met while no stack has been opened in
    the frame still draws the terrain before its own pass: there is nothing
    to flush, [getTexture] has no texture for any tile, and the terrain is
    drawn with none. The layer then gets a stack of its own and is drawn
    into a framebuffer of the pool for every tile. *)
Theorem hillshade_before_any_stack_draws_bare_terrain (layer : StyleLayer)
    (r : t) :
  type layer = hillshade → _stacks r = [] →
  is_Some (_coordsDescendingInv r !! Js.prop_key (source layer)) →
  Forall (λ tile, getTexture tile r = None) (_renderableTiles r)
  ∧ ∃ r' l,
      renderLayer layer r = Some (Some true, r')
      ∧ context (painter r')
        = context (painter r)
          ++ DrawTerrain ((λ _, None) <$> _renderableTiles r) :: l
      ∧ _stacks r'
        = [[_order (style (painter r)) !! currentLayer (painter r)]]
      ∧ Forall (drawn_into (id layer) 0 r') (_renderableTiles r').
Proof.
  intros Hty Hst Hinv. split.
  { apply Forall_forall. intros tile _. unfold getTexture. by rewrite Hst. }
  unfold renderLayer. rewrite Hty. simpl. rewrite orb_true_r. simpl.
  rewrite Hst. simpl.
  set (r4 := drawTerrain (set_prevType (Some hillshade) r)).
  assert (Hc4 : context (painter r4)
                = context (painter r)
                  ++ [DrawTerrain ((λ _, None) <$> _renderableTiles r)]).
  { unfold r4, drawTerrain. simpl. by rewrite Hst. }
  set (r5 := set_stacks _ r4).
  destruct (LayerFacts.for_tiles_ok (hillshade_tile layer 0)
              (drawn_into (id layer) 0) r5 (_renderableTiles r))
    as (r6 & tiles & E & Hg & Hall & Hl).
  { intros r1 r2 tile. apply LayerFacts.drawn_into_grows. }
  { intros r1 tile Hg1. apply LayerFacts.hillshade_tile_ok.
    destruct Hg1 as (_ & _ & -> & _). exact Hinv. }
  rewrite Hst. cbn [app length Nat.sub].
  rewrite E. simpl.
  destruct Hg as (_ & _ & _ & _ & G5 & _ & _ & l & G8).
  eexists _, _. split; [reflexivity|]. simpl. split.
  { rewrite G8. change (context (painter r5)) with (context (painter r4)).
    rewrite Hc4, <- !app_assoc. reflexivity. }
  split.
  { rewrite G5. unfold r5, r4. simpl. by rewrite Hst. }
  eapply Forall_impl; [exact Hall|]. intros tile.
  apply LayerFacts.drawn_into_grows.
  eapply LayerFacts.grows_trans;
    [apply LayerFacts.set_tiles_grows | apply LayerFacts.drawTerrain_grows].
Qed.

Lemma hillshade_before_any_stack_draws_bare_terrain_witness :
  ∃ r0 r' l,
    initialize (constructor (Sample.painter_of HillshadeSample.two_reliefs))
    = Some r0
    ∧ renderLayer Sample.relief r0 = Some (Some true, r')
    ∧ context (painter r') = DrawTerrain [None] :: l.
Proof.
  pose (r := constructor (Sample.painter_of HillshadeSample.two_reliefs)).
  pose (r0 := default r (initialize r)).
  destruct (hillshade_before_any_stack_draws_bare_terrain Sample.relief r0)
    as [_ (r' & l & Hr & Hc & _)].
  - reflexivity.
  - vm_compute. reflexivity.
  - vm_compute. eauto.
  - exists r0, r', l. split; [vm_compute; reflexivity|].
    split; [exact Hr|]. rewrite Hc. vm_compute. reflexivity.
Defined.

End FlushFacts.

(** ** More on the render loop *)

Module LoopMore.
Import MapLoop LoopNotions.

Lemma kept_trace m m' : kept m m' → trace m' = trace m.
Proof. intros (_ & _ & _ & _ & _ & _ & _ & _ & _ & H). done. Qed.

Lemma run_marks_trace ks m : trace (run_marks ks m) = trace m.
Proof. apply kept_trace, LoopFacts.run_marks_kept. Qed.

Lemma style_stage_trace env m :
  trace (style_stage env m).1
  = trace m ++ opt (bool_decide (is_Some (style m))
                    && Js.truthy (_styleDirty m)) Style_update.
Proof.
  unfold style_stage.
  destruct (bool_decide (is_Some (style m)) && Js.truthy (_styleDirty m));
    simpl; [|by rewrite app_nil_r].
  destruct (negb _ || negb _); simpl; by rewrite run_marks_trace.
Qed.

Lemma run_marks_loaded ks m : _loaded (run_marks ks m) = _loaded m.
Proof.
  by destruct (LoopFacts.run_marks_kept ks m) as (_ & _ & _ & _ & -> & _).
Qed.

Lemma sources_stage_trace env m :
  trace (sources_stage env m)
  = trace m ++ opt (bool_decide (is_Some (style m))
                    && Js.truthy (_sourcesDirty m)) Update_sources.
Proof.
  unfold sources_stage.
  destruct (bool_decide (is_Some (style m)) && Js.truthy (_sourcesDirty m));
    simpl; [|by rewrite app_nil_r].
  by rewrite run_marks_trace.
Qed.

Lemma draw_and_notify_trace env cf m :
  trace (draw_and_notify env cf m)
  = trace m ++ [Draw; Fire Ev_render]
    ++ opt (loaded env (fire Ev_render (on_render env) (observe Draw m))
            && negb (Js.truthy (_loaded m))) (Fire Ev_load).
Proof.
  unfold draw_and_notify.
  set (m1 := fire Ev_render (on_render env) (observe Draw m)).
  assert (H1 : trace m1 = trace m ++ [Draw; Fire Ev_render]).
  { unfold m1. rewrite LoopFacts.fire_trace. simpl. by rewrite <- app_assoc. }
  assert (Hl : _loaded m1 = _loaded m).
  { unfold m1, fire. by rewrite run_marks_loaded. }
  rewrite Hl.
  destruct (loaded env m1 && negb (Js.truthy (_loaded m))); simpl.
  - assert (Ht : trace (fire Ev_load (on_load env) (set__loaded (Some true) m1))
                 = trace m ++ [Draw; Fire Ev_render; Fire Ev_load]).
    { rewrite LoopFacts.fire_trace. simpl. rewrite H1.
      by rewrite <- app_assoc. }
    cbn [opt app]. case_match; simpl; exact Ht.
  - cbn [opt app]. case_match; simpl; exact H1.
Qed.



Lemma count_app o m m' l :
  trace m' = trace m ++ l →
  count o m' = count o m + length (filter (λ x, x = o) l).
Proof. intros E. unfold count. by rewrite E, filter_app, length_app. Qed.



(** X16: a frame that is still pending when the style is taken away
    ([setStyle(null)]) throws when the host runs it: [_render] gets past
    the task queue and the two guarded stages and then reads
    [this.style.terrain]. Nothing is drawn, no event is fired and no frame
    is requested any more. *)
Theorem pending_frame_after_style_removal_throws (env : Frame) (m : t)
    (h : nat) :
  wf m → _frame m = Some h →
  queue (_renderTaskQueue m) = [] → Js.truthy (_removed m) = false →
  ∃ m', frame_callback env (take_request h (_updateStyle None m)) = Threw m'
    ∧ tick env (_updateStyle None m) = m'
    ∧ trace m' = trace m ++ [Enter_render]
    ∧ _frame m' = None ∧ requests (browser m') = [].
Proof.
  intros Hwf Hf Hq Hrem.
  assert (Hwf0 : wf (_updateStyle None m)) by (by eapply LoopFacts.wf_same).
  rewrite (LoopFacts.tick_wf env _ Hwf0). simpl. rewrite Hf.
  unfold frame_callback, _render, TaskQueue_run. simpl. rewrite Hq. simpl.
  rewrite Hrem. unfold style_stage, sources_stage. simpl.
  eexists. split; [reflexivity|]. split; [reflexivity|]. simpl.
  split; [done|]. split; [done|].
  unfold wf in Hwf. rewrite Hwf, Hf.
  by rewrite filter_cons_False by (intros Hne; by apply Hne).
Qed.

Lemma pending_frame_after_style_removal_throws_witness :
  ∃ m', tick LoopSample.still
          (_updateStyle None (triggerRepaint LoopSample.styled)) = m'
    ∧ trace m' = [Enter_render] ∧ requests (browser m') = [].
Proof.
  destruct (pending_frame_after_style_removal_throws LoopSample.still
              (triggerRepaint LoopSample.styled) 0)
    as (m' & _ & Ht & Htr & _ & Hreq); [reflexivity..|].
  exists m'. split; [exact Ht|]. split; [exact Htr | exact Hreq].
Defined.

Lemma loads_once_same m m' :
  _loaded m' = _loaded m →
  count (Fire Ev_load) m' = count (Fire Ev_load) m →
  loads_once m → loads_once m'.
Proof. unfold loads_once. by intros -> ->. Qed.

Lemma loads_once_appends (A : obs → Prop) m m' :
  (∀ o, A o → o ≠ Fire Ev_load) → _loaded m' = _loaded m →
  appends A m m' → loads_once m → loads_once m'.
Proof.
  intros HA Hl Ha. apply loads_once_same; [done|].
  apply LoopFacts.count_appends. eapply LoopFacts.appends_weaken; [|exact Ha].
  done.
Qed.

Lemma cancel_frame_loaded m : _loaded (cancel_frame m) = _loaded m.
Proof. unfold cancel_frame. by case_match. Qed.

Lemma triggerRepaint_loaded m : _loaded (triggerRepaint m) = _loaded m.
Proof.
  by destruct (LoopFacts.triggerRepaint_kept m) as (_ & _ & _ & _ & -> & _).
Qed.

Lemma _update_loaded u m : _loaded (_update u m) = _loaded m.
Proof.
  by destruct (LoopFacts._update_kept u m) as (_ & _ & _ & _ & -> & _).
Qed.

Lemma run_call_loaded c m : _loaded (state_of (run_call c m)) = _loaded m.
Proof.
  destruct c as [u| |s| |cb|i|v|]; cbn [run_call state_of].
  - apply _update_loaded.
  - apply triggerRepaint_loaded.
  - unfold _updateStyle. by case_match.
  - unfold remove. case_match; simpl; by rewrite cancel_frame_loaded.
  - change (_loaded (_update None m) = _loaded m). apply _update_loaded.
  - done.
  - unfold set_repaint. case_match; [|done].
    by rewrite triggerRepaint_loaded.
  - change (_loaded (cancel_frame m) = _loaded m). apply cancel_frame_loaded.
Qed.

Lemma loads_once_run_call c : preserves loads_once (run_call c).
Proof.
  intros m. apply (loads_once_appends is_admin).
  - by intros o [-> | ->].
  - apply run_call_loaded.
  - apply LoopFacts.run_call_appends.
Qed.

Lemma loads_once_draw_and_notify env cf m :
  loads_once m → loads_once (draw_and_notify env cf m).
Proof.
  intros [Hle Hz].
  pose proof (draw_and_notify_trace env cf m) as Ht.
  assert (Hl : _loaded (draw_and_notify env cf m)
               = if loaded env (fire Ev_render (on_render env) (observe Draw m))
                    && negb (Js.truthy (_loaded m))
                 then Some true else _loaded m).
  { unfold draw_and_notify.
    set (m1 := fire Ev_render (on_render env) (observe Draw m)).
    assert (Hl1 : _loaded m1 = _loaded m)
      by (unfold m1, fire; by rewrite run_marks_loaded).
    rewrite Hl1.
    destruct (loaded env m1 && negb (Js.truthy (_loaded m))); simpl.
    - case_match; simpl; unfold fire; by rewrite run_marks_loaded.
    - by case_match. }
  unfold loads_once. rewrite Hl, (count_app _ _ _ _ Ht).
  rewrite !filter_app, !length_app.
  rewrite filter_cons_False by done. rewrite filter_cons_False by done.
  destruct (loaded env _ && negb (Js.truthy (_loaded m))) eqn:Hc; simpl.
  - apply andb_true_iff in Hc as [_ Hc]. apply negb_true_iff in Hc.
    rewrite (Hz Hc). split; [lia|done].
  - split; [lia|]. intros Hn. rewrite (Hz Hn). lia.
Qed.

Lemma loads_once_finish env : preserves loads_once (finish env).
Proof.
  intros m H. apply (loads_once_appends (λ o, o = Fire Ev_idle) m); [| |
    by apply LoopFacts.finish_appends | done].
  - by intros o ->.
  - unfold finish.
    destruct (Js.truthy (somethingDirty m) || Js.truthy (_repaint m));
      [|destruct (isMoving env m) as [mv|];
        [destruct (negb mv && loaded env m)|done]];
      simpl;
      (match goal with
       | |- _loaded (if ?c then _ else _) = _ => destruct c
       end);
      simpl; unfold fire;
      by rewrite ?triggerRepaint_loaded, ?run_marks_loaded.
Qed.

Lemma loads_once__render env : preserves loads_once (_render env).
Proof.
  unfold _render.
  apply (LoopFacts.preserves_and_then loads_once
           (λ m, TaskQueue_run (observe Enter_render m))).
  - intros m H. unfold TaskQueue_run.
    apply LoopFacts.preserves_run_tasks; [apply loads_once_run_call|].
    apply (loads_once_appends (λ o, o = Enter_render) m); [| |
      by apply (LoopFacts.appends_observe _ Enter_render m) | done];
      [by intros o -> | done].
  - intros m H. case_match; [done|].
    pose proof (style_stage_trace env m) as T2.
    assert (L2 : _loaded (style_stage env m).1 = _loaded m).
    { unfold style_stage. case_match; [|done]. simpl.
      destruct (negb _ || negb _); simpl; by rewrite run_marks_loaded. }
    destruct (style_stage env m) as [m2 cf]. simpl in T2, L2.
    assert (H2 : loads_once m2).
    { apply (loads_once_appends (λ o, o = Style_update) m); [| exact L2| |done].
      - by intros o ->.
      - eexists. split; [exact T2|]. unfold opt. case_match; by repeat constructor. }
    pose proof (sources_stage_trace env m2) as T3.
    assert (L3 : _loaded (sources_stage env m2) = _loaded m2).
    { unfold sources_stage. case_match; [|done]. by rewrite run_marks_loaded. }
    assert (H3 : loads_once (sources_stage env m2)).
    { apply (loads_once_appends (λ o, o = Update_sources) m2);
        [| exact L3| |done].
      - by intros o ->.
      - eexists. split; [exact T3|]. unfold opt. case_match; by repeat constructor. }
    case_match; [|done].
    unfold draw_stage. repeat case_match; try done.
    apply loads_once_finish, loads_once_draw_and_notify.
    by eapply loads_once_same; [..|exact H3].
Qed.

Lemma loads_once_run_frames env hs : ∀ m,
  loads_once m → loads_once (run_frames hs env m).
Proof.
  induction hs as [|h hs IH]; intros m H; simpl; [done|].
  case_match; [|by apply IH]. apply IH.
  unfold frame_callback. apply loads_once__render.
  by eapply loads_once_same; [..|exact H].
Qed.

Lemma loads_once_step e m : loads_once m → loads_once (step m e).
Proof.
  intros H. destruct e; simpl.
  - by apply loads_once_run_call.
  - by apply loads_once_run_frames.
  - unfold redraw. case_match; [|done]. apply loads_once__render.
    eapply loads_once_same; [apply cancel_frame_loaded| |exact H].
    unfold count. by rewrite LoopFacts.cancel_frame_trace.
Qed.

(** X17: whatever is done to a map after its construction (calls from
    outside, display refreshes, redraws, in any order), the load event is
    fired at most once, and it is not fired before [_loaded] is set. *)
Theorem load_fires_at_most_once (es : list turn) :
  loads_once (run es constructed).
Proof.
  assert (H : ∀ es m, loads_once m → loads_once (run es m)).
  { clear es. induction es as [|e es IH]; intros m Hm; [done|].
    simpl. by apply IH, loads_once_step. }
  apply H. split; [vm_compute; lia | done].
Qed.






(** X20: when the WebGL context is lost the map cancels its pending frame
    and reports the loss; no frame is outstanding afterwards, and display
    refreshes neither render nor change anything until something asks for a
    frame again. *)
Theorem context_loss_stops_rendering (m : t) (envs : list Frame) :
  wf m →
  _frame (_contextLost m) = None
  ∧ requests (browser (_contextLost m)) = []
  ∧ trace (_contextLost m) = trace m ++ [Fire Ev_webglcontextlost]
  ∧ run (On_tick <$> envs) (_contextLost m) = _contextLost m.
Proof.
  intros Hwf.
  pose proof (LoopFacts.wf_cancel_frame m Hwf) as Hwf'.
  pose proof (LoopFacts.cancel_frame_None m) as Hn.
  assert (Hr : requests (browser (_contextLost m)) = []).
  { unfold _contextLost. simpl. unfold wf in Hwf'. by rewrite Hwf', Hn. }
  split; [done|]. split; [done|]. split.
  - unfold _contextLost. simpl. by rewrite LoopFacts.cancel_frame_trace.
  - by apply LoopFacts.ticks_without_request.
Qed.

Lemma context_loss_stops_rendering_witness :
  requests (browser (_contextLost (triggerRepaint LoopSample.styled))) = []
  ∧ count Enter_render
      (run [On_tick LoopSample.still; On_tick LoopSample.still]
           (_contextLost (triggerRepaint LoopSample.styled))) = 0.
Proof.
  destruct (context_loss_stops_rendering (triggerRepaint LoopSample.styled)
              [LoopSample.still; LoopSample.still])
    as (_ & Hr & _ & Ht); [reflexivity|].
  split; [exact Hr|].
  etransitivity; [apply (f_equal (count Enter_render)); exact Ht|].
  reflexivity.
Defined.



End LoopMore.

(** ** Controls *)

Module ControlFacts.
Import Controls.











Lemma call_onRemove_all cs : ∀ m,
  Forall (λ c, onRemove c = true) cs →
  call_onRemove cs m
  = Returned {| _controls := _controls m;
                _controlPositions := _controlPositions m;
                log := log m ++ (Called_onRemove <$> cs) |}.
Proof.
  induction cs as [|c cs IH]; intros m Hall; simpl.
  - rewrite app_nil_r. by destruct m.
  - apply Forall_cons in Hall as [-> Hall]. rewrite IH by done. simpl.
    by rewrite <- app_assoc.
Qed.

Lemma call_onRemove_stops before c after : ∀ m,
  Forall (λ x, onRemove x = true) before → onRemove c = false →
  call_onRemove (before ++ c :: after) m
  = Threw {| _controls := _controls m;
             _controlPositions := _controlPositions m;
             log := log m ++ (Called_onRemove <$> before) |}.
Proof.
  induction before as [|x before IH]; intros m Hall Hc; simpl.
  - rewrite Hc, app_nil_r. by destruct m.
  - apply Forall_cons in Hall as [-> Hall]. rewrite IH by done. simpl.
    by rewrite <- app_assoc.
Qed.

(** X24: [remove()] calls [onRemove] of the controls in the order in
    which they were added and then forgets them. [addControl] asks a
    control for [onAdd] only, so a control without [onRemove] can be added;
    [removeControl] refuses it and leaves it registered, and [remove()]
    throws when it reaches it, after the controls before it have been
    told, with all controls still registered. *)
Theorem remove_calls_onRemove_until_it_is_missing (m : t) :
  (Forall (λ c, onRemove c = true) (_controls m) →
   ∃ m', remove_controls m = Returned m'
     ∧ _controls m' = []
     ∧ log m' = log m ++ (Called_onRemove <$> _controls m))
  ∧ (∀ c before after el position,
       onRemove c = false → onAdd c = Some el →
       is_Some (_controlPositions m !! position) →
       (∃ m1, addControl (Some c) (Some position) m = Returned m1
          ∧ hasControl (Some c) m1 = true
          ∧ hasControl (Some c) (removeControl (Some c) m1) = true)
       ∧ (_controls m = before ++ c :: after →
          Forall (λ x, onRemove x = true) before →
          ∃ m', remove_controls m = Threw m'
            ∧ _controls m' = _controls m
            ∧ log m' = log m ++ (Called_onRemove <$> before))).
Proof.
  split.
  - intros Hall. unfold remove_controls.
    rewrite (call_onRemove_all _ m Hall). by eexists.
  - intros c before after el position Hr Ha [ch Hp]. split.
    + unfold addControl. simpl. rewrite Ha. simpl.
      unfold place. simpl. rewrite Hp. simpl.
      eexists. split; [reflexivity|]. simpl.
      unfold removeControl. rewrite Hr. simpl.
      rewrite bool_decide_eq_true_2; [done|]. set_solver.
    + intros Hcs Hall. unfold remove_controls.
      rewrite Hcs, (call_onRemove_stops before c after m Hall Hr).
      eexists. split; [reflexivity|]. by rewrite Hcs.
Qed.

Lemma remove_calls_onRemove_until_it_is_missing_witness :
  ∃ m1 m', add_all [zoom; sticky; scale] "top-left" constructed = Returned m1
    ∧ remove_controls m1 = Threw m'
    ∧ log m' = log m1 ++ [Called_onRemove zoom]
    ∧ _controls m' = [zoom; sticky; scale].
Proof.
  pose (m1 := state_of (add_all [zoom; sticky; scale] "top-left" constructed)).
  destruct (remove_calls_onRemove_until_it_is_missing m1) as [_ H].
  destruct (H sticky [zoom] [scale] 14 "top-left" eq_refl eq_refl)
    as [_ (m' & Hr & Hc & Hl)]; [by eexists|reflexivity|by repeat constructor|].
  exists m1, m'. split; [reflexivity|]. split; [exact Hr|].
  split; [exact Hl|]. rewrite Hc. reflexivity.
Defined.

End ControlFacts.

(** ** Listeners delegated to a style layer *)

Module DelegateFacts.
Import Delegated.






Lemma dispatch_without_layer s e :
  match e with Mousemove ex _ => ex = false | Mouseout => True end →
  enter_in s = false → leave_in s = false →
  dispatch s e = s.
Proof.
  intros He Hi Hl. destruct s as [ei li cs]. simpl in Hi, Hl. subst.
  destruct e as [ex found|]; simpl in He; subst; unfold dispatch; simpl;
    by rewrite app_nil_r.
Qed.

(** X26: a listener delegated to a layer that the style does not have is
    never called: whatever the pointer does and whatever is found at the
    point, neither [mouseenter] nor [mouseleave] is reported while the
    layer is missing, and [mouseenter] is reported with the features found
    at the first movement after the layer has appeared. *)
Theorem missing_layer_is_never_entered (es : list pointer)
    (found : list nat) :
  Forall (λ e, match e with
               | Mousemove ex _ => ex = false
               | Mouseout => True
               end) es →
  run es registered = registered
  ∧ (found ≠ [] →
     calls (run (es ++ [Mousemove true found]) registered) = [Entered found]).
Proof.
  intros Hall.
  assert (Hrun : run es registered = registered).
  { induction Hall as [|e es He _ IH]; [done|]. simpl.
    by rewrite (dispatch_without_layer registered e He). }
  split; [done|]. intros Hf. unfold run in *.
  rewrite foldl_app, Hrun. simpl. unfold dispatch. simpl.
  rewrite bool_decide_eq_false_2; [done|]. by destruct found.
Qed.

Lemma missing_layer_is_never_entered_witness :
  calls (run [Mousemove false [7]; Mouseout; Mousemove false [7; 8];
              Mousemove true [7]] registered) = [Entered [7]].
Proof.
  refine (proj2 (missing_layer_is_never_entered
                   [Mousemove false [7]; Mouseout; Mousemove false [7; 8]]
                   [7] _) _); [by repeat constructor | done].
Defined.

End DelegateFacts.

(** ** Registering delegated listeners *)

Module ListenerFacts.
Import Listeners.

Lemma take_first_snoc layerId fn ls dl :
  take_first layerId fn ls = None →
  layer dl = layerId → listener dl = fn →
  take_first layerId fn (ls ++ [dl]) = Some (dl, ls).
Proof.
  intros Hn Hl Hf. induction ls as [|x ls IH]; simpl in *.
  - by rewrite bool_decide_eq_true_2.
  - case_bool_decide; [done|].
    destruct (take_first layerId fn ls) as [[? ?]|]; [done|].
    by rewrite IH.
Qed.

Lemma created_listener type layerId fn m :
  layer (_createDelegatedListener type layerId fn m).1 = layerId
  ∧ listener (_createDelegatedListener type layerId fn m).1 = fn
  ∧ _delegatedListeners (_createDelegatedListener type layerId fn m).2
    = _delegatedListeners m
  ∧ calls (_createDelegatedListener type layerId fn m).2 = calls m.
Proof. done. Qed.

(** X27: [off] with a layer takes back what [on] with the same type,
    layer and listener has done, when the listener was not registered for
    them before: it hands to [Evented.off] exactly the delegates that [on]
    handed to [Evented.on], and the map keeps the registrations it kept
    before, for this type and for every other. A listener added with
    [once] is not kept, so [off] does nothing for it. *)
Theorem off_takes_back_on_but_not_once (type layerId : string) (fn : nat)
    (m : t) :
  take_first layerId fn (kept_for type m) = None →
  calls (on type layerId fn m)
  = calls m ++ ((λ ef, Super_on ef.1 ef.2)
                  <$> delegates (_createDelegatedListener type layerId fn m).1)
  ∧ calls (off type layerId fn (on type layerId fn m))
    = calls (on type layerId fn m)
      ++ ((λ ef, Super_off ef.1 ef.2)
            <$> delegates (_createDelegatedListener type layerId fn m).1)
  ∧ (∀ other, kept_for other (off type layerId fn (on type layerId fn m))
              = kept_for other m)
  ∧ calls (once type layerId fn m)
    = calls m ++ ((λ ef, Super_once ef.1 ef.2)
                    <$> delegates (_createDelegatedListener type layerId fn m).1)
  ∧ off type layerId fn (once type layerId fn m) = once type layerId fn m.
Proof.
  intros Hnone.
  destruct (created_listener type layerId fn m) as (Hl & Hf & Hd & Hc).
  unfold on, once.
  destruct (_createDelegatedListener type layerId fn m) as [dl m0] eqn:Hcr.
  simpl in Hl, Hf, Hd, Hc. cbn [fst].
  split; [by rewrite <- Hc|].
  assert (Hk : kept_for type m
               = default [] (default ∅ (_delegatedListeners m0) !! type)).
  { unfold kept_for. rewrite Hd. by destruct (_delegatedListeners m). }
  split; [|split; [|split]].
  - unfold off. simpl. rewrite lookup_insert_eq.
    rewrite <- Hk, (take_first_snoc _ _ _ dl Hnone Hl Hf). done.
  - intros other. unfold off. simpl. rewrite lookup_insert_eq.
    rewrite <- Hk, (take_first_snoc _ _ _ dl Hnone Hl Hf).
    unfold kept_for. simpl. rewrite insert_insert_eq.
    destruct (decide (other = type)) as [->|Hne].
    + rewrite lookup_insert_eq. done.
    + rewrite lookup_insert_ne by done. rewrite <- Hd.
      by destruct (_delegatedListeners m0).
  - simpl. by rewrite Hc.
  - unfold off. simpl. unfold kept_for in Hnone. rewrite <- Hd in Hnone.
    destruct (_delegatedListeners m0) as [d|]; [|done]. simpl in Hnone.
    destruct (d !! type) as [ls|]; [|done]. simpl in Hnone.
    by rewrite Hnone.
Qed.

Lemma off_takes_back_on_but_not_once_witness :
  calls (off "mouseenter" "parks" 7 (on "mouseenter" "parks" 7 (constructed 100)))
  = [Super_on "mousemove" 100; Super_on "mouseout" 101;
     Super_off "mousemove" 100; Super_off "mouseout" 101]
  ∧ calls (off "click" "parks" 7 (once "click" "parks" 7 (constructed 100)))
    = [Super_once "click" 100].
Proof.
  split.
  - destruct (off_takes_back_on_but_not_once "mouseenter" "parks" 7
                (constructed 100) eq_refl) as (H1 & H2 & _).
    rewrite H2, H1. reflexivity.
  - destruct (off_takes_back_on_but_not_once "click" "parks" 7
                (constructed 100) eq_refl) as (_ & _ & _ & H4 & H5).
    rewrite H5, H4. reflexivity.
Defined.

End ListenerFacts.
